(** * VeraLux HyperMetric Stretch: the engine of [VeraLuxEngine.cpp]

    A shallow embedding of the numerical core of the VeraLux PixInsight
    module, and the properties its specification states about it.

    Number model.  The engine computes on IEEE [float] and [double]
    values.  Here the arithmetic is exact: the hyperbolic transfer, the
    [logD] solver and the colour reconstructor, which need [asinh] and
    powers, are written over the real numbers [R]; the statistics kernel,
    the anchor estimators, the range normaliser and the input normaliser,
    which only add, multiply, divide, compare and round down, are written
    over the rationals [Q] and can be evaluated.  Rounding, overflow and
    NaN are not modelled.  The [float] literal that a [float] argument is
    compared with, [0.001f] in the range normaliser, is written with its
    exact binary32 value ([float_0_001]).

    PCL, the host library, is not part of the sources.  What the engine
    calls from it is either written out from its documented meaning
    ([Truncate], the sample iterators, [MaximumSampleValue] of a
    normalized image, the pixel accessor [img(x,y)] with its default
    channel 0) or taken as a parameter of the function that uses it
    ([ImageStatistics::Median], [Pow], [LocateMaximumSampleValue], and in
    the input normaliser [Assign] and [MaximumSampleValue]).  The build
    modelled is the default one, without [HMS_USE_MAD]. *)

From Stdlib Require Import Reals Psatz Lia List ZArith.
From Stdlib Require Import QArith Qround Qminmax Qabs.
From Stdlib Require Import Sorted.
From Stdlib Require Import String.
Import ListNotations.

(** ** Images

    A PCL image is a [Width] x [Height] grid with one flat array of
    samples per channel ([img[c]] in the source), row after row. *)

Record GenericImage (A : Type) : Type := mkImage {
  Width : Z;
  Height : Z;
  channels : list (list A)
}.

Arguments mkImage {A} _ _ _.
Arguments Width {A} _.
Arguments Height {A} _.
Arguments channels {A} _.

Definition NumberOfChannels {A} (img : GenericImage A) : Z :=
  Z.of_nat (List.length (channels img)).

Definition NumberOfPixels {A} (img : GenericImage A) : Z :=
  (Width img * Height img)%Z.

(** [img[c]]: the sample array of channel [c]. *)
Definition channel {A} (img : GenericImage A) (c : nat) : list A :=
  nth c (channels img) [].

(** A loop over every channel and every sample of it that replaces the
    sample [v] by [f v]. *)
Definition map_samples {A} (f : A -> A) (img : GenericImage A) : GenericImage A :=
  mkImage (Width img) (Height img) (map (map f) (channels img)).

(** * Hyperbolic transfer, solver and colour reconstruction (over [R]) *)

Module Transfer.

Local Open Scope R_scope.

Definition Image := GenericImage R.

Definition ArcSinh (x : R) : R := arcsinh x.

Definition Pow10 (x : R) : R := Rpower 10 x.

(** [Image::Truncate( lo, hi )] on one sample. *)
Definition Truncate (lo hi v : R) : R :=
  if Rlt_dec v lo then lo else if Rlt_dec hi v then hi else v.

(** The divisor of [HyperbolicStretch], after its guard
    [if ( normFactor == 0 ) normFactor = 1e-6]; [D] and [b] are the
    values already raised to 0.1. *)
Definition normFactor (D b SP : R) : R :=
  let term2 := ArcSinh b in
  let normFactor := ArcSinh (D * (1 - SP) + b) - term2 in
  if Req_dec_T normFactor 0 then 1e-6 else normFactor.

(** The body of the sample loop of [HyperbolicStretch]. *)
Definition stretch_sample (D b SP val : R) : R :=
  let term2 := ArcSinh b in
  let term1 := ArcSinh (D * (val - SP) + b) in
  (term1 - term2) / normFactor D b SP.

(** What [HyperbolicStretch] does to one sample: floors on [D] and [b],
    the normalised arcsinh, the final [Truncate( 0.0, 1.0 )]. *)
Definition transfer (D b SP val : R) : R :=
  let D := Rmax D 0.1 in
  let b := Rmax b 0.1 in
  Truncate 0 1 (stretch_sample D b SP val).

Definition HyperbolicStretch (target : Image) (D b SP : R) : Image :=
  let D := Rmax D 0.1 in
  let b := Rmax b 0.1 in
  map_samples (Truncate 0 1) (map_samples (stretch_sample D b SP) target).

(** The divisor the division of [HyperbolicStretch] is performed with. *)
Definition divisor (D b SP : R) : R :=
  normFactor (Rmax D 0.1) (Rmax b 0.1) SP.

(** The normalisation term before the guard, on the floored [D] and [b]. *)
Definition raw_normFactor (D b SP : R) : R :=
  ArcSinh (Rmax D 0.1 * (1 - SP) + Rmax b 0.1) - ArcSinh (Rmax b 0.1).

(** ** SolveLogD *)

(** The stretch simulated on the median inside the loop of [SolveLogD]
    (no floor on [b], shadow point 0). *)
Definition simulate (medianIn bVal midLog : R) : R :=
  let midD := Pow10 midLog in
  let term1 := ArcSinh (midD * medianIn + bVal) in
  let term2 := ArcSinh bVal in
  let normFactor := ArcSinh (midD + bVal) - term2 in
  let normFactor := if Req_dec_T normFactor 0 then 1e-6 else normFactor in
  (term1 - term2) / normFactor.

(** The [for] loop of [SolveLogD], [iter] iterations left. *)
Fixpoint bisect (iter : nat) (medianIn targetMedian bVal : R)
    (lowLog highLog bestLogD : R) : R :=
  match iter with
  | O => bestLogD
  | S iter' =>
      let midLog := (lowLog + highLog) / 2 in
      let testVal := simulate medianIn bVal midLog in
      if Rlt_dec (Rabs (testVal - targetMedian)) 0.0001 then midLog
      else if Rlt_dec testVal targetMedian
           then bisect iter' medianIn targetMedian bVal midLog highLog bestLogD
           else bisect iter' medianIn targetMedian bVal lowLog midLog bestLogD
  end.

(** The midpoints the loop evaluates, in order. *)
Fixpoint midpoints (iter : nat) (medianIn targetMedian bVal : R)
    (lowLog highLog : R) : list R :=
  match iter with
  | O => []
  | S iter' =>
      let midLog := (lowLog + highLog) / 2 in
      let testVal := simulate medianIn bVal midLog in
      midLog ::
      if Rlt_dec (Rabs (testVal - targetMedian)) 0.0001 then []
      else if Rlt_dec testVal targetMedian
           then midpoints iter' medianIn targetMedian bVal midLog highLog
           else midpoints iter' medianIn targetMedian bVal lowLog midLog
  end.

(** A midpoint matches when its simulated output is within 1e-4 of the
    target. *)
Definition matches (medianIn targetMedian bVal midLog : R) : Prop :=
  Rabs (simulate medianIn bVal midLog - targetMedian) < 0.0001.

Section Solver.

(** [ImageStatistics::Median] of PCL. *)
Variable Median : Image -> R.

Definition SolveLogD (luma : Image) (targetMedian bVal : R) : R :=
  let medianIn := Median luma in
  if Rlt_dec medianIn 1e-9 then 2
  else bisect 40 medianIn targetMedian bVal 0 7 2.

(** The midpoints of a run of [SolveLogD] that enters the loop. *)
Definition SolveLogD_midpoints (luma : Image) (targetMedian bVal : R) : list R :=
  midpoints 40 (Median luma) targetMedian bVal 0 7.

End Solver.

(** ** ReconstructColor *)

Section Color.

(** [pcl::Pow] on [float] arguments. *)
Variable Pow : R -> R -> R.

Definition epsilon : R := 1e-9.

(** First loop: the ratio of one original channel value [c] of pixel [i]. *)
Definition ratio_at (originalRGB : Image) (c i : nat) : R :=
  let origR := channel originalRGB 0 in
  let origG := channel originalRGB 1 in
  let origB := channel originalRGB 2 in
  let L := nth i origR 0 + nth i origG 0 + nth i origB 0 + epsilon in
  nth i (channel originalRGB c) 0 / L.

(** Second loop: stretched luminance with colour convergence. *)
Definition vector_at (luma originalRGB : Image) (colorConvergence : R)
    (c i : nat) : R :=
  let L := nth i (channel luma 0) 0 in
  let k := Pow L colorConvergence in
  let cFinal := ratio_at originalRGB c i * (1 - k) + 1 * k in
  L * cFinal.

(** Third loop, run when [needsHybrid]: blend with the scalar stretch. *)
Definition hybrid_at (luma originalRGB : Image)
    (colorConvergence colorGrip shadowConvergence D b : R) (c i : nat) : R :=
  let scalar := HyperbolicStretch originalRGB D b 0 in
  let L := nth i (channel luma 0) 0 in
  let gripMap := colorGrip in
  let gripMap :=
    if Rlt_dec 0.01 shadowConvergence
    then gripMap * Pow L shadowConvergence
    else gripMap in
  let gripInv := 1 - gripMap in
  vector_at luma originalRGB colorConvergence c i * gripMap
  + nth i (channel scalar c) 0 * gripInv.

(** [(colorGrip < 1.0) || (shadowConvergence > 0.01)] *)
Definition needsHybrid (colorGrip shadowConvergence : R) : bool :=
  (if Rlt_dec colorGrip 1 then true else false)
  || (if Rlt_dec 0.01 shadowConvergence then true else false).

(** The value of channel [c] at pixel [i] before the pedestal. *)
Definition blended_at (luma originalRGB : Image)
    (colorConvergence colorGrip shadowConvergence D b : R) (c i : nat) : R :=
  if needsHybrid colorGrip shadowConvergence then
    hybrid_at luma originalRGB colorConvergence colorGrip shadowConvergence D b c i
  else vector_at luma originalRGB colorConvergence c i.

(** [rgb *= 0.995f; rgb += 0.005f; rgb.Truncate( 0.0, 1.0 )] on one sample. *)
Definition pedestal (v : R) : R := Truncate 0 1 (v * 0.995 + 0.005).

Definition ReconstructColor (rgb luma originalRGB : Image)
    (colorConvergence colorGrip shadowConvergence D b : R) : Image :=
  if negb (NumberOfChannels rgb =? 3)%Z then luma
  else
    let N := Z.to_nat (NumberOfPixels rgb) in
    let out c :=
      map (blended_at luma originalRGB colorConvergence colorGrip
             shadowConvergence D b c) (seq 0 N) in
    map_samples pedestal
      (mkImage (Width rgb) (Height rgb) [out 0%nat; out 1%nat; out 2%nat]).

End Color.

(** Channel [c] of pixel [i] divided by the sum of the three channels of
    that pixel. *)
Definition channel_ratio (img : Image) (c i : nat) : R :=
  nth i (channel img c) 0
  / (nth i (channel img 0) 0 + nth i (channel img 1) 0 + nth i (channel img 2) 0).

(** [Pow] as [float] arithmetic returns it where underflow matters: a
    power of a positive base below half the smallest positive [float]
    (about 7e-46) is returned as 0, and so is a power of base 0. *)
Definition FloatPow (x y : R) : R :=
  if Rle_dec x 0 then 0
  else if Rlt_dec (Rpower x y) 1e-46 then 0 else Rpower x y.

(** A median for the images used as examples: the middle sample of an
    image whose samples are all equal is its first sample. *)
Definition FlatMedian (img : Image) : R := nth 0 (channel img 0) 0.

(** A luminance image of one sample, one half. *)
Definition half_luma : Image := mkImage 1 1 [[1 / 2]].

(** A dim reddish pixel: the anchored original, its stretched luminance,
    and the image to reconstruct into. *)
Definition dim_original : Image := mkImage 1 1 [[2e-6]; [1e-6]; [1e-6]].
Definition dim_luma : Image := mkImage 1 1 [[1e-5]].
Definition dim_rgb : Image := mkImage 1 1 [[0]; [0]; [0]].

(** A saturated pixel: stretched luminance 1 over an orange original. *)
Definition bright_luma : Image := mkImage 1 1 [[1]].
Definition orange_original : Image := mkImage 1 1 [[0.8]; [0.5]; [0.2]].

(** The transfer as the specification writes it for the round trip of
    [SolveLogD]: [(asinh(10^logD*m0+b)-asinh(b))/(asinh(10^logD+b)-asinh(b))]. *)
Definition spec_transfer (logD m0 b : R) : R :=
  (arcsinh (Rpower 10 logD * m0 + b) - arcsinh b)
  / (arcsinh (Rpower 10 logD + b) - arcsinh b).

End Transfer.

(** * Statistics kernel, anchor estimators and range normaliser (over [Q]) *)

Module Stats.

Local Open Scope Q_scope.

Definition Image := GenericImage Q.

(** ** Percentiles *)

Definition PercentileFromSorted (sorted : list Q) (pct : Q) : Q :=
  if (List.length sorted =? 0)%nat then 0
  else
    let pct := Qmax 0 (Qmin pct 100) in
    if (List.length sorted =? 1)%nat then nth 0 sorted 0
    else
      let pos := (pct / 100) * inject_Z (Z.of_nat (List.length sorted) - 1) in
      let i0 := Qfloor pos in
      let i1 := Z.min (i0 + 1) (Z.of_nat (List.length sorted) - 1) in
      let f := pos - inject_Z i0 in
      let v0 := nth (Z.to_nat i0) sorted 0 in
      let v1 := nth (Z.to_nat i1) sorted 0 in
      v0 + f * (v1 - v0).

(** The rank [pos] of [PercentileFromSorted] for a clamped [pct] and [n]
    samples. *)
Definition rank (n : nat) (pct : Q) : Q :=
  (pct / 100) * inject_Z (Z.of_nat n - 1).

(** [std::sort] on a vector of samples, as an insertion sort. *)
Fixpoint insert (x : Q) (l : list Q) : list Q :=
  match l with
  | [] => [x]
  | y :: l' => if Qle_bool x y then x :: l else y :: insert x l'
  end.

Fixpoint sort (l : list Q) : list Q :=
  match l with
  | [] => []
  | x :: l' => insert x (sort l')
  end.

(** [PercentileInPlace] sorts the vector it is given: the result is the
    percentile together with the vector as the call leaves it. *)
Definition PercentileInPlace (sample : list Q) (pct : Q) : Q * list Q :=
  if (List.length sample =? 0)%nat then (0, sample)
  else
    let sample := sort sample in
    (PercentileFromSorted sample pct, sample).

(** The samples [data[0], data[stride], data[2*stride], ...] below
    [count], as the loops [for ( i = 0; i < count; i += stride )] push
    them. *)
Definition subsample (data : list Q) (count stride : Z) : list Q :=
  map (fun k => nth (k * Z.to_nat stride) data 0)
      (seq 0 (Z.to_nat ((count + stride - 1) / stride))).

Definition SubsamplePercentile (data : list Q) (count stride : Z) (pct : Q) : Q :=
  if (count =? 0)%Z then 0
  else
    let stride := Z.max 1 stride in
    fst (PercentileInPlace (subsample data count stride) pct).

(** ** CalculateAnchor *)

Definition CalculateAnchor (img : Image) : Q :=
  let nChannels := NumberOfChannels img in
  let nPixels := NumberOfPixels img in
  let totalSize := (nPixels * Z.max 1 nChannels)%Z in
  if (nChannels =? 3)%Z then
    let stride := Z.max 1 (totalSize / 500000) in
    let minFloor :=
      fold_left
        (fun minFloor c =>
           let floor := SubsamplePercentile (channel img c) nPixels stride 0.5 in
           Qmin minFloor floor)
        [0%nat; 1%nat; 2%nat] 1 in
    Qmax 0 (minFloor - 0.00025)
  else
    let stride := Z.max 1 (totalSize / 200000) in
    let floor := SubsamplePercentile (channel img 0) nPixels stride 0.5 in
    Qmax 0 (floor - 0.00025).

(** ** CalculateAnchorAdaptive *)

Record SensorProfile : Type := mkProfile {
  rWeight : Q;
  gWeight : Q;
  bWeight : Q
}.

Definition bins : Z := 65536.

(** [hist[bin]++] *)
Fixpoint incr_at (bin : nat) (hist : list Z) : list Z :=
  match hist, bin with
  | [], _ => []
  | h :: hist', O => (h + 1)%Z :: hist'
  | h :: hist', S bin' => h :: incr_at bin' hist'
  end.

(** [hist[j]] behind the guard [j >= 0 && j < bins]. *)
Definition hist_at (hist : list Z) (j : Z) : Z :=
  if ((0 <=? j) && (j <? Z.of_nat (List.length hist)))%Z
  then nth (Z.to_nat j) hist 0%Z else 0%Z.

(** The inner loop of [SmoothHistogramBox50] for output bin [i]. *)
Definition window_sum (hist : list Z) (i : Z) : Z :=
  let window := 50%nat in
  let half := 25%Z in
  fold_left (fun sum k => (sum + hist_at hist (i - half + Z.of_nat k))%Z)
            (seq 0 window) 0%Z.

Definition SmoothHistogramBox50 (hist : list Z) : list Q :=
  map (fun i => inject_Z (window_sum hist (Z.of_nat i)) / 50)
      (seq 0 (List.length hist)).

(** The luminance the histogram is built from. *)
Definition adaptive_luma (img : Image) (profile : SensorProfile) : list Q :=
  if (NumberOfChannels img =? 3)%Z then
    let r := channel img 0 in
    let g := channel img 1 in
    let b := channel img 2 in
    let rw := rWeight profile in
    let gw := gWeight profile in
    let bw := bWeight profile in
    map (fun i => rw * nth i r 0 + gw * nth i g 0 + bw * nth i b 0)
        (seq 0 (Z.to_nat (NumberOfPixels img)))
  else channel img 0.

(** The bin of one clipped sample. *)
Definition bin_of (v : Q) : Z :=
  let vv := Qmin v 0.999999 in
  let bin := Qfloor (vv * inject_Z bins) in
  let bin := if (bin <? 0)%Z then 0%Z else bin in
  if (bin >=? bins)%Z then (bins - 1)%Z else bin.

(** The body of the sampling loop on the pair of the retained
    subsample and the histogram. *)
Definition histogram_step (st : list Q * list Z) (v : Q) : list Q * list Z :=
  let v := Qmax 0 (Qmin v 1) in
  (fst st ++ [v], incr_at (Z.to_nat (bin_of v)) (snd st)).

(** The sampling loop: the retained subsample and the histogram. *)
Definition build_histogram (data : list Q) (N stride : Z) : list Q * list Z :=
  fold_left histogram_step (subsample data N stride)
            ([], repeat 0%Z (Z.to_nat bins)).

(** The loop that finds [maxBefore]. *)
Definition max_before (histSmooth : list Q) : Q :=
  fold_left (fun maxBefore i => Qmax maxBefore (nth i histSmooth 0))
            (seq 0 (Z.to_nat (Z.min bins 100))) 0.

(** The peak search from [searchStart]: the final [(peakIdx, peakVal)]. *)
Definition peak_search (histSmooth : list Q) (searchStart : nat) : nat * Q :=
  fold_left
    (fun st i =>
       if Qlt_le_dec (snd st) (nth i histSmooth 0)
       then (i, nth i histSmooth 0) else st)
    (seq (searchStart + 1) (Z.to_nat bins - (searchStart + 1)))
    (searchStart, nth searchStart histSmooth 0).

(** The scan left of the peak: the final [anchorIdx]. *)
Definition anchor_scan (histSmooth : list Q) (peakIdx : nat) (targetVal : Q) : Z :=
  fold_left
    (fun anchorIdx i =>
       if Qlt_le_dec (nth i histSmooth 0) targetVal
       then Z.of_nat i else anchorIdx)
    (seq 0 peakIdx) (-1)%Z.

Definition CalculateAnchorAdaptive (img : Image) (profile : SensorProfile) : Q :=
  let data := adaptive_luma img profile in
  let N := NumberOfPixels img in
  let stride := Z.max 1 (N / 2000000) in
  let '(sample, hist) := build_histogram data N stride in
  let histSmooth := SmoothHistogramBox50 hist in
  let searchStart := 100%nat in
  let searchStart := if (Z.of_nat searchStart >=? bins)%Z then 0%nat else searchStart in
  let maxBefore := max_before histSmooth in
  let searchStart := if Qlt_le_dec 0 maxBefore then 0%nat else searchStart in
  let '(peakIdx, peakVal) := peak_search histSmooth searchStart in
  let targetVal := peakVal * 0.06 in
  let anchorIdx := anchor_scan histSmooth peakIdx targetVal in
  let anchor :=
    if (anchorIdx >=? 0)%Z then inject_Z anchorIdx / inject_Z bins
    else fst (PercentileInPlace sample 0.5) in
  Qmax 0 anchor.

(** An all-zero image: every sample of every channel is zero. *)
Definition zeros (l : list Q) : Prop := Forall (fun v => v == 0) l.

Definition all_zero (img : Image) : Prop := Forall zeros (channels img).

(** An all-zero colour image of four pixels, for the examples. *)
Definition black_rgb : Image :=
  mkImage 2 2 [[0; 0; 0; 0]; [0; 0; 0; 0]; [0; 0; 0; 0]].

(** ** ApplyLinearExpansion *)

Record LinearExpansionStats : Type := mkStats {
  pctLow : Q;
  pctHigh : Q;
  low : Q;
  high : Q
}.

(** [Image::MaximumSampleValue]: the largest sample of all channels. *)
Definition MaximumSampleValue (img : Image) : Q :=
  match List.concat (channels img) with
  | [] => 0
  | v :: l => fold_left Qmax l v
  end.

(** [target( x, y )]: the pixel accessor, whose channel argument is left
    at its default, channel 0. *)
Definition pixel (img : Image) (x y : Z) : Q :=
  nth (Z.to_nat (y * Width img + x)) (channel img 0) 0.

(** The integers [lo], [lo+1], ..., [hi-1] of a counting loop. *)
Definition Zrange (lo hi : Z) : list Z :=
  map (fun k => (lo + Z.of_nat k)%Z) (seq 0 (Z.to_nat (hi - lo))).

(** The two nested loops over the 3x3 neighbourhood of [maxPos]. *)
Definition max_neighbor (target : Image) (absMax : Q) (maxPos : Z * Z) : Q :=
  let y0 := Z.max 0 (snd maxPos - 1) in
  let y1 := Z.min (Height target) (snd maxPos + 2) in
  let x0 := Z.max 0 (fst maxPos - 1) in
  let x1 := Z.min (Width target) (fst maxPos + 2) in
  fold_left
    (fun maxNeighbor y =>
       fold_left
         (fun maxNeighbor x =>
            let val := pixel target x y in
            if Qlt_le_dec val absMax then Qmax maxNeighbor val else maxNeighbor)
         (Zrange x0 x1) maxNeighbor)
    (Zrange y0 y1) 0.

(** A located maximum for the examples: the first position, row after
    row, at which channel [c] holds [absMax]; [None] when it holds it
    nowhere. *)
Fixpoint find_sample (absMax : Q) (data : list Q) (i : nat) : option nat :=
  match data with
  | [] => None
  | v :: data' => if Qeq_bool v absMax then Some i else find_sample absMax data' (S i)
  end.

Fixpoint find_in_channels (absMax : Q) (chans : list (list Q)) : option nat :=
  match chans with
  | [] => None
  | data :: chans' =>
      match find_sample absMax data 0 with
      | Some i => Some i
      | None => find_in_channels absMax chans'
      end
  end.

Definition LocateFirstMaximum (img : Image) : Z * Z :=
  match find_in_channels (MaximumSampleValue img) (channels img) with
  | Some i =>
      if (Width img <=? 0)%Z then (0%Z, 0%Z)
      else ((Z.of_nat i mod Width img)%Z, (Z.of_nat i / Width img)%Z)
  | None => (0%Z, 0%Z)
  end.

(** Example images: a flat grey sample; and two colour images, three
    pixels wide and high, that share an all-black channel 0 and hold their
    maximum in channel 1, once as an isolated pixel and once inside a
    bright cluster. *)
Definition flat_grey : Image := mkImage 1 1 [[0.5]].

Definition black9 : list Q := [0; 0; 0; 0; 0; 0; 0; 0; 0].


Definition green_star : Image :=
  mkImage 3 3 [black9; [0.9; 0.9; 0.9; 0.9; 1; 0.9; 0.9; 0.9; 0.9]; black9].

(** A grey ramp of four samples and a single hot pixel on black. *)
Definition grey_ramp : Image := mkImage 2 2 [[0.1; 0.5; 0.3; 0.9]].

Definition hot_pixel : Image := mkImage 3 3 [[0; 0; 0; 0; 1; 0; 0; 0; 0]].

(** The [float] literal [0.001f] that [ApplyLinearExpansion] compares its
    [float] factor with: the binary32 number nearest to 0.001, which is
    [8589935 / 2^33], a little above 0.001. *)
Definition float_0_001 : Q := 8589935 # 8589934592.

Section LinearExpansion.

(** [Image::LocateMaximumSampleValue] of PCL: the position [(x, y)] of
    the maximum sample. *)
Variable LocateMaximumSampleValue : Image -> Z * Z.

(** The smart-max test: the final [useAbsoluteMax]. *)
Definition useAbsoluteMax (target : Image) : bool :=
  let absMax := MaximumSampleValue target in
  if Qlt_le_dec 0.001 absMax then
    let maxPos := LocateMaximumSampleValue target in
    let maxNeighbor := max_neighbor target absMax maxPos in
    if Qlt_le_dec maxNeighbor (absMax * 0.20) then false else true
  else false.

(** The subsample of all channels the exact percentiles are taken from
    (the build without [HMS_USE_MAD], the default). *)
Definition expansion_sample (target : Image) : list Q :=
  let stride := Z.max 1 (NumberOfPixels target / 500000) in
  flat_map (fun ch => subsample ch (NumberOfPixels target) stride)
           (channels target).

Definition resolved_low (target : Image) : Q :=
  fst (PercentileInPlace (expansion_sample target) 0.001).

Definition resolved_high (target : Image) : Q :=
  if useAbsoluteMax target then MaximumSampleValue target
  else
    let sample := snd (PercentileInPlace (expansion_sample target) 0.001) in
    PercentileFromSorted (sort sample) 99.999.

(** The number of samples of all channels that satisfy [p]. *)
Definition count_samples (p : Q -> bool) (target : Image) : Z :=
  fold_left
    (fun n ch => fold_left (fun n v => if p v then (n + 1)%Z else n) ch n)
    (channels target) 0%Z.

(** The diagnostics of an expansion that is carried out. *)
Definition expansion_diagnostics (target : Image) (low high : Q)
    : LinearExpansionStats :=
  let totalPixels := (NumberOfPixels target * NumberOfChannels target)%Z in
  let countLow := count_samples (fun v => Qle_bool v low) target in
  let countHigh := count_samples (fun v => Qle_bool high v) target in
  mkStats (inject_Z countLow * 100 / inject_Z totalPixels)
          (inject_Z countHigh * 100 / inject_Z totalPixels)
          low high.

(** The body of the final sample loop. *)
Definition expand_sample (low range factor original : Q) : Q :=
  let factorInv := 1 - factor in
  let temp := (original - low) / range in
  let normalized := Qmax 0 (Qmin temp 1) in
  original * factorInv + normalized * factor.

(** [diagnostics] is [None] for a null pointer and [Some d] for a pointer
    to a record holding [d]; the result is the image and the record as the
    call leaves them. *)
Definition ApplyLinearExpansion (target : Image) (factor : Q)
    (diagnostics : option LinearExpansionStats)
    : Image * option LinearExpansionStats :=
  if Qle_bool factor float_0_001 then
    (target, option_map (fun _ => mkStats 0 0 0 0) diagnostics)
  else
    let factor := Qmax 0 (Qmin factor 1) in
    let low := resolved_low target in
    let high := resolved_high target in
    if Qle_bool high low then
      (target, option_map (fun _ => mkStats 0 0 low high) diagnostics)
    else
      let diagnostics :=
        option_map (fun _ => expansion_diagnostics target low high) diagnostics in
      let range := high - low in
      (map_samples (expand_sample low range factor) target, diagnostics).

End LinearExpansion.

End Stats.

(** * Input normalisation *)

Module Input.

Local Open Scope Q_scope.

(** A [float] sample before it is sanitised: a number, or NaN or an
    infinity. *)
Inductive Sample : Type :=
  | Finite (v : Q)
  | NotFinite.

Definition FloatImage := GenericImage Sample.

(** The sample formats of PCL's pixel traits; [IsFloatSample] and
    [IsComplexSample] are read off the format. *)
Inductive SampleFormat : Type :=
  | FloatFormat
  | ComplexFormat
  | IntegerFormat.

Record ImageVariant : Type := mkVariant {
  format : SampleFormat;
  BitsPerSample : Z;
  payload : FloatImage
}.

Definition IsFloatSample (source : ImageVariant) : bool :=
  match format source with FloatFormat => true | _ => false end.

Definition IsComplexSample (source : ImageVariant) : bool :=
  match format source with ComplexFormat => true | _ => false end.

(** The outcome of a call: the error thrown, if any. *)
Inductive Outcome : Type :=
  | Returned
  | Thrown (message : string).

(** [target /= c] *)
Definition divide (c : Q) (s : Sample) : Sample :=
  match s with Finite v => Finite (v / c) | NotFinite => NotFinite end.

(** [if ( !IsFinite( v ) || v < 0 ) v = 0] *)
Definition sanitize (s : Sample) : Sample :=
  match s with
  | Finite v => if Qlt_le_dec v 0 then Finite 0 else Finite v
  | NotFinite => Finite 0
  end.

(** [target.Truncate( 0.0, 1.0 )] on one sample. *)
Definition truncate01 (s : Sample) : Sample :=
  match s with
  | Finite v =>
      if Qlt_le_dec v 0 then Finite 0
      else if Qlt_le_dec 1 v then Finite 1 else Finite v
  | NotFinite => NotFinite
  end.

Section Normalize.

(** [Image::Assign] of PCL from the image the variant transports. *)
Variable Assign : ImageVariant -> FloatImage.

(** [Image::MaximumSampleValue] of PCL on samples not yet sanitised. *)
Variable MaximumSampleValue : FloatImage -> Q.

(** The first part of [NormalizeInput], up to the sanitising loop: the
    target as the branch leaves it, and whether it threw. *)
Definition convert (target : FloatImage) (source : ImageVariant)
    : FloatImage * Outcome :=
  if IsFloatSample source then
    let target :=
      if (BitsPerSample source =? 32)%Z then Assign source
      else if (BitsPerSample source =? 64)%Z then Assign source
      else target in
    let maxVal := MaximumSampleValue target in
    if Qlt_le_dec 1.1 maxVal then
      if Qlt_le_dec maxVal 100000 then (map_samples (divide 65535) target, Returned)
      else (map_samples (divide 4294967295) target, Returned)
    else (target, Returned)
  else if IsComplexSample source then
    (target, Thrown "Complex images are not supported.")
  else
    if (BitsPerSample source =? 8)%Z then
      (map_samples (divide 255) (Assign source), Returned)
    else if (BitsPerSample source =? 16)%Z then
      (map_samples (divide 65535) (Assign source), Returned)
    else if (BitsPerSample source =? 32)%Z then
      (map_samples (divide 4294967295) (Assign source), Returned)
    else (target, Returned).

(** [target] is the image the caller passes by reference; the result is
    that image as the call leaves it, with the outcome. *)
Definition NormalizeInput (target : FloatImage) (source : ImageVariant)
    : FloatImage * Outcome :=
  match convert target source with
  | (target, Thrown message) => (target, Thrown message)
  | (target, Returned) =>
      (map_samples truncate01 (map_samples sanitize target), Returned)
  end.

End Normalize.

(** For the examples: an assignment that copies the transported samples,
    and the largest finite sample (0 when there is none). *)
Definition AssignPayload (source : ImageVariant) : FloatImage := payload source.

Definition MaximumFinite (img : FloatImage) : Q :=
  fold_left
    (fun m s => match s with Finite v => Qmax m v | NotFinite => m end)
    (List.concat (channels img)) 0.

Definition complex_source : ImageVariant :=
  mkVariant ComplexFormat 32 (mkImage 1 1 [[Finite 0.5]]).

Definition float_source : ImageVariant :=
  mkVariant FloatFormat 64 (mkImage 2 1 [[Finite 0.5; NotFinite]]).

Definition integer_source : ImageVariant :=
  mkVariant IntegerFormat 16 (mkImage 2 1 [[Finite 65535; Finite 0]]).

Definition blank_target : FloatImage := mkImage 0 0 [].

End Input.

(** * Luminance, midtone transfer, output scaling and star pressure (over [Q]) *)

Module Finishing.

Import Stats.
Local Open Scope Q_scope.

(** [Image::Truncate( lo, hi )] on one sample. *)
Definition Truncate (lo hi v : Q) : Q :=
  if Qlt_le_dec v lo then lo else if Qlt_le_dec hi v then hi else v.

(** The weighted sum [rw*r[i] + gw*g[i] + bw*b[i]] of pixel [i]. *)
Definition weighted_sum (profile : SensorProfile) (r g b : Q) : Q :=
  rWeight profile * r + gWeight profile * g + bWeight profile * b.

(** ** ExtractLuminance *)

Definition ExtractLuminance (rgb : Image) (anchor : Q) (profile : SensorProfile)
    : Image :=
  if (NumberOfChannels rgb =? 3)%Z then
    let r := channel rgb 0 in
    let g := channel rgb 1 in
    let b := channel rgb 2 in
    let N := Z.to_nat (NumberOfPixels rgb) in
    mkImage (Width rgb) (Height rgb)
      [map (fun i =>
              let ra := Qmax 0 (nth i r 0 - anchor) in
              let ga := Qmax 0 (nth i g 0 - anchor) in
              let ba := Qmax 0 (nth i b 0 - anchor) in
              weighted_sum profile ra ga ba)
           (seq 0 N)]
  else map_samples (fun v => Truncate anchor 1 v - anchor) rgb.

(** ** ApplyMTF *)

(** The body of the sample loop of [ApplyMTF]. *)
Definition mtf_sample (m v : Q) : Q :=
  let m1 := m - 1 in
  let m2 := 2 * m - 1 in
  let term1 := m1 * v in
  let term2 := m2 * v - m in
  if Qeq_dec term2 0 then 0 else term1 / term2.

Definition ApplyMTF (target : Image) (m : Q) : Image :=
  map_samples (Truncate 0 1) (map_samples (mtf_sample m) target).

(** ** AdaptiveOutputScaling *)

Definition PEDESTAL : Q := 0.001.

(** The luminance the statistics are taken from, before and after the
    scaling. *)
Definition scaling_luma (target : Image) (profile : SensorProfile) : Image :=
  if (NumberOfChannels target =? 3)%Z then
    let r := channel target 0 in
    let g := channel target 1 in
    let b := channel target 2 in
    let N := Z.to_nat (NumberOfPixels target) in
    mkImage (Width target) (Height target)
      [map (fun i => weighted_sum profile (nth i r 0) (nth i g 0) (nth i b 0))
           (seq 0 N)]
  else target.

(** The exact 99th percentile (the build without [HMS_USE_MAD]). *)
Definition soft_ceiling_percentile (target luma : Image) : Q :=
  if (NumberOfChannels target =? 3)%Z then
    let N := NumberOfPixels target in
    let stride := Z.max 1 (N / 500000) in
    let p99R := fst (PercentileInPlace (subsample (channel target 0) N stride) 99) in
    let p99G := fst (PercentileInPlace (subsample (channel target 1) N stride) 99) in
    let p99B := fst (PercentileInPlace (subsample (channel target 2) N stride) 99) in
    Qmax p99R (Qmax p99G p99B)
  else
    let N := NumberOfPixels luma in
    let stride := Z.max 1 (N / 200000) in
    fst (PercentileInPlace (subsample (channel luma 0) N stride) 99).

(** The body of the scaling loop. *)
Definition scale_sample (globalFloor finalScale val : Q) : Q :=
  let scaled := (val - globalFloor) * finalScale + PEDESTAL in
  Qmax 0 (Qmin scaled 1).

(** The midtone parameter solved for the measured and the target
    background. *)
Definition midtone_parameter (currentBg targetBg : Q) : Q :=
  (currentBg * (targetBg - 1)) / (currentBg * (2 * targetBg - 1) - targetBg).

(** The test [currentBg > 0.0 && currentBg < 1.0 &&
    Abs( currentBg - targetBg ) > 1e-3]. *)
Definition needs_mtf (currentBg targetBg : Q) : bool :=
  (if Qlt_le_dec 0 currentBg then true else false)
  && (if Qlt_le_dec currentBg 1 then true else false)
  && (if Qlt_le_dec 0.001 (Qabs (currentBg - targetBg)) then true else false).

Section Scaling.

(** [ImageStatistics] of PCL: median, standard deviation, minimum and
    maximum of the luminance. *)
Variables Median StdDev Minimum Maximum : Image -> Q.

(** [Image::LocateMaximumSampleValue] of PCL. *)
Variable LocateMaximumSampleValue : Image -> Z * Z.

Definition globalFloor (luma : Image) : Q :=
  Qmax (Minimum luma) (Median luma - 2.7 * StdDev luma).

(** The smart-max test on the luminance: the final [validPhysicalMax]. *)
Definition validPhysicalMax (luma : Image) : bool :=
  let absMax := Maximum luma in
  if Qlt_le_dec 0.001 absMax then
    let maxPos := LocateMaximumSampleValue luma in
    let maxNeighbor := max_neighbor luma absMax maxPos in
    if Qlt_le_dec maxNeighbor (absMax * 0.20) then false else true
  else true.

Definition softCeil (target luma : Image) : Q :=
  Qmax (globalFloor luma + 0.000001) (Qmin (soft_ceiling_percentile target luma) 1).

(** [absMax] after [if ( absMax <= softCeil ) absMax = softCeil + 0.000001]. *)
Definition physical_max (target luma : Image) : Q :=
  if Qle_bool (Maximum luma) (softCeil target luma)
  then softCeil target luma + 0.000001 else Maximum luma.

Definition scaleContrast (target luma : Image) : Q :=
  (0.98 - PEDESTAL) / (softCeil target luma - globalFloor luma + 0.000000001).

Definition scalePhysicalLimit (target luma : Image) : Q :=
  (1 - PEDESTAL) / (physical_max target luma - globalFloor luma + 0.000000001).

Definition finalScale (target luma : Image) : Q :=
  if validPhysicalMax luma
  then Qmin (scaleContrast target luma) (scalePhysicalLimit target luma)
  else scaleContrast target luma.

(** The image after the scaling loop. *)
Definition scaled_image (target : Image) (profile : SensorProfile) : Image :=
  let luma := scaling_luma target profile in
  map_samples (scale_sample (globalFloor luma) (finalScale target luma)) target.

Definition AdaptiveOutputScaling (target : Image) (profile : SensorProfile)
    (targetBg : Q) : Image :=
  let target := scaled_image target profile in
  let luma := scaling_luma target profile in
  let currentBg := Median luma in
  if needs_mtf currentBg targetBg
  then ApplyMTF target (midtone_parameter currentBg targetBg)
  else target.

End Scaling.

(** ** EstimateStarPressure *)

(** [Image::IsEmpty] of PCL: no pixel data. *)
Definition IsEmpty (img : Image) : bool :=
  (NumberOfPixels img <=? 0)%Z || (NumberOfChannels img =? 0)%Z.

(** The subsample of the samples above 1e-7. *)
Definition pressure_sample (luma : Image) : list Q :=
  let N := NumberOfPixels luma in
  let stride := Z.max 1 (N / 300000) in
  filter (fun v => if Qlt_le_dec 0.0000001 v then true else false)
         (subsample (channel luma 0) N stride).

(** [size_t( sample.size() * 0.999 )] and [size_t( sample.size() * 0.9999 )] *)
Definition idx999 (size : nat) : nat :=
  Z.to_nat (Qfloor (inject_Z (Z.of_nat size) * 0.999)).

Definition idx9999 (size : nat) : nat :=
  Z.to_nat (Qfloor (inject_Z (Z.of_nat size) * 0.9999)).

Definition EstimateStarPressure (luma : Image) : Q :=
  if IsEmpty luma then 0
  else
    let sample := pressure_sample luma in
    if (List.length sample <? 100)%nat then 0
    else
      let sample := sort sample in
      let p999 := nth (idx999 (List.length sample)) sample 0 in
      let p9999 := nth (idx9999 (List.length sample)) sample 0 in
      let countBright :=
        fold_left (fun n v => if Qlt_le_dec p999 v then S n else n) sample 0%nat in
      let brightFrac :=
        inject_Z (Z.of_nat countBright) / inject_Z (Z.of_nat (List.length sample)) in
      let pTerm := Qmax 0 (Qmin ((p9999 / (p999 + 0.000000001) - 1) / 4) 1) in
      let fTerm := Qmax 0 (Qmin (brightFrac * 200) 1) in
      let starPressure := 0.7 * pTerm + 0.3 * fTerm in
      Qmax 0 (Qmin starPressure 1).

(** Example images: a flat grey image of 400 samples, and a colour pixel. *)
Definition flat_field : Image := mkImage 20 20 [repeat 0.25 400].

Definition orange_pixel : Image := mkImage 1 1 [[0.8]; [0.5]; [0.2]].

(** Statistics for the examples, for images whose samples are all alike:
    the first sample as median, minimum and maximum, and no deviation. *)
Definition FirstSample (img : Image) : Q := nth 0 (channel img 0) 0.

Definition NoDeviation (img : Image) : Q := 0.

End Finishing.

(** * The process instance: sensor profiles and effective parameters *)

Module Instance.

Import Stats.
Local Open Scope Q_scope.

(** One entry of [s_sensorProfilesData]: the name, the category and the
    three weights.  The free-text description, which nothing reads, is
    left out. *)
Record ProfileEntry : Type := mkEntry {
  name : string;
  category : string;
  weights : SensorProfile
}.

Definition s_sensorProfilesData : list ProfileEntry := [
  mkEntry "Rec.709 (Recommended)" "standard" (mkProfile 0.2126 0.7152 0.0722);
  mkEntry "Sony IMX571 (ASI2600/QHY268)" "sensor-specific" (mkProfile 0.2944 0.5021 0.2035);
  mkEntry "Sony IMX455 (ASI6200/QHY600)" "sensor-specific" (mkProfile 0.2987 0.5001 0.2013);
  mkEntry "Sony IMX410 (ASI2400)" "sensor-specific" (mkProfile 0.3015 0.5050 0.1935);
  mkEntry "Sony IMX269 (Altair/ToupTek)" "sensor-specific" (mkProfile 0.3040 0.5010 0.1950);
  mkEntry "Sony IMX294 (ASI294)" "sensor-specific" (mkProfile 0.3068 0.5008 0.1925);
  mkEntry "Sony IMX533 (ASI533)" "sensor-specific" (mkProfile 0.2910 0.5072 0.2018);
  mkEntry "Sony IMX676 (ASI676)" "sensor-specific" (mkProfile 0.2880 0.5100 0.2020);
  mkEntry "Sony IMX585 (ASI585)" "sensor-specific" (mkProfile 0.3431 0.4822 0.1747);
  mkEntry "Sony IMX662 (ASI662)" "sensor-specific" (mkProfile 0.3430 0.4821 0.1749);
  mkEntry "Sony IMX678 (ASI678)" "sensor-specific" (mkProfile 0.3426 0.4825 0.1750);
  mkEntry "Sony IMX462 (ASI462)" "sensor-specific" (mkProfile 0.3333 0.4866 0.1801);
  mkEntry "Sony IMX715 (ASI715)" "sensor-specific" (mkProfile 0.3410 0.4840 0.1750);
  mkEntry "Sony IMX482 (ASI482)" "sensor-specific" (mkProfile 0.3150 0.4950 0.1900);
  mkEntry "Sony IMX183 (ASI183)" "sensor-specific" (mkProfile 0.2967 0.4983 0.2050);
  mkEntry "Sony IMX178 (ASI178)" "sensor-specific" (mkProfile 0.2346 0.5206 0.2448);
  mkEntry "Sony IMX224 (ASI224)" "sensor-specific" (mkProfile 0.3402 0.4765 0.1833);
  mkEntry "Canon EOS (Modern)" "sensor-specific" (mkProfile 0.2600 0.5200 0.2200);
  mkEntry "Canon EOS (Legacy)" "sensor-specific" (mkProfile 0.2450 0.5350 0.2200);
  mkEntry "Nikon DSLR (Modern)" "sensor-specific" (mkProfile 0.2650 0.5100 0.2250);
  mkEntry "Nikon DSLR (Legacy)" "sensor-specific" (mkProfile 0.2500 0.5300 0.2200);
  mkEntry "Fujifilm X-Trans 5 HR" "sensor-specific" (mkProfile 0.2800 0.5100 0.2100);
  mkEntry "Panasonic MN34230 (ASI1600)" "sensor-specific" (mkProfile 0.2650 0.5250 0.2100);
  mkEntry "ZWO Seestar S50" "sensor-specific" (mkProfile 0.3333 0.4866 0.1801);
  mkEntry "ZWO Seestar S30" "sensor-specific" (mkProfile 0.2928 0.5053 0.2019);
  mkEntry "Narrowband HOO" "narrowband" (mkProfile 0.5000 0.2500 0.2500);
  mkEntry "Narrowband SHO" "narrowband" (mkProfile 0.3333 0.3400 0.3267)
].

(** A profile whose weights are positive and sum to 1, or to 1.0001 at
    most. *)
Definition balanced (p : SensorProfile) : Prop :=
  0 < rWeight p /\ 0 < gWeight p /\ 0 < bWeight p /\
  1 <= rWeight p + gWeight p + bWeight p <= 1.0001.

Definition g_numSensorProfiles : Z :=
  Z.of_nat (List.length s_sensorProfilesData).

(** [g_sensorProfiles[i]] *)
Definition g_sensorProfiles (i : Z) : ProfileEntry :=
  nth (Z.to_nat i) s_sensorProfilesData
      (mkEntry EmptyString EmptyString (mkProfile 0.2126 0.7152 0.0722)).

Inductive HMSProcessingMode : Type :=
  | ReadyToUse
  | Scientific.

(** The parameters of [HyperMetricStretchInstance]. *)
Record HyperMetricStretchInstance : Type := mkInstance {
  processingMode : HMSProcessingMode;
  sensorProfile : Z;
  targetBackground : Q;
  logD : Q;
  protectB : Q;
  colorConvergence : Q;
  colorStrategy : Z;
  colorGrip : Q;
  shadowConvergence : Q;
  linearExpansion : Q;
  adaptiveAnchor : bool
}.

Definition GetSensorProfile (inst : HyperMetricStretchInstance) : ProfileEntry :=
  if ((sensorProfile inst >=? 0) && (sensorProfile inst <? g_numSensorProfiles))%Z
  then g_sensorProfiles (sensorProfile inst)
  else g_sensorProfiles 0.

(** [GetEffectiveParams]: the triple [(grip, shadow, linearExp)] it
    writes to its three reference arguments. *)
Definition GetEffectiveParams (inst : HyperMetricStretchInstance) : Q * Q * Q :=
  match processingMode inst with
  | ReadyToUse =>
      let val := colorStrategy inst in
      if (val <? 0)%Z then
        let shadow := (inject_Z (Z.abs val) / 100) * 3 in
        let grip := 1 in
        (grip, shadow, 0)
      else
        let grip := 1 - ((inject_Z val / 100) * 0.6) in
        let shadow := 0 in
        (grip, shadow, 0)
  | Scientific =>
      (colorGrip inst, shadowConvergence inst, linearExpansion inst)
  end.

(** The anchored copy of the working image that [ExecuteOn] and
    [Preview] hand to [ReconstructColor]. *)
Definition AnchoredRGB (working : Image) (anchor : Q) : Image :=
  if (NumberOfChannels working =? 3)%Z then
    let N := Z.to_nat (NumberOfPixels working) in
    mkImage (Width working) (Height working)
      (map (fun c => map (fun i => Qmax 0 (nth i (channel working c) 0 - anchor))
                         (seq 0 N))
           [0%nat; 1%nat; 2%nat])
  else map_samples (fun v => Finishing.Truncate anchor 1 v - anchor) working.


End Instance.

(** * Soft clip (over [R]) *)

Module Clip.

Import Transfer.
Local Open Scope R_scope.

Section SoftClip.

(** [pcl::Pow] on [float] arguments. *)
Variable Pow : R -> R -> R.

(** The body of the sample loop of [ApplyReadyToUseSoftClip]. *)
Definition soft_clip_sample (threshold rolloff v : R) : R :=
  let threshF := threshold in
  let rangeInv := 1 / (1 - threshold + 1e-9) in
  if Rlt_dec threshF v then
    let t := Rmax 0 (Rmin ((v - threshF) * rangeInv) 1) in
    let soft := 1 - Pow (1 - t) rolloff in
    threshF + (1 - threshF) * soft
  else v.

Definition ApplyReadyToUseSoftClip (target : Image) (threshold rolloff : R)
    : Image :=
  map_samples (Truncate 0 1)
    (map_samples (soft_clip_sample threshold rolloff) target).

End SoftClip.

(** [Pow] for the examples: the real power, 0 for a base that is not
    positive. *)
Definition RealPow (x y : R) : R :=
  if Rle_dec x 0 then 0 else Rpower x y.

End Clip.

(** * Properties of the hyperbolic transfer *)

Module TransferProps.

Import Transfer.
Local Open Scope R_scope.

Lemma Truncate_mono (lo hi x y : R) :
  lo <= hi -> x <= y -> Truncate lo hi x <= Truncate lo hi y.
Proof.
  intros Hlh Hxy. unfold Truncate.
  destruct (Rlt_dec x lo), (Rlt_dec y lo); try lra;
    destruct (Rlt_dec hi x), (Rlt_dec hi y); lra.
Qed.

Lemma Truncate_above (lo hi x : R) : lo <= hi -> hi <= x -> Truncate lo hi x = hi.
Proof.
  intros Hlh Hx. unfold Truncate.
  destruct (Rlt_dec x lo); [lra|]. destruct (Rlt_dec hi x); lra.
Qed.

Lemma Truncate_inside (lo hi x : R) : lo <= x <= hi -> Truncate lo hi x = x.
Proof.
  intros Hx. unfold Truncate.
  destruct (Rlt_dec x lo); [lra|]. destruct (Rlt_dec hi x); lra.
Qed.

Lemma Rmax_floor_pos (x : R) : 0 < Rmax x 0.1.
Proof. pose proof (Rmax_r x 0.1). lra. Qed.

(** The slope of [arcsinh] never exceeds 1. *)
Lemma arcsinh_lipschitz (x y : R) : x <= y -> arcsinh y - arcsinh x <= y - x.
Proof.
  intros [Hlt | ->]; [|lra].
  destruct (MVT_cor2 arcsinh (fun c => / sqrt (c ^ 2 + 1)) x y Hlt) as [c [Hc _]].
  { intros c _. apply derivable_pt_lim_arcsinh. }
  rewrite Hc.
  assert (H1 : 1 <= sqrt (c ^ 2 + 1)).
  { rewrite <- sqrt_1 at 1. apply sqrt_le_1_alt. nra. }
  assert (H2 : / sqrt (c ^ 2 + 1) <= / 1) by (apply Rinv_le_contravar; lra).
  rewrite Rinv_1 in H2. nra.
Qed.

(** On the non-negative reals [arcsinh] is concave: over two adjacent
    steps of equal width the first rise is the larger one. *)
Lemma arcsinh_concave_step (a h : R) :
  0 <= a -> 0 <= h ->
  arcsinh (a + 2 * h) - arcsinh (a + h) <= arcsinh (a + h) - arcsinh a.
Proof.
  intros Ha Hh0.
  destruct (Req_dec h 0) as [-> | Hne];
    [replace (a + 2 * 0) with a by ring; replace (a + 0) with a by ring; lra|].
  assert (Hh : 0 < h) by lra.
  destruct (MVT_cor2 arcsinh (fun c => / sqrt (c ^ 2 + 1)) a (a + h)) as [c1 [Hc1 Hr1]];
    [lra | intros c _; apply derivable_pt_lim_arcsinh |].
  destruct (MVT_cor2 arcsinh (fun c => / sqrt (c ^ 2 + 1)) (a + h) (a + 2 * h))
    as [c2 [Hc2 Hr2]];
    [lra | intros c _; apply derivable_pt_lim_arcsinh |].
  rewrite Hc1, Hc2.
  replace (a + 2 * h - (a + h)) with h by lra.
  replace (a + h - a) with h by lra.
  apply Rmult_le_compat_r; [lra|].
  assert (H1 : 0 < sqrt (c1 ^ 2 + 1)) by (apply sqrt_lt_R0; nra).
  apply Rinv_le_contravar; [exact H1|].
  apply sqrt_le_1_alt. nra.
Qed.

Lemma normFactor_nonzero (D b SP : R) : normFactor D b SP <> 0.
Proof.
  unfold normFactor. destruct (Req_dec_T _ 0); lra.
Qed.

Lemma normFactor_pos (D b SP : R) : 0 < D -> SP <= 1 -> 0 < normFactor D b SP.
Proof.
  intros HD HSP. unfold normFactor, ArcSinh.
  destruct (Req_dec_T _ 0); [lra|].
  assert (arcsinh b <= arcsinh (D * (1 - SP) + b)) by (apply arcsinh_le; nra).
  lra.
Qed.

Lemma stretch_sample_mono (D b SP x y : R) :
  0 < D -> 0 < normFactor D b SP -> x <= y ->
  stretch_sample D b SP x <= stretch_sample D b SP y.
Proof.
  intros HD Hn Hxy. unfold stretch_sample, ArcSinh.
  apply Rmult_le_compat_r; [left; apply Rinv_0_lt_compat; exact Hn|].
  assert (arcsinh (D * (x - SP) + b) <= arcsinh (D * (y - SP) + b))
    by (apply arcsinh_le; nra).
  lra.
Qed.

(** With a negative divisor (a shadow point above 1) every sample not
    above 1 is stretched to at least 1. *)
Lemma stretch_sample_negative_divisor (D b SP x : R) :
  0 < D -> normFactor D b SP < 0 -> x <= 1 -> 1 <= stretch_sample D b SP x.
Proof.
  intros HD Hn Hx. unfold stretch_sample. revert Hn. unfold normFactor, ArcSinh.
  destruct (Req_dec_T _ 0); [lra|]. intros Hn.
  set (nf := arcsinh (D * (1 - SP) + b) - arcsinh b) in *.
  assert (Hle : arcsinh (D * (x - SP) + b) - arcsinh b <= nf).
  { unfold nf. assert (arcsinh (D * (x - SP) + b) <= arcsinh (D * (1 - SP) + b))
      by (apply arcsinh_le; nra). lra. }
  assert (Hinv : / nf < 0) by (apply Rinv_lt_0_compat; exact Hn).
  replace 1 with (nf * / nf) by (field; lra).
  unfold Rdiv. nra.
Qed.

Lemma transfer_mono_normalized (D b SP x y : R) :
  x <= y -> y <= 1 -> transfer D b SP x <= transfer D b SP y.
Proof.
  intros Hxy Hy. unfold transfer.
  pose proof (Rmax_floor_pos D) as HD.
  destruct (Rlt_dec (normFactor (Rmax D 0.1) (Rmax b 0.1) SP) 0) as [Hneg | Hpos].
  - rewrite !Truncate_above; try lra;
      apply stretch_sample_negative_divisor; auto; lra.
  - apply Truncate_mono; [lra|].
    apply stretch_sample_mono; auto.
    pose proof (normFactor_nonzero (Rmax D 0.1) (Rmax b 0.1) SP). lra.
Qed.

Lemma transfer_mono_shadow (D b SP x y : R) :
  SP <= 1 -> x <= y -> transfer D b SP x <= transfer D b SP y.
Proof.
  intros HSP Hxy. unfold transfer.
  pose proof (Rmax_floor_pos D) as HD.
  apply Truncate_mono; [lra|].
  apply stretch_sample_mono; auto. apply normFactor_pos; auto.
Qed.

Lemma transfer_at_shadow_point (D b : R) : transfer D b 0 0 = 0.
Proof.
  unfold transfer, stretch_sample.
  replace (Rmax D 0.1 * (0 - 0) + Rmax b 0.1) with (Rmax b 0.1) by ring.
  unfold Rdiv. rewrite Rminus_diag, Rmult_0_l.
  apply Truncate_inside. lra.
Qed.

Lemma transfer_at_one (D b : R) : transfer D b 0 1 = 1.
Proof.
  unfold transfer, stretch_sample.
  pose proof (Rmax_floor_pos D) as HD.
  pose proof (normFactor_pos (Rmax D 0.1) (Rmax b 0.1) 0 HD ltac:(lra)) as Hn.
  assert (Hnf : normFactor (Rmax D 0.1) (Rmax b 0.1) 0 =
                ArcSinh (Rmax D 0.1 * (1 - 0) + Rmax b 0.1) - ArcSinh (Rmax b 0.1)).
  { revert Hn. unfold normFactor. destruct (Req_dec_T _ 0) as [E|]; [|reflexivity].
    intros _. exfalso. unfold ArcSinh in E.
    assert (arcsinh (Rmax b 0.1) < arcsinh (Rmax D 0.1 * (1 - 0) + Rmax b 0.1))
      by (apply arcsinh_lt; lra).
    lra. }
  rewrite <- Hnf. unfold Rdiv. rewrite Rinv_r by lra.
  apply Truncate_inside. lra.
Qed.

(** The image-level function applies [transfer] to every sample. *)
Lemma HyperbolicStretch_samples (target : Image) (D b SP : R) :
  HyperbolicStretch target D b SP = map_samples (transfer D b SP) target.
Proof.
  unfold HyperbolicStretch, map_samples, transfer. simpl. f_equal.
  rewrite map_map. apply map_ext. intros ch. rewrite map_map. reflexivity.
Qed.

(** C3: with shadow point 0 the transfer of [HyperbolicStretch] maps the
    sample 0 to 0 and the sample 1 to 1, whatever [D] and [b]; for fixed
    [D], [b] and [SP] it is non-decreasing on samples not above 1, and on
    all samples when the shadow point is not above 1. *)
Theorem transfer_endpoints_and_monotone (D b : R) :
  transfer D b 0 0 = 0 /\
  transfer D b 0 1 = 1 /\
  (forall SP x y, x <= y -> y <= 1 -> transfer D b SP x <= transfer D b SP y) /\
  (forall SP x y, SP <= 1 -> x <= y -> transfer D b SP x <= transfer D b SP y).
Proof.
  split; [apply transfer_at_shadow_point|].
  split; [apply transfer_at_one|].
  split; intros; [apply transfer_mono_normalized | apply transfer_mono_shadow]; auto.
Qed.

Lemma transfer_endpoints_and_monotone_witness :
  transfer 100 6 0 0 = 0 /\ transfer 100 6 0 1 = 1 /\
  transfer 100 6 2 (1/4) <= transfer 100 6 2 (1/2) /\
  transfer 100 6 (1/2) 2 <= transfer 100 6 (1/2) 3.
Proof.
  destruct (transfer_endpoints_and_monotone 100 6) as (H0 & H1 & Hn & Hs).
  repeat split; [exact H0 | exact H1 | apply Hn; lra | apply Hs; lra].
Defined.

(** ** The divisor of [HyperbolicStretch] *)

Lemma raw_normFactor_sign (D b SP : R) :
  (SP = 1 -> raw_normFactor D b SP = 0) /\
  (SP < 1 -> 0 < raw_normFactor D b SP) /\
  (1 < SP -> raw_normFactor D b SP < 0).
Proof.
  pose proof (Rmax_floor_pos D) as HD. unfold raw_normFactor, ArcSinh.
  split; [|split]; intros H.
  - subst SP. replace (Rmax D 0.1 * (1 - 1) + Rmax b 0.1) with (Rmax b 0.1) by ring.
    lra.
  - assert (arcsinh (Rmax b 0.1) < arcsinh (Rmax D 0.1 * (1 - SP) + Rmax b 0.1))
      by (apply arcsinh_lt; nra).
    lra.
  - assert (arcsinh (Rmax D 0.1 * (1 - SP) + Rmax b 0.1) < arcsinh (Rmax b 0.1))
      by (apply arcsinh_lt; nra).
    lra.
Qed.

Lemma divisor_cases (D b SP : R) :
  (raw_normFactor D b SP = 0 -> divisor D b SP = 1e-6) /\
  (raw_normFactor D b SP <> 0 -> divisor D b SP = raw_normFactor D b SP).
Proof.
  unfold divisor, normFactor, raw_normFactor.
  destruct (Req_dec_T _ 0); split; intros; congruence.
Qed.

(** C6, as the code has it: the divisor of [HyperbolicStretch] is never
    zero.  The guard replaces a normalisation term that is exactly 0 (a
    shadow point of exactly 1) by 1e-6; any other term is the divisor as
    it is: positive for a shadow point below 1, negative above 1, and
    not bounded below by 1e-6. *)
Theorem divisor_guard (D b SP : R) :
  divisor D b SP <> 0 /\
  (SP = 1 -> divisor D b SP = 1e-6) /\
  (SP < 1 -> divisor D b SP = raw_normFactor D b SP /\ 0 < divisor D b SP) /\
  (1 < SP -> divisor D b SP = raw_normFactor D b SP /\ divisor D b SP < 0).
Proof.
  destruct (raw_normFactor_sign D b SP) as (H1 & H2 & H3).
  destruct (divisor_cases D b SP) as (Hz & Hnz).
  split; [apply normFactor_nonzero|].
  split; [intros H; apply Hz, H1, H|].
  split; intros H.
  - specialize (H2 H). rewrite Hnz by lra. split; [reflexivity | exact H2].
  - specialize (H3 H). rewrite Hnz by lra. split; [reflexivity | exact H3].
Qed.

Lemma divisor_guard_witness :
  divisor 100 6 1 = 1e-6 /\ 0 < divisor 100 6 0 /\ divisor 100 6 2 < 0.
Proof.
  split; [|split].
  - apply (divisor_guard 100 6 1). reflexivity.
  - apply (divisor_guard 100 6 0). lra.
  - apply (divisor_guard 100 6 2). lra.
Defined.

(** C6 as stated fails: with [D = b = 0.1] and a shadow point of
    0.999999 the divisor is positive and below 1e-6. *)
Lemma divisor_below_floor :
  0 < divisor 0.1 0.1 0.999999 /\ ~ (1e-6 <= divisor 0.1 0.1 0.999999).
Proof.
  destruct (raw_normFactor_sign 0.1 0.1 0.999999) as (_ & Hpos & _).
  specialize (Hpos ltac:(lra)).
  destruct (divisor_cases 0.1 0.1 0.999999) as (_ & Heq).
  rewrite Heq by lra.
  split; [exact Hpos|].
  unfold raw_normFactor, ArcSinh.
  assert (E : Rmax 0.1 0.1 = 0.1) by (apply Rmax_left; lra).
  rewrite E.
  pose proof (arcsinh_lipschitz 0.1 (0.1 * (1 - 0.999999) + 0.1) ltac:(lra)).
  lra.
Qed.

(** ** SolveLogD *)

Lemma Pow10_pos (x : R) : 0 < Pow10 x.
Proof. unfold Pow10, Rpower. apply exp_pos. Qed.

(** Inside the loop the guard on the divisor never fires, and the
    simulated stretch is the transfer of the specification. *)
Lemma simulate_spec (medianIn bVal midLog : R) :
  simulate medianIn bVal midLog = spec_transfer midLog medianIn bVal.
Proof.
  unfold simulate, spec_transfer, ArcSinh. fold (Pow10 midLog).
  pose proof (Pow10_pos midLog) as HD.
  destruct (Req_dec_T _ 0) as [E|]; [|reflexivity].
  assert (arcsinh bVal < arcsinh (Pow10 midLog + bVal)) by (apply arcsinh_lt; lra).
  lra.
Qed.

(** A median of one half is never stretched below one half. *)
Lemma simulate_half (bVal midLog : R) :
  0 <= bVal -> 1 / 2 <= simulate (1 / 2) bVal midLog.
Proof.
  intros Hb. rewrite simulate_spec. unfold spec_transfer. fold (Pow10 midLog).
  pose proof (Pow10_pos midLog) as HD. set (d := Pow10 midLog) in *.
  assert (Hn : arcsinh bVal < arcsinh (d + bVal)) by (apply arcsinh_lt; lra).
  pose proof (arcsinh_concave_step bVal (d / 2) Hb ltac:(lra)) as Hc.
  replace (bVal + 2 * (d / 2)) with (d + bVal) in Hc by field.
  replace (bVal + d / 2) with (d * (1 / 2) + bVal) in Hc by field.
  set (num := arcsinh (d * (1 / 2) + bVal) - arcsinh bVal) in *.
  set (den := arcsinh (d + bVal) - arcsinh bVal) in *.
  assert (Hden : 0 < den) by (unfold den; lra).
  assert (Hnum : den <= 2 * num) by (unfold den, num in *; lra).
  apply Rmult_le_reg_r with den; [exact Hden|].
  unfold Rdiv at 2. rewrite Rmult_assoc, Rinv_l by lra. lra.
Qed.

Lemma midpoints_step (iter : nat) (medianIn targetMedian bVal lowLog highLog : R) :
  midpoints (S iter) medianIn targetMedian bVal lowLog highLog =
  (lowLog + highLog) / 2 ::
  if Rlt_dec (Rabs (simulate medianIn bVal ((lowLog + highLog) / 2) - targetMedian))
             0.0001 then []
  else if Rlt_dec (simulate medianIn bVal ((lowLog + highLog) / 2)) targetMedian
       then midpoints iter medianIn targetMedian bVal ((lowLog + highLog) / 2) highLog
       else midpoints iter medianIn targetMedian bVal lowLog ((lowLog + highLog) / 2).
Proof. reflexivity. Qed.

(** Without a match the loop runs all its iterations and leaves
    [bestLogD] as it was. *)
Lemma bisect_no_match (iter : nat) (medianIn targetMedian bVal : R) :
  forall lowLog highLog bestLogD,
    Forall (fun midLog => ~ matches medianIn targetMedian bVal midLog)
           (midpoints iter medianIn targetMedian bVal lowLog highLog) ->
    bisect iter medianIn targetMedian bVal lowLog highLog bestLogD = bestLogD /\
    List.length (midpoints iter medianIn targetMedian bVal lowLog highLog) = iter.
Proof.
  induction iter as [|iter IH]; intros lowLog highLog bestLogD Hall.
  - split; reflexivity.
  - rewrite midpoints_step in *. cbn [bisect].
    inversion Hall as [|mid rest Hmid Hrest]; subst.
    unfold matches in Hmid.
    destruct (Rlt_dec (Rabs _) 0.0001) as [Hm|_]; [contradiction|].
    destruct (Rlt_dec (simulate _ _ _) targetMedian);
      destruct (IH _ _ bestLogD Hrest) as [E L]; cbn [List.length];
      rewrite E, L; split; reflexivity.
Qed.

(** With a match the loop stops there and returns the matching midpoint,
    the last one it evaluated. *)
Lemma bisect_match (iter : nat) (medianIn targetMedian bVal : R) :
  forall lowLog highLog bestLogD,
    Exists (matches medianIn targetMedian bVal)
           (midpoints iter medianIn targetMedian bVal lowLog highLog) ->
    matches medianIn targetMedian bVal
            (bisect iter medianIn targetMedian bVal lowLog highLog bestLogD) /\
    bisect iter medianIn targetMedian bVal lowLog highLog bestLogD =
    last (midpoints iter medianIn targetMedian bVal lowLog highLog) 0.
Proof.
  induction iter as [|iter IH]; intros lowLog highLog bestLogD Hex.
  - inversion Hex.
  - rewrite midpoints_step in *. cbn [bisect].
    destruct (Rlt_dec (Rabs _) 0.0001) as [Hm|Hn].
    + split; [exact Hm | reflexivity].
    + assert (Hrest : forall l, Exists (matches medianIn targetMedian bVal)
                                   ((lowLog + highLog) / 2 :: l) ->
                            Exists (matches medianIn targetMedian bVal) l).
      { intros l H. inversion H; subst; [contradiction | assumption]. }
      destruct (Rlt_dec (simulate _ _ _) targetMedian);
        apply Hrest in Hex; destruct (IH _ _ bestLogD Hex) as [Hm E];
        (split; [exact Hm|]); rewrite E;
        destruct (midpoints iter _ _ _ _ _) eqn:El; try reflexivity;
        inversion Hex.
Qed.

(** *** No midpoint is 2 *)

Ltac push_IZR := repeat (rewrite mult_IZR || rewrite plus_IZR).

Lemma pow2_mod7 (n : nat) : (2 ^ Z.of_nat n mod 7 <> 0)%Z.
Proof.
  assert (H : (2 ^ Z.of_nat n mod 7 = 1 \/ 2 ^ Z.of_nat n mod 7 = 2 \/
               2 ^ Z.of_nat n mod 7 = 4)%Z).
  { induction n as [|n IH]; [left; reflexivity|].
    rewrite Nat2Z.inj_succ, Z.pow_succ_r by lia.
    rewrite Z.mul_mod by lia.
    destruct IH as [-> | [-> | ->]]; cbn; auto. }
  lia.
Qed.

Lemma midpoints_not_two (iter : nat) (medianIn targetMedian bVal : R) :
  forall (k : nat) (a : Z) lowLog highLog,
    lowLog = IZR (7 * a) / 2 ^ k ->
    highLog = IZR (7 * (a + 1)) / 2 ^ k ->
    Forall (fun midLog => midLog <> 2)
           (midpoints iter medianIn targetMedian bVal lowLog highLog).
Proof.
  induction iter as [|iter IH]; intros k a lowLog highLog Hlo Hhi;
    [constructor|].
  rewrite midpoints_step.
  assert (Hk : 0 < 2 ^ k) by (apply pow_lt; lra).
  assert (Hmid : (lowLog + highLog) / 2 = IZR (7 * (2 * a + 1)) / 2 ^ S k).
  { subst. push_IZR. cbn [pow]. field. lra. }
  constructor.
  - rewrite Hmid. intros E.
    assert (E' : IZR (7 * (2 * a + 1)) = IZR (2 ^ Z.of_nat (S (S k)))).
    { rewrite <- pow_IZR. cbn [pow] in *.
      apply (f_equal (fun v => v * (2 * 2 ^ k))) in E.
      unfold Rdiv in E. rewrite Rmult_assoc, Rinv_l, Rmult_1_r in E by lra.
      rewrite E. ring. }
    apply eq_IZR in E'.
    pose proof (pow2_mod7 (S (S k))) as Hmod. rewrite <- E' in Hmod.
    apply Hmod. rewrite Z.mul_comm. apply Z.mod_mul. lia.
  - destruct (Rlt_dec (Rabs _) 0.0001); [constructor|].
    destruct (Rlt_dec (simulate _ _ _) targetMedian).
    + apply (IH (S k) (2 * a + 1)%Z); [exact Hmid|].
      subst. push_IZR. cbn [pow]. field. lra.
    + apply (IH (S k) (2 * a)%Z).
      * subst. push_IZR. cbn [pow]. field. lra.
      * exact Hmid.
Qed.

Lemma Forall_last {A} (P : A -> Prop) (l : list A) (d : A) :
  l <> [] -> Forall P l -> P (last l d).
Proof.
  intros Hne Hall. induction l as [|x l IH]; [congruence|].
  inversion Hall; subst. destruct l as [|y l]; [assumption|].
  apply IH; [discriminate | assumption].
Qed.

(** A median of one half and a target of at most 0.4: no [logD] matches. *)
Lemma no_match_half (bVal targetMedian midLog : R) :
  0 <= bVal -> targetMedian <= 0.4 -> ~ matches (1 / 2) targetMedian bVal midLog.
Proof.
  intros Hb Ht. unfold matches.
  pose proof (simulate_half bVal midLog Hb) as Hs.
  rewrite Rabs_pos_eq by lra. lra.
Qed.

Lemma FlatMedian_half_luma : FlatMedian half_luma = 1 / 2.
Proof. reflexivity. Qed.

(** The loop from the initial interval [[0,7]] with initial value 2. *)
Lemma bisect_from_start_no_match (iter : nat) (medianIn targetMedian bVal : R) :
  iter <> O ->
  Forall (fun midLog => ~ matches medianIn targetMedian bVal midLog)
         (midpoints iter medianIn targetMedian bVal 0 7) ->
  bisect iter medianIn targetMedian bVal 0 7 2 = 2 /\
  List.length (midpoints iter medianIn targetMedian bVal 0 7) = iter /\
  bisect iter medianIn targetMedian bVal 0 7 2 <>
  last (midpoints iter medianIn targetMedian bVal 0 7) 0.
Proof.
  intros Hiter Hall.
  destruct (bisect_no_match iter _ _ _ 0 7 2 Hall) as [E L].
  rewrite E. split; [reflexivity|]. split; [exact L|].
  assert (Hlast : last (midpoints iter medianIn targetMedian bVal 0 7) 0 <> 2).
  { apply (Forall_last (fun midLog => midLog <> 2)).
    - intros Hnil. rewrite Hnil in L. apply Hiter. symmetry. exact L.
    - apply (midpoints_not_two iter _ _ _ 0 0%Z); cbn [pow]; push_IZR; lra. }
  intros Heq. apply Hlast. symmetry. exact Heq.
Qed.

(** *** Convergence of the search *)

(** The rise of [arcsinh] from [b >= 0] over a step [x] and over the step
    scaled by [k >= 1]: positive, not smaller for the longer step, and at
    most [k] times as large ([arcsinh] is concave on the non-negative
    reals). *)
Lemma arcsinh_rise_scaled (b x k : R) :
  0 <= b -> 0 < x -> 1 <= k ->
  0 < arcsinh (x + b) - arcsinh b /\
  arcsinh (x + b) - arcsinh b <= arcsinh (k * x + b) - arcsinh b /\
  arcsinh (k * x + b) - arcsinh b <= k * (arcsinh (x + b) - arcsinh b).
Proof.
  intros Hb Hx Hk.
  assert (H0 : arcsinh b < arcsinh (x + b)) by (apply arcsinh_lt; lra).
  split; [lra|].
  destruct (Req_dec k 1) as [-> | Hne].
  { replace (1 * x + b) with (x + b) by ring. lra. }
  assert (Hlt : x + b < k * x + b) by nra.
  split; [apply arcsinh_lt in Hlt; lra|].
  destruct (MVT_cor2 arcsinh (fun c => / sqrt (c ^ 2 + 1)) b (x + b))
    as [c1 [Hc1 Hr1]];
    [lra | intros c _; apply derivable_pt_lim_arcsinh |].
  destruct (MVT_cor2 arcsinh (fun c => / sqrt (c ^ 2 + 1)) (x + b) (k * x + b))
    as [c2 [Hc2 Hr2]];
    [lra | intros c _; apply derivable_pt_lim_arcsinh |].
  assert (Hs : / sqrt (c2 ^ 2 + 1) <= / sqrt (c1 ^ 2 + 1)).
  { apply Rinv_le_contravar; [apply sqrt_lt_R0; nra | apply sqrt_le_1_alt; nra]. }
  replace (x + b - b) with x in Hc1 by ring.
  replace (k * x + b - (x + b)) with ((k - 1) * x) in Hc2 by ring.
  assert (Hkx : 0 <= (k - 1) * x) by nra.
  pose proof (Rmult_le_compat_r _ _ _ Hkx Hs) as Hm.
  replace (k * (arcsinh (x + b) - arcsinh b))
    with ((arcsinh (x + b) - arcsinh b) + / sqrt (c1 ^ 2 + 1) * ((k - 1) * x))
    by (rewrite Hc1; ring).
  lra.
Qed.

Lemma ln_10_bounds : 0 < ln 10 <= 9.
Proof.
  split.
  - rewrite <- ln_1. apply ln_increasing; lra.
  - destruct (Rle_lt_dec (ln 10) 9) as [H|H]; [exact H|].
    apply exp_increasing in H. rewrite exp_ln in H by lra.
    pose proof (exp_ineq1_le 9). lra.
Qed.

(** Over a step of at most 1e-6 in [logD], [10^logD] grows by less than
    one part in ten thousand. *)
Lemma Pow10_small_step (d : R) :
  0 <= d -> 1 <= Pow10 d /\ (d <= 0.000001 -> Pow10 d < 1.0001).
Proof.
  intros Hd. unfold Pow10, Rpower.
  pose proof ln_10_bounds as [Hl0 Hl9].
  assert (Hy : 0 <= d * ln 10) by nra.
  set (y := d * ln 10) in *.
  pose proof (exp_ineq1_le y) as He.
  split; [lra|]. intros Hd'.
  assert (Hy' : y <= 0.000009) by (unfold y; nra).
  pose proof (exp_ineq1_le (- y)) as Hn. rewrite exp_Ropp in Hn.
  pose proof (exp_pos y) as Hp.
  assert (Hinv : exp y * / exp y = 1) by (apply Rinv_r; lra).
  assert (Hprod : exp y * (1 + - y) <= 1).
  { rewrite <- Hinv. apply Rmult_le_compat_l; lra. }
  nra.
Qed.

(** The simulated stretch of a positive median is positive, and over a
    step from [s] to [t] in [logD] it changes by a factor of [10^(t-s)]
    at most, in either direction. *)
Lemma simulate_scaling (medianIn bVal s t : R) :
  0 < medianIn -> 0 <= bVal -> s <= t ->
  0 < simulate medianIn bVal s /\
  simulate medianIn bVal t <= Pow10 (t - s) * simulate medianIn bVal s /\
  simulate medianIn bVal s <= Pow10 (t - s) * simulate medianIn bVal t.
Proof.
  intros Hm Hb Hst. rewrite !simulate_spec. unfold spec_transfer.
  fold (Pow10 s). fold (Pow10 t).
  destruct (Pow10_small_step (t - s) ltac:(lra)) as [Hk _].
  assert (Et : Pow10 t = Pow10 (t - s) * Pow10 s).
  { unfold Pow10. rewrite <- Rpower_plus. f_equal. ring. }
  rewrite Et. pose proof (Pow10_pos s) as HD.
  set (k := Pow10 (t - s)) in *. set (d := Pow10 s) in *.
  destruct (arcsinh_rise_scaled bVal (d * medianIn) k Hb ltac:(nra) Hk)
    as (Hn0 & Hn1 & Hn2).
  destruct (arcsinh_rise_scaled bVal d k Hb HD Hk) as (Hd0 & Hd1 & Hd2).
  replace (k * d * medianIn) with (k * (d * medianIn)) by ring.
  set (ns := arcsinh (d * medianIn + bVal) - arcsinh bVal) in *.
  set (nt := arcsinh (k * (d * medianIn) + bVal) - arcsinh bVal) in *.
  set (ms := arcsinh (d + bVal) - arcsinh bVal) in *.
  set (mt := arcsinh (k * d + bVal) - arcsinh bVal) in *.
  assert (Hmt : 0 < mt) by lra.
  assert (His : 0 < / ms) by (apply Rinv_0_lt_compat; exact Hd0).
  assert (Hit : 0 < / mt) by (apply Rinv_0_lt_compat; exact Hmt).
  assert (Hi1 : / mt <= / ms) by (apply Rinv_le_contravar; assumption).
  assert (Hi2 : / ms <= k * / mt).
  { apply Rmult_le_reg_r with (ms * mt); [nra|].
    replace (/ ms * (ms * mt)) with mt by (field; lra).
    replace (k * / mt * (ms * mt)) with (k * ms) by (field; lra).
    exact Hd2. }
  unfold Rdiv. split; [nra|]. split.
  - apply Rle_trans with (k * ns * / mt).
    + apply Rmult_le_compat_r; lra.
    + rewrite Rmult_assoc. apply Rmult_le_compat_l; [lra|].
      apply Rmult_le_compat_l; lra.
  - apply Rle_trans with (nt * / ms).
    + apply Rmult_le_compat_r; lra.
    + replace (k * (nt * / mt)) with (nt * (k * / mt)) by ring.
      apply Rmult_le_compat_l; lra.
Qed.

(** A median of at most 1 is never stretched above 1. *)
Lemma simulate_le_one (medianIn bVal midLog : R) :
  medianIn <= 1 -> simulate medianIn bVal midLog <= 1.
Proof.
  intros Hm. rewrite simulate_spec. unfold spec_transfer. fold (Pow10 midLog).
  pose proof (Pow10_pos midLog) as HD. set (d := Pow10 midLog) in *.
  assert (Hn : arcsinh bVal < arcsinh (d + bVal)) by (apply arcsinh_lt; lra).
  assert (Hle : arcsinh (d * medianIn + bVal) <= arcsinh (d + bVal))
    by (apply arcsinh_le; nra).
  apply Rmult_le_reg_r with (arcsinh (d + bVal) - arcsinh bVal); [lra|].
  unfold Rdiv. rewrite Rmult_assoc, Rinv_l by lra. lra.
Qed.

Lemma bisect_step (iter : nat) (medianIn targetMedian bVal lowLog highLog bestLogD : R) :
  bisect (S iter) medianIn targetMedian bVal lowLog highLog bestLogD =
  if Rlt_dec (Rabs (simulate medianIn bVal ((lowLog + highLog) / 2) - targetMedian))
             0.0001 then (lowLog + highLog) / 2
  else if Rlt_dec (simulate medianIn bVal ((lowLog + highLog) / 2)) targetMedian
       then bisect iter medianIn targetMedian bVal ((lowLog + highLog) / 2) highLog
                   bestLogD
       else bisect iter medianIn targetMedian bVal lowLog ((lowLog + highLog) / 2)
                   bestLogD.
Proof. reflexivity. Qed.

(** Once the two ends of the interval are within 2e-6 of each other and
    their simulated outputs enclose the target, the midpoint matches. *)
Lemma midpoint_matches (medianIn targetMedian bVal lowLog highLog : R) :
  0 < medianIn -> 0 <= bVal -> targetMedian <= 1 ->
  lowLog <= highLog -> highLog - lowLog <= 0.000002 ->
  simulate medianIn bVal lowLog <= targetMedian <= simulate medianIn bVal highLog ->
  matches medianIn targetMedian bVal ((lowLog + highLog) / 2).
Proof.
  intros Hm Hb Ht Hlh Hw [Hlo Hhi]. unfold matches.
  set (mid := (lowLog + highLog) / 2).
  destruct (simulate_scaling medianIn bVal lowLog mid Hm Hb ltac:(unfold mid; lra))
    as (Hpos & Hup & _).
  destruct (simulate_scaling medianIn bVal mid highLog Hm Hb ltac:(unfold mid; lra))
    as (Hposm & Hdn & _).
  replace (mid - lowLog) with ((highLog - lowLog) / 2) in Hup by (unfold mid; field).
  replace (highLog - mid) with ((highLog - lowLog) / 2) in Hdn by (unfold mid; field).
  destruct (Pow10_small_step ((highLog - lowLog) / 2) ltac:(lra)) as [Hk1 Hk2].
  specialize (Hk2 ltac:(lra)).
  set (k := Pow10 ((highLog - lowLog) / 2)) in *.
  set (fm := simulate medianIn bVal mid) in *.
  set (fl := simulate medianIn bVal lowLog) in *.
  set (fh := simulate medianIn bVal highLog) in *.
  apply Rabs_def1.
  - assert (fm <= k * targetMedian) by nra. nra.
  - destruct (Rle_lt_dec targetMedian fm) as [H|H]; [lra|]. nra.
Qed.

(** With [S n] iterations left, an interval of width [2^(S n) * 1e-6]
    at most whose ends enclose the target ends in a match: the loop
    returns a midpoint whose simulated output is within 1e-4 of the
    target. *)
Lemma bisect_converges (n : nat) (medianIn targetMedian bVal : R) :
  0 < medianIn -> 0 <= bVal -> targetMedian <= 1 ->
  forall lowLog highLog bestLogD,
    lowLog <= highLog -> highLog - lowLog <= 2 ^ S n * 0.000001 ->
    simulate medianIn bVal lowLog <= targetMedian <= simulate medianIn bVal highLog ->
    matches medianIn targetMedian bVal
            (bisect (S n) medianIn targetMedian bVal lowLog highLog bestLogD).
Proof.
  intros Hm Hb Ht.
  induction n as [|n IH]; intros lowLog highLog bestLogD Hlh Hw [Hlo Hhi];
    rewrite bisect_step;
    (destruct (Rlt_dec (Rabs _) 0.0001) as [Hmatch|Hno]; [exact Hmatch|]).
  - exfalso. apply Hno.
    apply (midpoint_matches medianIn targetMedian bVal lowLog highLog);
      try assumption; [|split; assumption].
    cbn [pow] in Hw. lra.
  - assert (Hw' : forall w, w <= 2 ^ S (S n) * 0.000001 -> w / 2 <= 2 ^ S n * 0.000001).
    { intros w H. change (2 ^ S (S n)) with (2 * 2 ^ S n) in H. lra. }
    destruct (Rlt_dec (simulate _ _ _) targetMedian) as [Hlt|Hge].
    + apply IH; [lra| |split; [lra|exact Hhi]].
      replace (highLog - (lowLog + highLog) / 2) with ((highLog - lowLog) / 2) by field.
      apply Hw'. exact Hw.
    + apply IH; [lra| |split; [exact Hlo|lra]].
      replace ((lowLog + highLog) / 2 - lowLog) with ((highLog - lowLog) / 2) by field.
      apply Hw'. exact Hw.
Qed.

Lemma search_width : 7 - 0 <= 2 ^ 40 * 0.000001.
Proof.
  assert (E : 2 ^ 40 = 1099511627776).
  { rewrite pow_IZR. apply f_equal. reflexivity. }
  rewrite E. lra.
Qed.

(** The rise of [arcsinh] over a step [h] from [a > 0] lies between
    [h / (a + h + 1)] and [h / a]. *)
Lemma arcsinh_rise_bounds (a h : R) :
  0 < a -> 0 < h ->
  h / (a + h + 1) <= arcsinh (a + h) - arcsinh a <= h / a.
Proof.
  intros Ha Hh.
  destruct (MVT_cor2 arcsinh (fun c => / sqrt (c ^ 2 + 1)) a (a + h))
    as [c [Hc Hr]];
    [lra | intros c _; apply derivable_pt_lim_arcsinh |].
  rewrite Hc. replace (a + h - a) with h by ring.
  assert (Hlo : c <= sqrt (c ^ 2 + 1)).
  { rewrite <- (sqrt_square c) at 1 by lra. apply sqrt_le_1_alt. nra. }
  assert (Hhi : sqrt (c ^ 2 + 1) <= c + 1).
  { rewrite <- (sqrt_square (c + 1)) by lra. apply sqrt_le_1_alt. nra. }
  unfold Rdiv. rewrite !(Rmult_comm h). split.
  - apply Rmult_le_compat_r; [lra|]. apply Rinv_le_contravar; lra.
  - apply Rmult_le_compat_r; [lra|]. apply Rinv_le_contravar; lra.
Qed.

Lemma exp_9_bound : exp 9 <= 19683.
Proof.
  pose proof exp_le_3 as H1. pose proof (exp_pos 1) as H0.
  replace 9 with (1 + 1 + 1 + (1 + 1 + 1) + (1 + 1 + 1)) by ring.
  rewrite !exp_plus. set (e := exp 1) in *.
  assert (H2 : 0 < e * e <= 9) by nra.
  assert (H3 : 0 < e * e * e <= 27).
  { set (e2 := e * e) in *. nra. }
  set (e3 := e * e * e) in *.
  assert (H6 : 0 < e3 * e3 <= 729) by nra.
  set (e6 := e3 * e3) in *. nra.
Qed.

Lemma Pow10_7 : Pow10 7 = 10000000.
Proof.
  unfold Pow10. replace 7 with (INR 7) by (simpl; lra).
  rewrite Rpower_pow by lra. simpl. lra.
Qed.

(** For a median of one half and [b = 6] the target 0.75 lies between
    the simulated outputs at the two ends of the search, [logD = 0] and
    [logD = 7]. *)
Lemma half_luma_reachable :
  spec_transfer 0 (1 / 2) 6 <= 0.75 <= spec_transfer 7 (1 / 2) 6.
Proof.
  unfold spec_transfer. fold (Pow10 0). fold (Pow10 7).
  rewrite Pow10_7. unfold Pow10. rewrite Rpower_O by lra.
  split.
  - pose proof (arcsinh_rise_bounds 6 (1 / 2) ltac:(lra) ltac:(lra)) as [_ Hn].
    pose proof (arcsinh_rise_bounds 6 1 ltac:(lra) ltac:(lra)) as [Hd _].
    replace (1 * (1 / 2) + 6) with (6 + 1 / 2) by lra.
    replace (1 + 6) with (6 + 1) by lra.
    set (n := arcsinh (6 + 1 / 2) - arcsinh 6) in *.
    set (d := arcsinh (6 + 1) - arcsinh 6) in *.
    assert (Hn' : n <= 1 / 12) by lra.
    assert (Hd' : 1 / 8 <= d) by lra.
    apply Rmult_le_reg_r with d; [lra|].
    unfold Rdiv at 1. rewrite Rmult_assoc, Rinv_l by lra. lra.
  - pose proof (arcsinh_rise_bounds (10000000 * (1 / 2) + 6) 5000000
                  ltac:(lra) ltac:(lra)) as [_ Hgap].
    replace (10000000 * (1 / 2) + 6 + 5000000) with (10000000 + 6) in Hgap by lra.
    assert (Hgap' : 5000000 / (10000000 * (1 / 2) + 6) <= 1).
    { apply Rmult_le_reg_r with (10000000 * (1 / 2) + 6); [lra|].
      unfold Rdiv. rewrite Rmult_assoc, Rinv_l by lra. lra. }
    pose proof (arcsinh_lipschitz 0 6 ltac:(lra)) as H6. rewrite arcsinh_0 in H6.
    assert (H9 : 9 <= arcsinh (10000000 * (1 / 2) + 6)).
    { rewrite <- (arcsinh_sinh 9) at 1. apply arcsinh_le. unfold sinh.
      pose proof exp_9_bound. pose proof (exp_pos (Ropp 9)). lra. }
    set (n := arcsinh (10000000 * (1 / 2) + 6) - arcsinh 6) in *.
    set (d := arcsinh (10000000 + 6) - arcsinh 6) in *.
    assert (Hn : 3 <= n) by (unfold n; lra).
    assert (Hd : n <= d <= n + 1).
    { pose proof (arcsinh_le (10000000 * (1 / 2) + 6) (10000000 + 6) ltac:(lra)).
      unfold n, d. lra. }
    apply Rmult_le_reg_r with d; [lra|].
    unfold Rdiv. rewrite Rmult_assoc, Rinv_l by lra. lra.
Qed.

Section SolverProps.

Variable Median : Image -> R.

Lemma SolveLogD_degenerate (luma : Image) (targetMedian bVal : R) :
  Median luma < 1e-9 -> SolveLogD Median luma targetMedian bVal = 2.
Proof.
  intros H. unfold SolveLogD. destruct (Rlt_dec _ 1e-9); [reflexivity | contradiction].
Qed.

Lemma SolveLogD_loop (luma : Image) (targetMedian bVal : R) :
  1e-9 <= Median luma ->
  SolveLogD Median luma targetMedian bVal =
  bisect 40 (Median luma) targetMedian bVal 0 7 2.
Proof.
  intros H. unfold SolveLogD. destruct (Rlt_dec _ 1e-9); [lra | reflexivity].
Qed.

Lemma SolveLogD_midpoints_loop (luma : Image) (targetMedian bVal : R) :
  SolveLogD_midpoints Median luma targetMedian bVal =
  midpoints 40 (Median luma) targetMedian bVal 0 7.
Proof. reflexivity. Qed.

(** C9: when the median is at least 1e-9 and none of the midpoints the
    loop evaluates is within 1e-4 of the target, [SolveLogD] evaluates all
    40 midpoints and returns the initial value 2, which is not the last
    midpoint (no midpoint of the search is 2). *)
Theorem SolveLogD_without_match (luma : Image) (targetMedian bVal : R) :
  1e-9 <= Median luma ->
  Forall (fun midLog => ~ matches (Median luma) targetMedian bVal midLog)
         (SolveLogD_midpoints Median luma targetMedian bVal) ->
  SolveLogD Median luma targetMedian bVal = 2 /\
  List.length (SolveLogD_midpoints Median luma targetMedian bVal) = 40%nat /\
  SolveLogD Median luma targetMedian bVal <>
  last (SolveLogD_midpoints Median luma targetMedian bVal) 0.
Proof.
  intros Hm Hall. rewrite SolveLogD_loop by exact Hm.
  rewrite SolveLogD_midpoints_loop in *.
  apply bisect_from_start_no_match; [discriminate | exact Hall].
Qed.

(** C1, as the code has it: below a median of 1e-9 [SolveLogD] returns
    2; for a median in [[1e-9, 1]], [b >= 0] and a target that lies
    between the outputs of the transfer of the specification at
    [logD = 0] and at [logD = 7], the two ends of the search, the search
    does not run out of iterations: the [logD] it returns reproduces the
    target within 1e-4, hence within 1e-3, under that transfer. *)
Theorem SolveLogD_round_trip (luma : Image) (targetMedian bVal : R) :
  (Median luma < 1e-9 -> SolveLogD Median luma targetMedian bVal = 2) /\
  (1e-9 <= Median luma <= 1 -> 0 <= bVal ->
   spec_transfer 0 (Median luma) bVal <= targetMedian
     <= spec_transfer 7 (Median luma) bVal ->
   Rabs (spec_transfer (SolveLogD Median luma targetMedian bVal) (Median luma) bVal
         - targetMedian) < 0.0001).
Proof.
  split; [apply SolveLogD_degenerate|].
  intros [Hm1 Hm2] Hb Hreach. rewrite SolveLogD_loop by exact Hm1.
  rewrite <- !simulate_spec in Hreach. rewrite <- simulate_spec.
  assert (Ht : targetMedian <= 1).
  { pose proof (simulate_le_one (Median luma) bVal 7 Hm2). lra. }
  pose proof (bisect_converges 39 (Median luma) targetMedian bVal ltac:(lra) Hb Ht
                0 7 2 ltac:(lra) search_width Hreach) as H.
  unfold matches in H. exact H.
Qed.

End SolverProps.

Lemma SolveLogD_without_match_witness :
  SolveLogD FlatMedian half_luma 0.1 6 = 2 /\
  List.length (SolveLogD_midpoints FlatMedian half_luma 0.1 6) = 40%nat /\
  SolveLogD FlatMedian half_luma 0.1 6 <>
  last (SolveLogD_midpoints FlatMedian half_luma 0.1 6) 0.
Proof.
  apply (SolveLogD_without_match FlatMedian half_luma 0.1 6).
  - rewrite FlatMedian_half_luma. lra.
  - rewrite FlatMedian_half_luma. apply Forall_forall. intros midLog _.
    apply no_match_half; lra.
Defined.

(** A median of one half, [b = 6] and a target of 0.75. *)
Lemma SolveLogD_round_trip_witness :
  Rabs (spec_transfer (SolveLogD FlatMedian half_luma 0.75 6)
                      (FlatMedian half_luma) 6 - 0.75) < 0.0001.
Proof.
  apply (SolveLogD_round_trip FlatMedian half_luma 0.75 6).
  - rewrite FlatMedian_half_luma. lra.
  - lra.
  - rewrite FlatMedian_half_luma. exact half_luma_reachable.
Defined.

(** C1 as stated fails: for a median of one half, a target of 0.1 and
    [b = 6], whatever [logD] comes back (it is 2, see above), the transfer
    leaves the median at one half or above, not within 1e-3 of 0.1. *)
Lemma SolveLogD_round_trip_fails :
  1e-9 <= FlatMedian half_luma /\
  ~ (Rabs (spec_transfer (SolveLogD FlatMedian half_luma 0.1 6)
                         (FlatMedian half_luma) 6 - 0.1) < 1e-3).
Proof.
  rewrite FlatMedian_half_luma. split; [lra|].
  pose proof (simulate_half 6 (SolveLogD FlatMedian half_luma 0.1 6) ltac:(lra)) as Hs.
  rewrite simulate_spec in Hs.
  rewrite Rabs_pos_eq by lra. lra.
Qed.

(** ** ReconstructColor *)

Lemma nth_map_seq {A} (f : nat -> A) (g : A -> A) (N i : nat) (d : A) :
  (i < N)%nat -> nth i (map g (map f (seq 0 N))) d = g (f i).
Proof.
  intros Hi. rewrite map_map.
  rewrite (nth_indep _ d (g (f 0%nat))) by (rewrite length_map, length_seq; exact Hi).
  rewrite (map_nth (fun k => g (f k))). rewrite seq_nth by exact Hi. reflexivity.
Qed.

Section ColorProps.

Variable Pow : R -> R -> R.

(** Every sample of the reconstructed image is the blended value behind
    the pedestal. *)
Lemma ReconstructColor_sample (rgb luma originalRGB : Image)
    (colorConvergence colorGrip shadowConvergence D b : R) (c i : nat) :
  NumberOfChannels rgb = 3%Z -> (c < 3)%nat ->
  (i < Z.to_nat (NumberOfPixels rgb))%nat ->
  nth i (channel (ReconstructColor Pow rgb luma originalRGB colorConvergence
                    colorGrip shadowConvergence D b) c) 0 =
  pedestal (blended_at Pow luma originalRGB colorConvergence colorGrip
              shadowConvergence D b c i).
Proof.
  intros Hc Hlt Hi. unfold ReconstructColor. rewrite Hc. cbn [Z.eqb Pos.eqb negb].
  unfold map_samples, channel. cbn [channels map].
  destruct c as [|[|[|c]]]; [| | |lia]; cbn [nth]; apply nth_map_seq; exact Hi.
Qed.

(** With [colorGrip = 1] and [shadowConvergence = 0] there is no hybrid
    blend, and where [k = 0] the vector value is [L * ratio]. *)
Lemma blended_dim (luma originalRGB : Image) (colorConvergence D b : R) (c i : nat) :
  Pow (nth i (channel luma 0) 0) colorConvergence = 0 ->
  blended_at Pow luma originalRGB colorConvergence 1 0 D b c i =
  nth i (channel luma 0) 0 * ratio_at originalRGB c i.
Proof.
  intros Hk. unfold blended_at, needsHybrid.
  destruct (Rlt_dec 1 1); [lra|]. destruct (Rlt_dec 0.01 0); [lra|].
  cbn [orb]. unfold vector_at. rewrite Hk. ring.
Qed.

(** C2, as the code has it: at a pixel where [k = L^colorConvergence] is
    0, with [colorGrip = 1] and [shadowConvergence = 0], each output
    channel is [L * ratio_c] behind the pedestal and the truncation, where
    [ratio_c] is the anchored ratio [orig_c / (sum + eps)]; when nothing is
    truncated it is [L * ratio_c * 0.995 + 0.005], so the anchored ratios
    are those of the output with the pedestal taken off. *)
Theorem ReconstructColor_dim_pixel (rgb luma originalRGB : Image)
    (colorConvergence D b : R) (c i : nat) :
  NumberOfChannels rgb = 3%Z -> (c < 3)%nat ->
  (i < Z.to_nat (NumberOfPixels rgb))%nat ->
  Pow (nth i (channel luma 0) 0) colorConvergence = 0 ->
  let L := nth i (channel luma 0) 0 in
  let out := ReconstructColor Pow rgb luma originalRGB colorConvergence 1 0 D b in
  nth i (channel out c) 0 = pedestal (L * ratio_at originalRGB c i) /\
  (0 <= L * ratio_at originalRGB c i <= 1 ->
   (nth i (channel out c) 0 - 0.005) / 0.995 = L * ratio_at originalRGB c i).
Proof.
  intros Hc Hlt Hi Hk L out. unfold out.
  rewrite ReconstructColor_sample by assumption.
  rewrite blended_dim by exact Hk. fold L.
  split; [reflexivity|].
  intros Hr. unfold pedestal. rewrite Truncate_inside by lra. field. lra.
Qed.

End ColorProps.

Lemma FloatPow_dim : FloatPow 1e-5 10 = 0.
Proof.
  unfold FloatPow. destruct (Rle_dec 1e-5 0); [lra|].
  assert (E : Rpower 1e-5 10 = 1e-5 ^ 10).
  { rewrite <- (Rpower_pow 10) by lra. f_equal. cbn. lra. }
  rewrite E.
  destruct (Rlt_dec _ 1e-46) as [_|Hn]; [reflexivity|].
  exfalso. apply Hn. lra.
Qed.

Lemma ReconstructColor_dim_pixel_witness :
  nth 0 (channel (ReconstructColor FloatPow dim_rgb dim_luma dim_original
                    10 1 0 100 6) 0) 0 =
  pedestal (1e-5 * ratio_at dim_original 0 0).
Proof.
  apply (ReconstructColor_dim_pixel FloatPow dim_rgb dim_luma dim_original
           10 100 6 0 0).
  - reflexivity.
  - lia.
  - cbn. lia.
  - exact FloatPow_dim.
Defined.

Lemma dim_original_ratios :
  ratio_at dim_original 0 0 = 2000 / 4001 /\
  ratio_at dim_original 1 0 = 1000 / 4001 /\
  ratio_at dim_original 2 0 = 1000 / 4001.
Proof.
  unfold ratio_at, dim_original, channel, epsilon. cbn [channels nth].
  repeat split; field.
Qed.

Lemma dim_output (c : nat) :
  (c < 3)%nat ->
  nth 0 (channel (ReconstructColor FloatPow dim_rgb dim_luma dim_original
                    10 1 0 100 6) c) 0 =
  1e-5 * ratio_at dim_original c 0 * 0.995 + 0.005.
Proof.
  intros Hc.
  rewrite ReconstructColor_sample; [|reflexivity|exact Hc|cbn; lia].
  rewrite blended_dim by exact FloatPow_dim.
  change (nth 0 (channel dim_luma 0) 0) with 1e-5.
  unfold pedestal. apply Truncate_inside.
  destruct dim_original_ratios as (ER & EG & EB).
  destruct c as [|[|[|c]]]; [rewrite ER|rewrite EG|rewrite EB|lia]; lra.
Qed.

(** C2 as stated fails: for the dim pixel [(2e-6, 1e-6, 1e-6)] with
    stretched luminance 1e-5 and [colorConvergence = 10], [k] is 0, the
    anchored red ratio is 2000/4001, and the red share of the output is
    below 0.4: the pedestal added to every channel pulls the output
    ratios towards one third. *)
Lemma ReconstructColor_ratio_not_preserved :
  FloatPow (nth 0 (channel dim_luma 0) 0) 10 = 0 /\
  channel_ratio (ReconstructColor FloatPow dim_rgb dim_luma dim_original
                   10 1 0 100 6) 0 0
  <> ratio_at dim_original 0 0.
Proof.
  split; [exact FloatPow_dim|].
  unfold channel_ratio.
  rewrite !dim_output by lia.
  destruct dim_original_ratios as (ER & EG & EB). rewrite ER, EG, EB.
  intros H.
  apply (f_equal (fun v =>
           v * (1e-5 * (2000 / 4001) * 0.995 + 0.005
                + (1e-5 * (1000 / 4001) * 0.995 + 0.005)
                + (1e-5 * (1000 / 4001) * 0.995 + 0.005)))) in H.
  unfold Rdiv at 1 in H. rewrite Rmult_assoc, Rinv_l, Rmult_1_r in H by lra.
  lra.
Qed.

End TransferProps.

(** * Properties of the statistics kernel *)

Module StatsProps.

Import Stats.
Local Open Scope Q_scope.

(** ** PercentileFromSorted *)

(** The clamp [Max( 0.0, Min( pct, 100.0 ) )]. *)
Lemma clamp_range (pct : Q) : 0 <= Qmax 0 (Qmin pct 100) <= 100.
Proof.
  split; [apply Q.le_max_l|].
  apply Q.max_lub; [discriminate|apply Q.le_min_r].
Qed.

Lemma clamp_inside (pct : Q) : 0 <= pct <= 100 -> Qmax 0 (Qmin pct 100) == pct.
Proof.
  intros [H0 H1]. rewrite Q.min_l by exact H1. apply Q.max_r. exact H0.
Qed.

Lemma clamp_below (pct : Q) : pct <= 0 -> Qmax 0 (Qmin pct 100) == 0.
Proof.
  intros H. apply Q.max_l. rewrite Q.min_l; [exact H|].
  apply Qle_trans with 0; [exact H|discriminate].
Qed.

Lemma clamp_above (pct : Q) : 100 <= pct -> Qmax 0 (Qmin pct 100) == 100.
Proof.
  intros H. rewrite Q.min_r by exact H. apply Q.max_r. discriminate.
Qed.

Lemma clamp_mono (p q : Q) :
  p <= q -> Qmax 0 (Qmin p 100) <= Qmax 0 (Qmin q 100).
Proof.
  intros H. apply Q.max_le_compat_l. apply Q.min_le_compat_r. exact H.
Qed.

Lemma rank_range (n : nat) (pct : Q) :
  (1 <= n)%nat -> 0 <= pct <= 100 ->
  0 <= rank n pct <= inject_Z (Z.of_nat n - 1).
Proof.
  intros Hn [H0 H1]. unfold rank.
  assert (Hm : 0 <= inject_Z (Z.of_nat n - 1)).
  { change 0 with (inject_Z 0). rewrite <- Zle_Qle. lia. }
  set (m := inject_Z (Z.of_nat n - 1)) in *.
  split; [|].
  - apply Qmult_le_0_compat; [|exact Hm].
    apply Qle_shift_div_l; [reflexivity|]. rewrite Qmult_0_l. exact H0.
  - assert (Hp : pct / 100 <= 1).
    { apply Qle_shift_div_r; [reflexivity|]. rewrite Qmult_1_l. exact H1. }
    setoid_replace m with (1 * m) at 2 by ring.
    apply Qmult_le_compat_r; assumption.
Qed.

Lemma rank_mono (n : nat) (p q : Q) :
  (1 <= n)%nat -> p <= q -> rank n p <= rank n q.
Proof.
  intros Hn H. unfold rank.
  assert (Hm : 0 <= inject_Z (Z.of_nat n - 1)).
  { change 0 with (inject_Z 0). rewrite <- Zle_Qle. lia. }
  apply Qmult_le_compat_r; [|exact Hm].
  unfold Qdiv. apply Qmult_le_compat_r; [exact H|discriminate].
Qed.

Lemma floor_range (x : Q) (m : Z) :
  0 <= x <= inject_Z m -> (0 <= Qfloor x <= m)%Z.
Proof.
  intros [H0 H1]. split.
  - change 0%Z with (Qfloor 0). apply Qfloor_resp_le. exact H0.
  - rewrite <- (Qfloor_Z m). apply Qfloor_resp_le. exact H1.
Qed.

Lemma frac_range (x : Q) : 0 <= x - inject_Z (Qfloor x) /\ x - inject_Z (Qfloor x) < 1.
Proof.
  pose proof (Qfloor_le x) as H1. pose proof (Qlt_floor x) as H2.
  rewrite inject_Z_plus in H2. change (inject_Z 1) with 1 in H2.
  split; lra.
Qed.

(** [PercentileFromSorted] on two samples or more, with the tests on the
    size resolved. *)
Lemma PercentileFromSorted_interp (sorted : list Q) (pct : Q) :
  (2 <= List.length sorted)%nat ->
  PercentileFromSorted sorted pct =
  let pos := rank (List.length sorted) (Qmax 0 (Qmin pct 100)) in
  let i0 := Qfloor pos in
  let i1 := Z.min (i0 + 1) (Z.of_nat (List.length sorted) - 1) in
  nth (Z.to_nat i0) sorted 0
  + (pos - inject_Z i0) * (nth (Z.to_nat i1) sorted 0 - nth (Z.to_nat i0) sorted 0).
Proof.
  intros Hn. unfold PercentileFromSorted, rank.
  destruct (Nat.eqb_spec (List.length sorted) 0); [lia|].
  destruct (Nat.eqb_spec (List.length sorted) 1); [lia|].
  reflexivity.
Qed.

(** The result only depends on the value of [pct], not on how the
    fraction is written. *)
Lemma PercentileFromSorted_compat (sorted : list Q) (p q : Q) :
  Qmax 0 (Qmin p 100) == Qmax 0 (Qmin q 100) ->
  PercentileFromSorted sorted p == PercentileFromSorted sorted q.
Proof.
  intros H.
  destruct (le_lt_dec 2 (List.length sorted)) as [Hn|Hn].
  - rewrite !PercentileFromSorted_interp by exact Hn. cbv zeta.
    assert (Hr : rank (List.length sorted) (Qmax 0 (Qmin p 100)) ==
                 rank (List.length sorted) (Qmax 0 (Qmin q 100)))
      by (unfold rank; rewrite H; reflexivity).
    rewrite (Qfloor_comp _ _ Hr). rewrite Hr. reflexivity.
  - unfold PercentileFromSorted.
    destruct (Nat.eqb_spec (List.length sorted) 0); [reflexivity|].
    destruct (Nat.eqb_spec (List.length sorted) 1); [reflexivity|lia].
Qed.

Lemma sorted_nth (l : list Q) :
  Sorted Qle l ->
  forall i j, (i <= j < List.length l)%nat -> nth i l 0 <= nth j l 0.
Proof.
  intros Hs. apply (Sorted_StronglySorted Qle_trans) in Hs.
  induction Hs as [|a l Hs IH Hall]; intros i j [Hij Hj]; [cbn in Hj; lia|].
  destruct i as [|i], j as [|j]; cbn [nth]; cbn [List.length] in Hj.
  - apply Qle_refl.
  - rewrite Forall_forall in Hall. apply Hall. apply nth_In. lia.
  - lia.
  - apply IH. lia.
Qed.

(** The value lies between the two bracketing entries. *)
Lemma PercentileFromSorted_bracket (sorted : list Q) (pct : Q) :
  Sorted Qle sorted -> (2 <= List.length sorted)%nat ->
  let i0 := Qfloor (rank (List.length sorted) (Qmax 0 (Qmin pct 100))) in
  let i1 := Z.min (i0 + 1) (Z.of_nat (List.length sorted) - 1) in
  nth (Z.to_nat i0) sorted 0 <= PercentileFromSorted sorted pct /\
  PercentileFromSorted sorted pct <= nth (Z.to_nat i1) sorted 0.
Proof.
  intros Hs Hn. rewrite PercentileFromSorted_interp by exact Hn. cbv zeta.
  set (pos := rank _ _).
  pose proof (rank_range (List.length sorted) _ ltac:(lia) (clamp_range pct)) as Hpos.
  fold pos in Hpos.
  pose proof (floor_range _ _ Hpos) as Hi0.
  destruct (frac_range pos) as [Hf0 Hf1].
  set (i0 := Qfloor pos) in *.
  set (i1 := Z.min (i0 + 1) (Z.of_nat (List.length sorted) - 1)).
  assert (Hab : nth (Z.to_nat i0) sorted 0 <= nth (Z.to_nat i1) sorted 0)
    by (apply sorted_nth; [exact Hs | unfold i1; lia]).
  split; nra.
Qed.

Lemma PercentileFromSorted_mono (sorted : list Q) (p q : Q) :
  Sorted Qle sorted -> p <= q ->
  PercentileFromSorted sorted p <= PercentileFromSorted sorted q.
Proof.
  intros Hs Hpq.
  destruct (le_lt_dec 2 (List.length sorted)) as [Hn|Hn].
  - pose proof (PercentileFromSorted_bracket sorted p Hs Hn) as [_ Hup].
    pose proof (PercentileFromSorted_bracket sorted q Hs Hn) as [Hlo _].
    cbv zeta in Hup, Hlo.
    pose proof (rank_mono (List.length sorted) _ _ ltac:(lia) (clamp_mono p q Hpq)) as Hr.
    pose proof (rank_range (List.length sorted) _ ltac:(lia) (clamp_range p)) as Hp.
    pose proof (rank_range (List.length sorted) _ ltac:(lia) (clamp_range q)) as Hq.
    pose proof (floor_range _ _ Hp) as Hip.
    pose proof (floor_range _ _ Hq) as Hiq.
    pose proof (Qfloor_resp_le _ _ Hr) as Hfl.
    destruct (Z.eq_dec (Qfloor (rank (List.length sorted) (Qmax 0 (Qmin p 100))))
                       (Qfloor (rank (List.length sorted) (Qmax 0 (Qmin q 100)))))
      as [Heq|Hne].
    + rewrite !PercentileFromSorted_interp by exact Hn. cbv zeta.
      rewrite <- Heq.
      set (pos := rank _ (Qmax 0 (Qmin p 100))) in *.
      set (pos' := rank _ (Qmax 0 (Qmin q 100))) in *.
      set (i0 := Qfloor pos) in *.
      set (i1 := Z.min (i0 + 1) (Z.of_nat (List.length sorted) - 1)).
      assert (Hab : nth (Z.to_nat i0) sorted 0 <= nth (Z.to_nat i1) sorted 0)
        by (apply sorted_nth; [exact Hs | unfold i1; lia]).
      nra.
    + eapply Qle_trans; [exact Hup|]. eapply Qle_trans; [|exact Hlo].
      apply sorted_nth; [exact Hs | lia].
  - unfold PercentileFromSorted.
    destruct (Nat.eqb_spec (List.length sorted) 0); [apply Qle_refl|].
    destruct (Nat.eqb_spec (List.length sorted) 1); [apply Qle_refl|lia].
Qed.

Lemma PercentileFromSorted_at_0 (sorted : list Q) :
  PercentileFromSorted sorted 0 == nth 0 sorted 0.
Proof.
  destruct (le_lt_dec 2 (List.length sorted)) as [Hn|Hn].
  - rewrite PercentileFromSorted_interp by exact Hn. cbv zeta.
    assert (Hr : rank (List.length sorted) (Qmax 0 (Qmin 0 100)) == 0)
      by (unfold rank; rewrite clamp_below by apply Qle_refl; field).
    rewrite (Qfloor_comp _ _ Hr), Hr.
    change (Qfloor 0) with 0%Z. change (Z.to_nat 0) with 0%nat.
    change (inject_Z 0) with 0. ring.
  - unfold PercentileFromSorted.
    destruct sorted as [|x [|y l]]; cbn in *; [reflexivity|reflexivity|lia].
Qed.

Lemma nth_pred_length {A} (l : list A) (d : A) :
  nth (List.length l - 1) l d = last l d.
Proof.
  induction l as [|a l IH]; [reflexivity|].
  destruct l as [|b l]; [reflexivity|].
  change (last (a :: b :: l) d) with (last (b :: l) d). rewrite <- IH.
  cbn [List.length].
  replace (S (S (List.length l)) - 1)%nat with (S (S (List.length l) - 1)) by lia.
  reflexivity.
Qed.

Lemma PercentileFromSorted_at_100 (sorted : list Q) :
  PercentileFromSorted sorted 100 == last sorted 0.
Proof.
  destruct (le_lt_dec 2 (List.length sorted)) as [Hn|Hn].
  - rewrite PercentileFromSorted_interp by exact Hn. cbv zeta.
    assert (Hr : rank (List.length sorted) (Qmax 0 (Qmin 100 100)) ==
                 inject_Z (Z.of_nat (List.length sorted) - 1))
      by (unfold rank; rewrite clamp_above by apply Qle_refl; field).
    rewrite (Qfloor_comp _ _ Hr), Hr, Qfloor_Z.
    rewrite Z.min_r by lia.
    replace (Z.to_nat (Z.of_nat (List.length sorted) - 1))
      with (List.length sorted - 1)%nat by lia.
    rewrite nth_pred_length. ring.
  - unfold PercentileFromSorted.
    destruct sorted as [|x [|y l]]; cbn in *; [reflexivity|reflexivity|lia].
Qed.

Lemma sorted_first_least (sorted : list Q) (x : Q) :
  Sorted Qle sorted -> In x sorted -> nth 0 sorted 0 <= x.
Proof.
  intros Hs Hin. destruct (In_nth _ _ 0 Hin) as (j & Hj & <-).
  apply sorted_nth; [exact Hs | lia].
Qed.

Lemma sorted_last_greatest (sorted : list Q) (x : Q) :
  Sorted Qle sorted -> In x sorted -> x <= last sorted 0.
Proof.
  intros Hs Hin. destruct (In_nth _ _ 0 Hin) as (j & Hj & <-).
  rewrite <- nth_pred_length. apply sorted_nth; [exact Hs | lia].
Qed.

Lemma PercentileFromSorted_rank (sorted : list Q) (pct : Q) :
  (2 <= List.length sorted)%nat -> 0 <= pct <= 100 ->
  let pos := (pct / 100) * inject_Z (Z.of_nat (List.length sorted) - 1) in
  let i0 := Qfloor pos in
  let i1 := Z.min (i0 + 1) (Z.of_nat (List.length sorted) - 1) in
  PercentileFromSorted sorted pct ==
  nth (Z.to_nat i0) sorted 0
  + (pos - inject_Z i0) * (nth (Z.to_nat i1) sorted 0 - nth (Z.to_nat i0) sorted 0).
Proof.
  intros Hn Hp. cbv zeta. rewrite PercentileFromSorted_interp by exact Hn. cbv zeta.
  assert (Hr : rank (List.length sorted) (Qmax 0 (Qmin pct 100)) ==
               (pct / 100) * inject_Z (Z.of_nat (List.length sorted) - 1))
    by (unfold rank; rewrite clamp_inside by exact Hp; reflexivity).
  rewrite (Qfloor_comp _ _ Hr), Hr. reflexivity.
Qed.

(** C7: [PercentileFromSorted] returns 0 for no sample and the sample
    for a single one; on a sorted vector it returns the first entry, the
    minimum, at [pct = 0] and the last one, the maximum, at [pct = 100];
    [pct] is clamped to [[0,100]]; the result is non-decreasing in [pct];
    for two samples or more it is the linear interpolation at rank
    [pct/100 * (n-1)] between the two bracketing entries; and for
    [[1;2;3;4]] at [pct = 50] it is 2.5. *)
Theorem PercentileFromSorted_properties :
  (forall pct, PercentileFromSorted [] pct = 0) /\
  (forall x pct, PercentileFromSorted [x] pct = x) /\
  (forall sorted, Sorted Qle sorted ->
     PercentileFromSorted sorted 0 == nth 0 sorted 0 /\
     forall x, In x sorted -> PercentileFromSorted sorted 0 <= x) /\
  (forall sorted, Sorted Qle sorted ->
     PercentileFromSorted sorted 100 == last sorted 0 /\
     forall x, In x sorted -> x <= PercentileFromSorted sorted 100) /\
  (forall sorted pct,
     (pct <= 0 -> PercentileFromSorted sorted pct == PercentileFromSorted sorted 0) /\
     (100 <= pct -> PercentileFromSorted sorted pct == PercentileFromSorted sorted 100)) /\
  (forall sorted p q, Sorted Qle sorted -> p <= q ->
     PercentileFromSorted sorted p <= PercentileFromSorted sorted q) /\
  (forall sorted pct, (2 <= List.length sorted)%nat -> 0 <= pct <= 100 ->
     let pos := (pct / 100) * inject_Z (Z.of_nat (List.length sorted) - 1) in
     let i0 := Qfloor pos in
     let i1 := Z.min (i0 + 1) (Z.of_nat (List.length sorted) - 1) in
     PercentileFromSorted sorted pct ==
     nth (Z.to_nat i0) sorted 0
     + (pos - inject_Z i0) * (nth (Z.to_nat i1) sorted 0 - nth (Z.to_nat i0) sorted 0)) /\
  PercentileFromSorted [1; 2; 3; 4] 50 == 2.5.
Proof.
  split; [reflexivity|].
  split; [reflexivity|].
  split.
  { intros sorted Hs. split; [apply PercentileFromSorted_at_0|].
    intros x Hin. rewrite PercentileFromSorted_at_0.
    apply sorted_first_least; assumption. }
  split.
  { intros sorted Hs. split; [apply PercentileFromSorted_at_100|].
    intros x Hin. rewrite PercentileFromSorted_at_100.
    apply sorted_last_greatest; assumption. }
  split.
  { intros sorted pct. split; intros H; apply PercentileFromSorted_compat.
    - rewrite clamp_below by exact H. rewrite clamp_below by apply Qle_refl.
      reflexivity.
    - rewrite clamp_above by exact H. rewrite clamp_above by apply Qle_refl.
      reflexivity. }
  split; [intros; apply PercentileFromSorted_mono; assumption|].
  split; [intros sorted pct Hn Hp; apply PercentileFromSorted_rank; assumption|].
  vm_compute. reflexivity.
Qed.

Lemma PercentileFromSorted_properties_witness :
  PercentileFromSorted [1; 2; 3; 4] 0 <= 1 /\
  4 <= PercentileFromSorted [1; 2; 3; 4] 100 /\
  PercentileFromSorted [1; 2; 3; 4] (-5) == PercentileFromSorted [1; 2; 3; 4] 0 /\
  PercentileFromSorted [1; 2; 3; 4] 25 <= PercentileFromSorted [1; 2; 3; 4] 75 /\
  PercentileFromSorted [1; 2; 3; 4] 75 == 3.25.
Proof.
  assert (Hs : Sorted Qle [1; 2; 3; 4])
    by (repeat constructor; discriminate).
  destruct PercentileFromSorted_properties
    as (_ & _ & H0 & H100 & Hclamp & Hmono & Hrank & _).
  split; [apply (H0 _ Hs); left; reflexivity|].
  split; [apply (H100 _ Hs); right; right; right; left; reflexivity|].
  split; [apply Hclamp; discriminate|].
  split; [apply Hmono; [exact Hs | discriminate]|].
  rewrite (Hrank [1; 2; 3; 4] 75);
    [vm_compute; reflexivity | cbn; lia | split; discriminate].
Defined.

(** ** ApplyLinearExpansion *)

Section LinearExpansionProps.

Variable LocateMaximumSampleValue : Image -> Z * Z.

Lemma ApplyLinearExpansion_small_factor (target : Image) (factor : Q)
    (diagnostics : option LinearExpansionStats) :
  factor <= float_0_001 ->
  ApplyLinearExpansion LocateMaximumSampleValue target factor diagnostics =
  (target, option_map (fun _ => mkStats 0 0 0 0) diagnostics).
Proof.
  intros H. unfold ApplyLinearExpansion.
  apply Qle_bool_iff in H. rewrite H. reflexivity.
Qed.

Lemma ApplyLinearExpansion_empty_range (target : Image) (factor : Q)
    (diagnostics : option LinearExpansionStats) :
  ~ factor <= float_0_001 ->
  resolved_high LocateMaximumSampleValue target <= resolved_low target ->
  ApplyLinearExpansion LocateMaximumSampleValue target factor diagnostics =
  (target,
   option_map
     (fun _ => mkStats 0 0 (resolved_low target)
                       (resolved_high LocateMaximumSampleValue target))
     diagnostics).
Proof.
  intros Hf Hr. unfold ApplyLinearExpansion.
  destruct (Qle_bool factor float_0_001) eqn:E; [apply Qle_bool_iff in E; contradiction|].
  apply Qle_bool_iff in Hr. rewrite Hr. reflexivity.
Qed.

(** C4, as the code has it: [ApplyLinearExpansion] leaves the image as
    it is, and sets all four fields of a diagnostics record to 0, when the
    factor is at most the [float] constant [0.001f] it is compared with,
    hence whenever the factor is at most 0.001.  Above that constant, when
    the resolved high bound does not exceed the resolved low bound, it
    likewise leaves the image as it is; the diagnostics record, when one
    is passed, then gets both clamp percentages set to 0 and its [low] and
    [high] fields set to the resolved bounds. *)
Theorem ApplyLinearExpansion_noop (target : Image) (factor : Q)
    (diagnostics : option LinearExpansionStats) :
  (factor <= float_0_001 ->
   ApplyLinearExpansion LocateMaximumSampleValue target factor diagnostics =
   (target, option_map (fun _ => mkStats 0 0 0 0) diagnostics)) /\
  (factor <= 0.001 ->
   fst (ApplyLinearExpansion LocateMaximumSampleValue target factor diagnostics)
   = target) /\
  (~ factor <= float_0_001 ->
   resolved_high LocateMaximumSampleValue target <= resolved_low target ->
   ApplyLinearExpansion LocateMaximumSampleValue target factor diagnostics =
   (target,
    option_map
      (fun _ => mkStats 0 0 (resolved_low target)
                        (resolved_high LocateMaximumSampleValue target))
      diagnostics)).
Proof.
  split; [apply ApplyLinearExpansion_small_factor|]. split.
  - intros H. rewrite ApplyLinearExpansion_small_factor; [reflexivity|].
    apply Qle_trans with 0.001; [exact H|discriminate].
  - apply ApplyLinearExpansion_empty_range.
Qed.



End LinearExpansionProps.

Lemma ApplyLinearExpansion_noop_witness :
  ApplyLinearExpansion LocateFirstMaximum flat_grey float_0_001
    (Some (mkStats 1 1 1 1)) =
  (flat_grey, Some (mkStats 0 0 0 0)) /\
  fst (ApplyLinearExpansion LocateFirstMaximum green_star 0.001 None) = green_star /\
  ApplyLinearExpansion LocateFirstMaximum flat_grey 1 (Some (mkStats 1 1 1 1)) =
  (flat_grey,
   Some (mkStats 0 0 (resolved_low flat_grey)
                 (resolved_high LocateFirstMaximum flat_grey))).
Proof.
  split; [|split].
  - apply (ApplyLinearExpansion_noop LocateFirstMaximum flat_grey float_0_001
             (Some (mkStats 1 1 1 1))).
    discriminate.
  - apply (ApplyLinearExpansion_noop LocateFirstMaximum green_star 0.001 None).
    discriminate.
  - apply (ApplyLinearExpansion_noop LocateFirstMaximum flat_grey 1
             (Some (mkStats 1 1 1 1))).
    + vm_compute. intros H. apply H. reflexivity.
    + vm_compute. discriminate.
Defined.

(** C4 as stated fails: for a flat grey image and factor 1 both resolved
    bounds are 0.5, the high bound does not exceed the low one, and the
    record comes back with [low = high = 0.5], not zeroed. *)
Lemma ApplyLinearExpansion_diagnostics_not_zeroed :
  ~ 1 <= float_0_001 /\
  resolved_high LocateFirstMaximum flat_grey <= resolved_low flat_grey /\
  exists d,
    snd (ApplyLinearExpansion LocateFirstMaximum flat_grey 1 (Some (mkStats 1 1 1 1)))
    = Some d /\
    low d == 0.5 /\ high d == 0.5 /\ ~ low d == 0 /\ ~ high d == 0.
Proof.
  split; [vm_compute; intros H; apply H; reflexivity|].
  split; [vm_compute; discriminate|].
  eexists. split; [vm_compute; reflexivity|].
  repeat split; cbn [low high]; try reflexivity; discriminate.
Qed.


Lemma green_star_rejected :
  LocateFirstMaximum green_star = (1%Z, 1%Z) /\
  MaximumSampleValue green_star = 1 /\
  useAbsoluteMax LocateFirstMaximum green_star = false.
Proof. repeat split; vm_compute; reflexivity. Qed.

(** [sort] returns its input in non-decreasing order. *)
Lemma insert_Sorted (x : Q) (l : list Q) : Sorted Qle l -> Sorted Qle (insert x l).
Proof.
  intros Hs. induction Hs as [|y l Hs IH Hhd]; cbn [insert].
  - repeat constructor.
  - destruct (Qle_bool x y) eqn:E.
    + apply Qle_bool_iff in E. repeat constructor; assumption.
    + assert (Hyx : y <= x).
      { destruct (Qlt_le_dec y x) as [Hlt|Hle]; [apply Qlt_le_weak; exact Hlt|].
        apply Qle_bool_iff in Hle. congruence. }
      constructor; [exact IH|].
      destruct l as [|z l]; cbn [insert]; [repeat constructor; exact Hyx|].
      destruct (Qle_bool x z); constructor; [exact Hyx|].
      inversion Hhd; assumption.
Qed.

Lemma sort_Sorted (l : list Q) : Sorted Qle (sort l).
Proof.
  induction l as [|x l IH]; cbn [sort]; [constructor | apply insert_Sorted, IH].
Qed.

(** ** The anchors of an all-zero image *)

Lemma zeros_nth (l : list Q) (i : nat) : zeros l -> nth i l 0 == 0.
Proof.
  intros H. destruct (le_lt_dec (List.length l) i) as [Hi|Hi].
  - rewrite nth_overflow by exact Hi. reflexivity.
  - unfold zeros in H. rewrite Forall_forall in H. apply H. apply nth_In. exact Hi.
Qed.

Lemma all_zero_channel (img : Image) (c : nat) : all_zero img -> zeros (channel img c).
Proof.
  intros H. unfold channel.
  destruct (le_lt_dec (List.length (channels img)) c) as [Hc|Hc].
  - rewrite nth_overflow by exact Hc. constructor.
  - unfold all_zero in H. rewrite Forall_forall in H. apply H. apply nth_In. exact Hc.
Qed.

Lemma subsample_zeros (data : list Q) (count stride : Z) :
  zeros data -> zeros (subsample data count stride).
Proof.
  intros H. unfold subsample. apply Forall_forall. intros v Hin.
  apply in_map_iff in Hin. destruct Hin as (k & <- & _). apply zeros_nth. exact H.
Qed.

Lemma insert_Forall (P : Q -> Prop) (x : Q) (l : list Q) :
  P x -> Forall P l -> Forall P (insert x l).
Proof.
  intros Hx Hl. induction Hl as [|y l Hy Hl IH]; cbn [insert].
  - constructor; [exact Hx|constructor].
  - destruct (Qle_bool x y); repeat (constructor; try assumption).
Qed.

Lemma sort_Forall (P : Q -> Prop) (l : list Q) : Forall P l -> Forall P (sort l).
Proof.
  intros Hl. induction Hl as [|y l Hy Hl IH]; cbn [sort];
    [constructor | apply insert_Forall; assumption].
Qed.

Lemma PercentileFromSorted_zeros (sorted : list Q) (pct : Q) :
  zeros sorted -> PercentileFromSorted sorted pct == 0.
Proof.
  intros H. destruct (le_lt_dec 2 (List.length sorted)) as [Hn|Hn].
  - rewrite PercentileFromSorted_interp by exact Hn. cbv zeta.
    rewrite !(zeros_nth sorted _ H). ring.
  - unfold PercentileFromSorted.
    destruct (Nat.eqb_spec (List.length sorted) 0); [reflexivity|].
    destruct (Nat.eqb_spec (List.length sorted) 1); [|lia].
    apply zeros_nth. exact H.
Qed.

Lemma PercentileInPlace_zeros (sample : list Q) (pct : Q) :
  zeros sample -> fst (PercentileInPlace sample pct) == 0.
Proof.
  intros H. unfold PercentileInPlace.
  destruct (List.length sample =? 0)%nat; cbn [fst]; [reflexivity|].
  apply PercentileFromSorted_zeros. apply sort_Forall. exact H.
Qed.

Lemma SubsamplePercentile_zeros (data : list Q) (count stride : Z) (pct : Q) :
  zeros data -> SubsamplePercentile data count stride pct == 0.
Proof.
  intros H. unfold SubsamplePercentile.
  destruct (count =? 0)%Z; [reflexivity|].
  apply PercentileInPlace_zeros, subsample_zeros, H.
Qed.

Lemma CalculateAnchor_nonneg (img : Image) : 0 <= CalculateAnchor img.
Proof.
  unfold CalculateAnchor.
  destruct (NumberOfChannels img =? 3)%Z; apply Q.le_max_l.
Qed.

Lemma CalculateAnchor_all_zero (img : Image) :
  all_zero img -> CalculateAnchor img == 0.
Proof.
  intros H. unfold CalculateAnchor.
  destruct (NumberOfChannels img =? 3)%Z.
  - cbn [fold_left].
    rewrite !(SubsamplePercentile_zeros _ _ _ _ (all_zero_channel img _ H)).
    reflexivity.
  - rewrite (SubsamplePercentile_zeros _ _ _ _ (all_zero_channel img _ H)).
    reflexivity.
Qed.

(** *** The histogram of an all-zero image *)

Lemma bins_value : bins = 65536%Z.
Proof. reflexivity. Qed.

Lemma adaptive_luma_zeros (img : Image) (profile : SensorProfile) :
  all_zero img -> zeros (adaptive_luma img profile).
Proof.
  intros H. unfold adaptive_luma.
  destruct (NumberOfChannels img =? 3)%Z; [|apply all_zero_channel; exact H].
  apply Forall_forall. intros v Hin. apply in_map_iff in Hin.
  destruct Hin as (i & <- & _).
  rewrite !(zeros_nth _ _ (all_zero_channel img _ H)). ring.
Qed.

Lemma clip_zero (v : Q) : v == 0 -> Qmax 0 (Qmin v 1) == 0.
Proof.
  intros H. apply Q.max_l. rewrite Q.min_l; rewrite H; discriminate.
Qed.

Lemma bin_of_zero (v : Q) : v == 0 -> bin_of v = 0%Z.
Proof.
  intros H. unfold bin_of.
  assert (E : Qmin v 0.999999 * inject_Z bins == 0).
  { rewrite Q.min_l by (rewrite H; discriminate). rewrite H. ring. }
  rewrite (Qfloor_comp _ _ E). reflexivity.
Qed.

Lemma histogram_loop_zeros (sub : list Q) :
  zeros sub ->
  forall (sample : list Q) (hist : list Z),
    zeros sample ->
    zeros (fst (fold_left histogram_step sub (sample, hist))) /\
    snd (fold_left histogram_step sub (sample, hist)) =
    Nat.iter (List.length sub) (incr_at 0) hist.
Proof.
  intros Hsub. induction Hsub as [|v sub Hv Hsub IH]; intros sample hist Hs.
  - split; [exact Hs|reflexivity].
  - cbn [fold_left List.length]. unfold histogram_step at 2 4. cbn [fst snd].
    rewrite (bin_of_zero _ (clip_zero v Hv)). change (Z.to_nat 0) with 0%nat.
    destruct (IH (sample ++ [Qmax 0 (Qmin v 1)]) (incr_at 0 hist)) as [Hz Hh].
    { apply Forall_app. split; [exact Hs|].
      constructor; [apply clip_zero; exact Hv|constructor]. }
    split; [exact Hz|]. rewrite Hh. rewrite Nat.iter_succ_r. reflexivity.
Qed.

Lemma iter_incr_at_0 (n : nat) (x : Z) (l : list Z) :
  Nat.iter n (incr_at 0) (x :: l) = (x + Z.of_nat n)%Z :: l.
Proof.
  induction n as [|n IH].
  - cbn [Nat.iter nat_rect]. f_equal. lia.
  - rewrite Nat.iter_succ, IH. cbn [incr_at]. f_equal. lia.
Qed.

(** The histogram of an all-zero image has all its [count] samples in
    bin 0. *)
Lemma build_histogram_zeros (data : list Q) (N stride : Z) :
  zeros data ->
  exists sample count,
    build_histogram data N stride =
    (sample, Z.of_nat count :: repeat 0%Z (Z.to_nat bins - 1)) /\
    zeros sample.
Proof.
  intros H. unfold build_histogram.
  pose proof (histogram_loop_zeros _ (subsample_zeros data N stride H) []
                (repeat 0%Z (Z.to_nat bins)) (Forall_nil _)) as Hl.
  destruct (fold_left _ (subsample data N stride) _) as [sample hist].
  cbn [fst snd] in Hl. destruct Hl as [Hz Hh].
  exists sample, (List.length (subsample data N stride)). split; [|exact Hz].
  f_equal. rewrite Hh.
  replace (Z.to_nat bins) with (S (Z.to_nat bins - 1)) at 1
    by (pose proof bins_value; lia).
  cbn [repeat]. rewrite iter_incr_at_0. reflexivity.
Qed.

Ltac zbool :=
  repeat match goal with
         | |- context [(?a <=? ?b)%Z] => destruct (Z.leb_spec a b)
         | |- context [(?a <? ?b)%Z] => destruct (Z.ltb_spec a b)
         | |- context [(?a =? ?b)%Z] => destruct (Z.eqb_spec a b)
         end;
  cbn [andb]; try lia.

Lemma hist_at_single (count : Z) (m : nat) (j : Z) :
  hist_at (count :: repeat 0%Z m) j = if (j =? 0)%Z then count else 0%Z.
Proof.
  unfold hist_at. cbn [List.length].
  destruct (Z.eqb_spec j 0) as [->|Hj].
  - replace (0 <? Z.of_nat (S (List.length (repeat 0%Z m))))%Z with true
      by (symmetry; apply Z.ltb_lt; lia).
    reflexivity.
  - destruct (_ && _)%bool eqn:E; [|reflexivity].
    apply andb_prop in E. destruct E as [E1 E2]. apply Z.leb_le in E1.
    replace (Z.to_nat j) with (S (Z.to_nat j - 1)) by lia.
    cbn [nth]. apply nth_repeat.
Qed.

Lemma fold_single_term (g : Z -> Z) (count c : Z) :
  (forall z, g z = if (c + z =? 0)%Z then count else 0%Z) ->
  forall (len a : nat) (s : Z),
    fold_left (fun sum k => (sum + g (Z.of_nat k))%Z) (seq a len) s =
    (s + if ((Z.of_nat a <=? - c) && (- c <? Z.of_nat a + Z.of_nat len))%Z
         then count else 0)%Z.
Proof.
  intros Hg. induction len as [|len IH]; intros a s.
  - cbn [seq fold_left]. zbool.
  - cbn [seq fold_left]. rewrite IH, Hg. zbool.
Qed.

Lemma window_sum_single (count : Z) (m : nat) (i : Z) :
  window_sum (count :: repeat 0%Z m) i =
  if ((0 <=? 25 - i) && (25 - i <? 50))%Z then count else 0%Z.
Proof.
  unfold window_sum.
  rewrite (fold_single_term (fun z => hist_at (count :: repeat 0%Z m) (i - 25 + z))
             count (i - 25)%Z).
  - zbool.
  - intros z. apply hist_at_single.
Qed.

(** *** Smoothing, peak search and scan on that histogram *)

Lemma SmoothHistogramBox50_nth (hist : list Z) (i : nat) :
  nth i (SmoothHistogramBox50 hist) 0 =
  if (i <? List.length hist)%nat
  then inject_Z (window_sum hist (Z.of_nat i)) / 50 else 0.
Proof.
  unfold SmoothHistogramBox50. destruct (Nat.ltb_spec i (List.length hist)) as [Hi|Hi].
  - rewrite (nth_indep _ 0 (inject_Z (window_sum hist (Z.of_nat 0)) / 50))
      by (rewrite length_map, length_seq; exact Hi).
    rewrite (map_nth (fun k => inject_Z (window_sum hist (Z.of_nat k)) / 50)).
    rewrite seq_nth by exact Hi. reflexivity.
  - apply nth_overflow. rewrite length_map, length_seq. exact Hi.
Qed.

Section SingleBin.

Variables (count m : nat).

Let hist : list Z := Z.of_nat count :: repeat 0%Z m.
Let histSmooth : list Q := SmoothHistogramBox50 hist.
Let top : Q := inject_Z (Z.of_nat count) / 50.

Lemma top_nonneg : 0 <= top.
Proof.
  unfold top. apply Qle_shift_div_l; [reflexivity|]. rewrite Qmult_0_l.
  change 0 with (inject_Z 0). rewrite <- Zle_Qle. lia.
Qed.

Lemma histSmooth_bounds (i : nat) : 0 <= nth i histSmooth 0 <= top.
Proof.
  pose proof top_nonneg as Ht.
  unfold histSmooth. rewrite SmoothHistogramBox50_nth.
  destruct (i <? List.length hist)%nat; [|split; [apply Qle_refl|exact Ht]].
  unfold hist. rewrite window_sum_single.
  destruct (_ && _)%bool; [split; [exact Ht|apply Qle_refl]|].
  setoid_replace (inject_Z 0 / 50) with 0 by reflexivity.
  split; [apply Qle_refl|exact Ht].
Qed.

Lemma histSmooth_first : nth 0 histSmooth 0 = top.
Proof.
  unfold histSmooth. rewrite SmoothHistogramBox50_nth.
  unfold hist. rewrite window_sum_single. reflexivity.
Qed.

End SingleBin.

Lemma fold_Qmax_lower (f : nat -> Q) (l : list nat) :
  forall init,
    init <= fold_left (fun maxBefore i => Qmax maxBefore (f i)) l init /\
    forall i, In i l ->
      f i <= fold_left (fun maxBefore i => Qmax maxBefore (f i)) l init.
Proof.
  induction l as [|k l IH]; intros init; cbn [fold_left].
  - split; [apply Qle_refl|intros i []].
  - destruct (IH (Qmax init (f k))) as [H1 H2]. split.
    + eapply Qle_trans; [apply Q.le_max_l|exact H1].
    + intros i [<-|Hin]; [|apply H2; exact Hin].
      eapply Qle_trans; [apply Q.le_max_r|exact H1].
Qed.

Lemma peak_search_stable (histSmooth : list Q) (l : list nat) (st : nat * Q) :
  (forall i, nth i histSmooth 0 <= snd st) ->
  fold_left
    (fun st i =>
       if Qlt_le_dec (snd st) (nth i histSmooth 0)
       then (i, nth i histSmooth 0) else st)
    l st = st.
Proof.
  intros H. induction l as [|k l IH]; [reflexivity|].
  cbn [fold_left]. destruct (Qlt_le_dec _ _) as [Hlt|_]; [|exact IH].
  exfalso. apply (Qlt_not_le _ _ Hlt). apply H.
Qed.

Lemma peak_search_at_start (histSmooth : list Q) (searchStart : nat) :
  (forall i, nth i histSmooth 0 <= nth searchStart histSmooth 0) ->
  peak_search histSmooth searchStart = (searchStart, nth searchStart histSmooth 0).
Proof.
  intros H. unfold peak_search. apply peak_search_stable. exact H.
Qed.

Lemma anchor_scan_none (histSmooth : list Q) (peakIdx : nat) (targetVal : Q) :
  (forall i, targetVal <= nth i histSmooth 0) ->
  anchor_scan histSmooth peakIdx targetVal = (-1)%Z.
Proof.
  intros H. unfold anchor_scan. generalize (seq 0 peakIdx). intros l.
  induction l as [|k l IH]; [reflexivity|].
  cbn [fold_left]. destruct (Qlt_le_dec _ _) as [Hlt|_]; [|exact IH].
  exfalso. apply (Qlt_not_le _ _ Hlt). apply H.
Qed.

Lemma CalculateAnchorAdaptive_nonneg (img : Image) (profile : SensorProfile) :
  0 <= CalculateAnchorAdaptive img profile.
Proof.
  unfold CalculateAnchorAdaptive.
  destruct (build_histogram _ _ _) as [sample hist].
  destruct (peak_search _ _) as [peakIdx peakVal].
  apply Q.le_max_l.
Qed.

Lemma CalculateAnchorAdaptive_all_zero (img : Image) (profile : SensorProfile) :
  all_zero img -> CalculateAnchorAdaptive img profile == 0.
Proof.
  intros H. unfold CalculateAnchorAdaptive.
  destruct (build_histogram_zeros (adaptive_luma img profile) (NumberOfPixels img)
              (Z.max 1 (NumberOfPixels img / 2000000))
              (adaptive_luma_zeros img profile H))
    as (sample & count & E & Hz).
  rewrite E. clear E.
  set (m := (Z.to_nat bins - 1)%nat).
  set (histSmooth := SmoothHistogramBox50 (Z.of_nat count :: repeat 0%Z m)).
  pose proof (histSmooth_bounds count m) as Hb. fold histSmooth in Hb.
  pose proof (histSmooth_first count m) as Hf. fold histSmooth in Hf.
  set (top := inject_Z (Z.of_nat count) / 50) in *.
  pose proof (top_nonneg count) as Ht. fold top in Ht.
  clearbody histSmooth top. clear m.
  change (Z.of_nat 100 >=? bins)%Z with false. cbv iota.
  assert (Hnone : forall peakIdx targetVal,
             anchor_scan histSmooth peakIdx targetVal = (-1)%Z ->
             Qmax 0 (if (anchor_scan histSmooth peakIdx targetVal >=? 0)%Z
                     then inject_Z (anchor_scan histSmooth peakIdx targetVal)
                          / inject_Z bins
                     else fst (PercentileInPlace sample 0.5)) == 0).
  { intros peakIdx targetVal Hscan. rewrite Hscan.
    change (-1 >=? 0)%Z with false. cbv iota.
    apply Q.max_l. rewrite (PercentileInPlace_zeros sample 0.5 Hz). apply Qle_refl. }
  destruct (Qlt_le_dec 0 (max_before histSmooth)) as [Hpos|Hzero]; cbv beta iota.
  - pose proof (peak_search_at_start histSmooth 0) as Hps.
    destruct (peak_search histSmooth 0) as [peakIdx peakVal].
    rewrite Hf in Hps. specialize (Hps (fun i => proj2 (Hb i))).
    injection Hps as -> ->.
    apply Hnone. reflexivity.
  - assert (Htop : top <= 0).
    { rewrite <- Hf. eapply Qle_trans; [|exact Hzero].
      unfold max_before.
      apply (proj2 (fold_Qmax_lower (fun i => nth i histSmooth 0) _ 0)).
      apply in_seq. pose proof bins_value. lia. }
    assert (Hall : forall i, nth i histSmooth 0 == 0).
    { intros i. destruct (Hb i). apply Qle_antisym; [lra|assumption]. }
    pose proof (peak_search_at_start histSmooth 100) as Hps.
    destruct (peak_search histSmooth 100) as [peakIdx peakVal].
    assert (Hpv : peakVal == 0).
    { assert (Hst : (peakIdx, peakVal) = (100%nat, nth 100 histSmooth 0))
        by (apply Hps; intros i; rewrite !Hall; apply Qle_refl).
      injection Hst as _ ->. apply Hall. }
    apply Hnone. apply anchor_scan_none. intros i. rewrite Hall, Hpv. discriminate.
Qed.

(** C5: both anchor estimators return a non-negative anchor for every
    image, the normalized ones among them, and 0 for every all-zero
    image. *)
Theorem anchors_nonnegative (img : Image) (profile : SensorProfile) :
  0 <= CalculateAnchor img /\
  0 <= CalculateAnchorAdaptive img profile /\
  (all_zero img ->
   CalculateAnchor img == 0 /\ CalculateAnchorAdaptive img profile == 0).
Proof.
  split; [apply CalculateAnchor_nonneg|].
  split; [apply CalculateAnchorAdaptive_nonneg|].
  intros H. split;
    [apply CalculateAnchor_all_zero | apply CalculateAnchorAdaptive_all_zero]; exact H.
Qed.

Lemma anchors_nonnegative_witness :
  CalculateAnchor black_rgb == 0 /\
  CalculateAnchorAdaptive black_rgb (mkProfile 0.2126 0.7152 0.0722) == 0.
Proof.
  apply (anchors_nonnegative black_rgb (mkProfile 0.2126 0.7152 0.0722)).
  repeat constructor.
Defined.

End StatsProps.

(** * Properties of the input normalisation *)

Module InputProps.

Import Input.

Section NormalizeProps.

Variable Assign : ImageVariant -> FloatImage.
Variable MaximumSampleValue : FloatImage -> Q.

Lemma convert_complex (target : FloatImage) (source : ImageVariant) :
  format source = ComplexFormat ->
  convert Assign MaximumSampleValue target source =
  (target, Thrown "Complex images are not supported.").
Proof.
  intros H. unfold convert, IsFloatSample, IsComplexSample. rewrite H. reflexivity.
Qed.

Lemma convert_other (target : FloatImage) (source : ImageVariant) :
  format source <> ComplexFormat ->
  snd (convert Assign MaximumSampleValue target source) = Returned.
Proof.
  intros H. unfold convert, IsFloatSample, IsComplexSample.
  destruct (format source); [| congruence |].
  - destruct (Qlt_le_dec 1.1 _); [destruct (Qlt_le_dec _ 100000)|]; reflexivity.
  - destruct (BitsPerSample source =? 8)%Z; [reflexivity|].
    destruct (BitsPerSample source =? 16)%Z; [reflexivity|].
    destruct (BitsPerSample source =? 32)%Z; reflexivity.
Qed.

(** C8: for a complex-sample source [NormalizeInput] throws the error
    "Complex images are not supported." and leaves the target image as it
    was: nothing is assigned, scaled or sanitised before the throw.  For a
    source of any other sample format (floating point or integer, of any
    bit depth, so the 32- and 64-bit floats and the 8-, 16- and 32-bit
    integers among them) it returns without an error. *)
Theorem NormalizeInput_errors (target : FloatImage) (source : ImageVariant) :
  (format source = ComplexFormat ->
   NormalizeInput Assign MaximumSampleValue target source =
   (target, Thrown "Complex images are not supported.")) /\
  (format source <> ComplexFormat ->
   snd (NormalizeInput Assign MaximumSampleValue target source) = Returned).
Proof.
  split; intros H; unfold NormalizeInput.
  - rewrite convert_complex by exact H. reflexivity.
  - pose proof (convert_other target source H) as Hc.
    destruct (convert Assign MaximumSampleValue target source) as [t o].
    cbn [snd] in Hc. subst o. reflexivity.
Qed.

End NormalizeProps.

Lemma NormalizeInput_errors_witness :
  NormalizeInput AssignPayload MaximumFinite blank_target complex_source =
  (blank_target, Thrown "Complex images are not supported.") /\
  snd (NormalizeInput AssignPayload MaximumFinite blank_target float_source) = Returned /\
  snd (NormalizeInput AssignPayload MaximumFinite blank_target integer_source) = Returned.
Proof.
  split; [|split].
  - apply (NormalizeInput_errors AssignPayload MaximumFinite blank_target complex_source).
    reflexivity.
  - apply (NormalizeInput_errors AssignPayload MaximumFinite blank_target float_source).
    discriminate.
  - apply (NormalizeInput_errors AssignPayload MaximumFinite blank_target integer_source).
    discriminate.
Defined.

End InputProps.

(** * Further properties of the transfer, the solver and the colours *)

Module TransferExtra.

Import Transfer TransferProps.
Local Open Scope R_scope.

(** On the non-negative reals the graph of [arcsinh] lies above its
    chords. *)
Lemma arcsinh_chord (a h x : R) :
  0 <= a -> 0 <= h -> 0 <= x <= 1 ->
  x * (arcsinh (a + h) - arcsinh a) <= arcsinh (a + x * h) - arcsinh a.
Proof.
  intros Ha Hh [Hx0 Hx1].
  destruct (Req_dec h 0) as [->|Hh0];
    [replace (a + x * 0) with a by ring; replace (a + 0) with a by ring; lra|].
  destruct (Req_dec x 0) as [->|Hx0'];
    [replace (a + 0 * h) with a by ring; lra|].
  destruct (Req_dec x 1) as [->|Hx1'];
    [replace (a + 1 * h) with (a + h) by ring; lra|].
  assert (Hlt1 : a < a + x * h) by nra.
  assert (Hlt2 : a + x * h < a + h) by nra.
  destruct (MVT_cor2 arcsinh (fun c => / sqrt (c ^ 2 + 1)) a (a + x * h) Hlt1)
    as [c1 [Hc1 Hr1]]; [intros c _; apply derivable_pt_lim_arcsinh|].
  destruct (MVT_cor2 arcsinh (fun c => / sqrt (c ^ 2 + 1)) (a + x * h) (a + h) Hlt2)
    as [c2 [Hc2 Hr2]]; [intros c _; apply derivable_pt_lim_arcsinh|].
  assert (H1 : 0 < sqrt (c1 ^ 2 + 1)) by (apply sqrt_lt_R0; nra).
  assert (H2 : 0 < sqrt (c2 ^ 2 + 1)) by (apply sqrt_lt_R0; nra).
  assert (Hs : sqrt (c1 ^ 2 + 1) <= sqrt (c2 ^ 2 + 1)) by (apply sqrt_le_1_alt; nra).
  assert (Hi : / sqrt (c2 ^ 2 + 1) <= / sqrt (c1 ^ 2 + 1))
    by (apply Rinv_le_contravar; assumption).
  assert (Hi2 : 0 < / sqrt (c2 ^ 2 + 1)) by (apply Rinv_0_lt_compat; exact H2).
  set (i1 := / sqrt (c1 ^ 2 + 1)) in *. set (i2 := / sqrt (c2 ^ 2 + 1)) in *.
  replace (a + x * h - a) with (x * h) in Hc1 by ring.
  replace (a + h - (a + x * h)) with ((1 - x) * h) in Hc2 by ring.
  replace (arcsinh (a + h) - arcsinh a)
    with ((arcsinh (a + h) - arcsinh (a + x * h)) + (arcsinh (a + x * h) - arcsinh a))
    by ring.
  rewrite Hc1, Hc2.
  assert (Hp : 0 <= x * (1 - x) * h) by (apply Rmult_le_pos; nra).
  nra.
Qed.

(** The solver's simulated stretch never darkens a median in [[0,1]]. *)
Lemma simulate_lifts (medianIn bVal midLog : R) :
  0 <= medianIn <= 1 -> 0 <= bVal -> medianIn <= simulate medianIn bVal midLog.
Proof.
  intros Hm Hb. rewrite simulate_spec. unfold spec_transfer. fold (Pow10 midLog).
  pose proof (Pow10_pos midLog) as HD. set (d := Pow10 midLog) in *.
  assert (Hn : arcsinh bVal < arcsinh (d + bVal)) by (apply arcsinh_lt; lra).
  pose proof (arcsinh_chord bVal d medianIn Hb ltac:(lra) Hm) as Hc.
  replace (bVal + d) with (d + bVal) in Hc by ring.
  replace (bVal + medianIn * d) with (d * medianIn + bVal) in Hc by ring.
  set (den := arcsinh (d + bVal) - arcsinh bVal) in *.
  assert (Hden : 0 < den) by (unfold den; lra).
  apply Rmult_le_reg_r with den; [exact Hden|].
  unfold Rdiv. rewrite Rmult_assoc, Rinv_l by lra. lra.
Qed.



(** ** SolveLogD *)

Lemma bisect_range (iter : nat) (medianIn targetMedian bVal : R) :
  forall lowLog highLog bestLogD,
    lowLog < highLog ->
    let r := bisect iter medianIn targetMedian bVal lowLog highLog bestLogD in
    r = bestLogD \/ lowLog < r < highLog.
Proof.
  induction iter as [|iter IH]; intros lowLog highLog bestLogD Hlt; cbv zeta.
  - left. reflexivity.
  - cbn [bisect].
    destruct (Rlt_dec (Rabs _) 0.0001); [right; lra|].
    destruct (Rlt_dec (simulate _ _ _) targetMedian).
    + destruct (IH ((lowLog + highLog) / 2) highLog bestLogD ltac:(lra)) as [E|E];
        [left; exact E | right; lra].
    + destruct (IH lowLog ((lowLog + highLog) / 2) bestLogD ltac:(lra)) as [E|E];
        [left; exact E | right; lra].
Qed.

Section SolverExtra.

Variable Median : Image -> R.

(** X2: whatever the image, the target and [b], [SolveLogD] returns a
    value strictly between 0 and 7, the bounds of its search. *)
Theorem SolveLogD_range (luma : Image) (targetMedian bVal : R) :
  0 < SolveLogD Median luma targetMedian bVal < 7.
Proof.
  unfold SolveLogD. destruct (Rlt_dec _ 1e-9); [lra|].
  destruct (bisect_range 40 (Median luma) targetMedian bVal 0 7 2 ltac:(lra))
    as [E|E]; [rewrite E; lra | exact E].
Qed.

(** X3: for a median in [[1e-9, 1]] and [b >= 0], a target that lies
    1e-4 or more below the median is out of reach: [SolveLogD] finds no
    match and returns its initial value 2. *)
Theorem SolveLogD_target_below_median (luma : Image) (targetMedian bVal : R) :
  1e-9 <= Median luma <= 1 -> 0 <= bVal ->
  targetMedian + 0.0001 <= Median luma ->
  SolveLogD Median luma targetMedian bVal = 2.
Proof.
  intros Hm Hb Ht. rewrite SolveLogD_loop by lra.
  apply (bisect_no_match 40). apply Forall_forall. intros midLog _.
  unfold matches.
  pose proof (simulate_lifts (Median luma) bVal midLog ltac:(lra) Hb) as Hs.
  rewrite Rabs_pos_eq by lra. lra.
Qed.

End SolverExtra.

Lemma SolveLogD_target_below_median_witness :
  SolveLogD FlatMedian half_luma 0.2 6 = 2.
Proof.
  apply (SolveLogD_target_below_median FlatMedian half_luma 0.2 6);
    rewrite ?FlatMedian_half_luma; lra.
Defined.

(** ** ReconstructColor *)

Lemma channel_map_samples {A} (f : A -> A) (img : GenericImage A) (c : nat) :
  channel (map_samples f img) c = map f (channel img c).
Proof.
  unfold channel, map_samples. cbn [channels].
  change (@nil A) with (map f (@nil A)) at 1. apply map_nth.
Qed.

Lemma map_samples_nth {A} (f : A -> A) (img : GenericImage A) (c i : nat) (d : A) :
  (i < List.length (channel img c))%nat ->
  nth i (channel (map_samples f img) c) d = f (nth i (channel img c) d).
Proof.
  intros Hi. rewrite channel_map_samples.
  rewrite (nth_indep _ d (f d)) by (rewrite length_map; exact Hi).
  apply map_nth.
Qed.

Lemma pedestal_range (v : R) : 0 <= pedestal v <= 1.
Proof.
  unfold pedestal, Truncate.
  destruct (Rlt_dec _ 0); [lra|]. destruct (Rlt_dec 1 _); lra.
Qed.

Section ColorExtra.

Variable Pow : R -> R -> R.

(** X4: for a three-channel image [ReconstructColor] returns three
    channels of [Width * Height] samples each, every one of them in
    [[0,1]], whatever the parameters and the luminance. *)
Theorem ReconstructColor_shape_and_range (rgb luma originalRGB : Image)
    (colorConvergence colorGrip shadowConvergence D b : R) :
  NumberOfChannels rgb = 3%Z ->
  let out := ReconstructColor Pow rgb luma originalRGB colorConvergence
               colorGrip shadowConvergence D b in
  NumberOfChannels out = 3%Z /\
  Width out = Width rgb /\ Height out = Height rgb /\
  Forall (fun ch => List.length ch = Z.to_nat (NumberOfPixels rgb) /\
                    Forall (fun v => 0 <= v <= 1) ch) (channels out).
Proof.
  intros Hc. cbv zeta. unfold ReconstructColor. rewrite Hc.
  cbn [Z.eqb Pos.eqb negb]. unfold map_samples. cbn [channels Width Height map].
  split; [reflexivity|]. split; [reflexivity|]. split; [reflexivity|].
  repeat constructor;
    try (rewrite !length_map, length_seq; reflexivity);
    apply Forall_forall; intros v Hin; apply in_map_iff in Hin;
    destruct Hin as (w & <- & _); apply pedestal_range.
Qed.

(** X5: at a pixel where [k = L^colorConvergence] is 1 (full convergence
    to white), with [colorGrip = 1] and [shadowConvergence = 0], the three
    output channels are equal: each is the stretched luminance behind the
    pedestal, whatever the original colour. *)
Theorem ReconstructColor_white_convergence (rgb luma originalRGB : Image)
    (colorConvergence D b : R) (c i : nat) :
  NumberOfChannels rgb = 3%Z -> (c < 3)%nat ->
  (i < Z.to_nat (NumberOfPixels rgb))%nat ->
  Pow (nth i (channel luma 0) 0) colorConvergence = 1 ->
  nth i (channel (ReconstructColor Pow rgb luma originalRGB colorConvergence
                    1 0 D b) c) 0 =
  pedestal (nth i (channel luma 0) 0).
Proof.
  intros Hc Hlt Hi Hk. rewrite ReconstructColor_sample by assumption.
  f_equal. unfold blended_at, needsHybrid.
  destruct (Rlt_dec 1 1); [lra|]. destruct (Rlt_dec 0.01 0); [lra|].
  cbn [orb]. unfold vector_at. rewrite Hk. ring.
Qed.

(** X6: with [colorGrip = 0] the vector path has no weight: each output
    channel is the scalar hyperbolic stretch of the original channel
    (same [D] and [b], shadow point 0) behind the pedestal, whatever the
    luminance, the convergence powers and [Pow]. *)
Theorem ReconstructColor_scalar_only (rgb luma originalRGB : Image)
    (colorConvergence shadowConvergence D b : R) (c i : nat) :
  NumberOfChannels rgb = 3%Z -> (c < 3)%nat ->
  (i < Z.to_nat (NumberOfPixels rgb))%nat ->
  (i < List.length (channel originalRGB c))%nat ->
  nth i (channel (ReconstructColor Pow rgb luma originalRGB colorConvergence
                    0 shadowConvergence D b) c) 0 =
  pedestal (transfer D b 0 (nth i (channel originalRGB c) 0)).
Proof.
  intros Hc Hlt Hi Hlen. rewrite ReconstructColor_sample by assumption.
  f_equal. unfold blended_at, needsHybrid.
  destruct (Rlt_dec 0 1); [|lra]. cbn [orb]. unfold hybrid_at.
  rewrite HyperbolicStretch_samples, map_samples_nth by exact Hlen.
  destruct (Rlt_dec 0.01 shadowConvergence); ring.
Qed.

End ColorExtra.

Lemma ReconstructColor_shape_and_range_witness :
  Forall (fun ch => List.length ch = 1%nat /\ Forall (fun v => 0 <= v <= 1) ch)
         (channels (ReconstructColor FloatPow dim_rgb dim_luma dim_original
                      10 1 0 100 6)).
Proof.
  apply (ReconstructColor_shape_and_range FloatPow dim_rgb dim_luma dim_original
           10 1 0 100 6).
  reflexivity.
Defined.

(** The real power of base 1 is 1. *)
Lemma FloatPow_one (y : R) : FloatPow 1 y = 1.
Proof.
  unfold FloatPow. destruct (Rle_dec 1 0); [lra|].
  rewrite Rpower_1_l || (unfold Rpower; rewrite ln_1, Rmult_0_r, exp_0).
  destruct (Rlt_dec 1 1e-46); [lra|reflexivity].
Qed.

Lemma ReconstructColor_white_convergence_witness :
  nth 0 (channel (ReconstructColor FloatPow dim_rgb bright_luma orange_original
                    3.5 1 0 100 6) 0) 0 =
  pedestal 1.
Proof.
  apply (ReconstructColor_white_convergence FloatPow dim_rgb bright_luma
           orange_original 3.5 100 6 0 0).
  - reflexivity.
  - lia.
  - cbn. lia.
  - exact (FloatPow_one 3.5).
Defined.

Lemma ReconstructColor_scalar_only_witness :
  nth 0 (channel (ReconstructColor FloatPow dim_rgb dim_luma orange_original
                    3.5 0 0 100 6) 0) 0 =
  pedestal (transfer 100 6 0 0.8).
Proof.
  apply (ReconstructColor_scalar_only FloatPow dim_rgb dim_luma orange_original
           3.5 0 100 6 0 0).
  - reflexivity.
  - lia.
  - cbn. lia.
  - cbn. lia.
Defined.

(** X24: for an original pixel with non-negative channels the division
    of the first loop of [ReconstructColor] is by a positive number, and
    each of the three ratios is a fraction: it lies in [[0,1]]. *)
Theorem ratio_at_unit (originalRGB : Image) (i : nat) :
  0 <= nth i (channel originalRGB 0) 0 ->
  0 <= nth i (channel originalRGB 1) 0 ->
  0 <= nth i (channel originalRGB 2) 0 ->
  0 < nth i (channel originalRGB 0) 0 + nth i (channel originalRGB 1) 0
      + nth i (channel originalRGB 2) 0 + epsilon /\
  forall c, (c < 3)%nat -> 0 <= ratio_at originalRGB c i <= 1.
Proof.
  intros Hr Hg Hb. unfold ratio_at, epsilon.
  set (r := nth i (channel originalRGB 0) 0) in *.
  set (g := nth i (channel originalRGB 1) 0) in *.
  set (b := nth i (channel originalRGB 2) 0) in *.
  assert (Hs : 0 < r + g + b + 1e-9) by lra.
  split; [exact Hs|].
  assert (Hi : 0 < / (r + g + b + 1e-9)) by (apply Rinv_0_lt_compat; exact Hs).
  assert (H1 : (r + g + b + 1e-9) * / (r + g + b + 1e-9) = 1)
    by (apply Rinv_r; lra).
  set (s := r + g + b + 1e-9) in *. set (k := / s) in *.
  intros c Hc. unfold Rdiv. fold k.
  destruct c as [|[|[|c]]]; [fold r|fold g|fold b|lia]; unfold s in H1; split; nra.
Qed.

Lemma ratio_at_unit_witness : 0 <= ratio_at orange_original 0 0 <= 1.
Proof.
  apply (ratio_at_unit orange_original 0); try (cbn; lra). lia.
Defined.

End TransferExtra.

(** * Properties of the soft clip *)

Module ClipProps.

Import Transfer TransferProps TransferExtra Clip.
Local Open Scope R_scope.

Lemma RealPow_unit (x y : R) : 0 <= x <= 1 -> 0 <= y -> 0 <= RealPow x y <= 1.
Proof.
  intros [Hx0 Hx1] Hy. unfold RealPow. destruct (Rle_dec x 0); [lra|].
  unfold Rpower. split; [left; apply exp_pos|].
  assert (Hln : ln x <= 0).
  { rewrite <- ln_1. destruct (Req_dec x 1) as [->|Hne]; [lra|].
    left. apply ln_increasing; lra. }
  destruct (Req_dec (y * ln x) 0) as [->|Hne]; [rewrite exp_0; lra|].
  rewrite <- exp_0. left. apply exp_increasing. nra.
Qed.

Section SoftClipProps.

Variable Pow : R -> R -> R.

Lemma soft_clip_sample_below (threshold rolloff v : R) :
  v <= threshold -> soft_clip_sample Pow threshold rolloff v = v.
Proof.
  intros H. unfold soft_clip_sample. destruct (Rlt_dec threshold v); [lra|reflexivity].
Qed.

Lemma soft_clip_sample_above (threshold rolloff v : R) :
  threshold <= 1 -> threshold < v ->
  (forall x, 0 <= x <= 1 -> 0 <= Pow x rolloff <= 1) ->
  threshold <= soft_clip_sample Pow threshold rolloff v <= 1.
Proof.
  intros Ht Hv HPow. unfold soft_clip_sample.
  destruct (Rlt_dec threshold v); [|lra].
  set (t := Rmax 0 (Rmin _ 1)).
  assert (Ht01 : 0 <= t <= 1).
  { unfold t. split; [apply Rmax_l|]. apply Rmax_lub; [lra|apply Rmin_r]. }
  pose proof (HPow (1 - t) ltac:(lra)) as Hp.
  set (p := Pow (1 - t) rolloff) in *. nra.
Qed.

(** X7: [ApplyReadyToUseSoftClip] with a threshold in [[0,1]] leaves
    every sample at or below the threshold as it is (up to the final
    truncation to [[0,1]]) and sends every sample above the threshold into
    [[threshold, 1]], provided the power of a base in [[0,1]] stays in
    [[0,1]]. *)
Theorem ApplyReadyToUseSoftClip_samples (target : Image) (threshold rolloff : R)
    (c i : nat) :
  0 <= threshold <= 1 ->
  (forall x, 0 <= x <= 1 -> 0 <= Pow x rolloff <= 1) ->
  (i < List.length (channel target c))%nat ->
  let v := nth i (channel target c) 0 in
  let v' := nth i (channel (ApplyReadyToUseSoftClip Pow target threshold rolloff) c) 0 in
  (v <= threshold -> v' = Truncate 0 1 v) /\
  (threshold < v -> threshold <= v' <= 1).
Proof.
  intros Ht HPow Hi. cbv zeta. unfold ApplyReadyToUseSoftClip.
  rewrite map_samples_nth by (rewrite channel_map_samples, length_map; exact Hi).
  rewrite map_samples_nth by exact Hi.
  split; intros Hv.
  - rewrite soft_clip_sample_below by exact Hv. reflexivity.
  - pose proof (soft_clip_sample_above threshold rolloff _ ltac:(lra) Hv HPow) as Hs.
    rewrite Truncate_inside by lra. exact Hs.
Qed.

End SoftClipProps.

Lemma ApplyReadyToUseSoftClip_samples_witness :
  0.98 <= nth 0 (channel (ApplyReadyToUseSoftClip RealPow bright_luma 0.98 2) 0) 0 <= 1.
Proof.
  apply (ApplyReadyToUseSoftClip_samples RealPow bright_luma 0.98 2 0 0).
  - lra.
  - intros x Hx. apply RealPow_unit; lra.
  - cbn. lia.
  - cbn. lra.
Defined.

End ClipProps.

(** * Properties of the luminance, midtone transfer and output scaling *)

Module FinishingProps.

Import Stats StatsProps Finishing.
Local Open Scope Q_scope.

Lemma QTruncate_range (lo hi v : Q) : lo <= hi -> lo <= Truncate lo hi v <= hi.
Proof.
  intros H. unfold Truncate.
  destruct (Qlt_le_dec v lo); [split; [apply Qle_refl|exact H]|].
  destruct (Qlt_le_dec hi v); [split; [exact H|apply Qle_refl]|].
  split; assumption.
Qed.

Lemma QTruncate_inside (lo hi v : Q) : lo <= v <= hi -> Truncate lo hi v == v.
Proof.
  intros [H1 H2]. unfold Truncate.
  destruct (Qlt_le_dec v lo); [lra|]. destruct (Qlt_le_dec hi v); lra.
Qed.

Lemma QTruncate_mono (lo hi x y : Q) :
  lo <= hi -> x <= y -> Truncate lo hi x <= Truncate lo hi y.
Proof.
  intros Hlh Hxy. unfold Truncate.
  destruct (Qlt_le_dec x lo), (Qlt_le_dec y lo); try lra;
    destruct (Qlt_le_dec hi x), (Qlt_le_dec hi y); lra.
Qed.


Lemma nth_upper (l : list Q) (i : nat) (b : Q) :
  0 <= b -> Forall (fun v => v <= b) l -> nth i l 0 <= b.
Proof.
  intros Hb Hall. destruct (le_lt_dec (List.length l) i) as [Hi|Hi].
  - rewrite nth_overflow by exact Hi. exact Hb.
  - rewrite Forall_forall in Hall. apply Hall. apply nth_In. exact Hi.
Qed.


(** ** ExtractLuminance *)




(** ** ApplyMTF *)

Lemma mtf_sample_regular (m v : Q) :
  ~ (2 * m - 1) * v - m == 0 ->
  mtf_sample m v == (m - 1) * v / ((2 * m - 1) * v - m).
Proof.
  intros H. unfold mtf_sample. destruct (Qeq_dec _ 0); [contradiction|reflexivity].
Qed.

Lemma mtf_denominator (m v : Q) :
  0 < m < 1 -> 0 <= v <= 1 -> (2 * m - 1) * v - m < 0.
Proof. intros Hm Hv. nra. Qed.

(** X9: the midtone transfer of [ApplyMTF] keeps 0 at 0 for every [m]
    and 1 at 1 for every [m] other than 1; with [m = 0.5] it is the
    identity; and with [0 < m < 1] it maps [m] itself to one half. *)
Theorem mtf_sample_fixed_points :
  (forall m, mtf_sample m 0 == 0) /\
  (forall m, ~ m == 1 -> mtf_sample m 1 == 1) /\
  (forall v, mtf_sample 0.5 v == v) /\
  (forall m, 0 < m < 1 -> mtf_sample m m == 0.5).
Proof.
  split; [|split; [|split]].
  - intros m. unfold mtf_sample. destruct (Qeq_dec _ 0); [reflexivity|].
    field. intros E. apply n. lra.
  - intros m Hm. rewrite mtf_sample_regular.
    + field. intros E. apply Hm. lra.
    + intros E. apply Hm. lra.
  - intros v. rewrite mtf_sample_regular.
    + field.
    + intros E. lra.
  - intros m Hm. pose proof (mtf_denominator m m Hm ltac:(lra)) as Hd.
    rewrite mtf_sample_regular by lra. field. lra.
Qed.

Lemma mtf_sample_fixed_points_witness :
  mtf_sample 0.25 1 == 1 /\ mtf_sample 0.25 0.25 == 0.5.
Proof.
  destruct mtf_sample_fixed_points as (_ & H1 & _ & Hm).
  split; [apply H1; discriminate | apply Hm; split; reflexivity].
Defined.

(** X10: for [0 < m < 1] the midtone transfer maps [[0,1]] into [[0,1]]
    and preserves the order of the samples. *)
Theorem mtf_sample_monotone (m x y : Q) :
  0 < m < 1 -> 0 <= x -> x <= y -> y <= 1 ->
  0 <= mtf_sample m x /\ mtf_sample m x <= mtf_sample m y /\ mtf_sample m y <= 1.
Proof.
  intros Hm Hx Hxy Hy.
  pose proof (mtf_denominator m x Hm ltac:(lra)) as Hdx.
  pose proof (mtf_denominator m y Hm ltac:(lra)) as Hdy.
  rewrite !mtf_sample_regular by lra.
  set (dx := (2 * m - 1) * x - m) in *. set (dy := (2 * m - 1) * y - m) in *.
  assert (Ex : (m - 1) * x / dx == (1 - m) * x / (- dx)) by (field; lra).
  assert (Ey : (m - 1) * y / dy == (1 - m) * y / (- dy)) by (field; lra).
  rewrite Ex, Ey.
  split; [|split].
  - apply Qle_shift_div_l; [lra|]. nra.
  - apply Qle_shift_div_l; [lra|].
    assert (E : (1 - m) * x / - dx * - dy == ((1 - m) * x * (- dy)) / (- dx))
      by (field; lra).
    assert (Hp : 0 <= (1 - m) * m * (y - x))
      by (repeat apply Qmult_le_0_compat; lra).
    rewrite E. apply Qle_shift_div_r; [lra|]. unfold dx, dy. nra.
  - apply Qle_shift_div_r; [lra|]. unfold dy. nra.
Qed.

Lemma mtf_sample_monotone_witness :
  0 <= mtf_sample 0.25 0.1 /\ mtf_sample 0.25 0.1 <= mtf_sample 0.25 0.6 /\
  mtf_sample 0.25 0.6 <= 1.
Proof.
  apply (mtf_sample_monotone 0.25 0.1 0.6); try discriminate.
  split; reflexivity.
Defined.

Lemma midtone_parameter_solves (currentBg targetBg : Q) :
  0 < currentBg < 1 -> 0 <= targetBg <= 1 ->
  0 <= midtone_parameter currentBg targetBg <= 1 /\
  mtf_sample (midtone_parameter currentBg targetBg) currentBg == targetBg.
Proof.
  intros Hc Ht. unfold midtone_parameter.
  set (d := currentBg * (2 * targetBg - 1) - targetBg).
  assert (Hd : d < 0) by (unfold d; nra).
  assert (Em : currentBg * (targetBg - 1) / d ==
               currentBg * (1 - targetBg) / (- d)) by (field; lra).
  split.
  - rewrite Em. split.
    + apply Qle_shift_div_l; [lra|]. nra.
    + apply Qle_shift_div_r; [lra|]. unfold d. nra.
  - set (m := currentBg * (targetBg - 1) / d).
    assert (Hden : (2 * m - 1) * currentBg - m == currentBg * (1 - currentBg) / d)
      by (unfold m, d in *; field; lra).
    assert (Hnz : ~ (2 * m - 1) * currentBg - m == 0).
    { rewrite Hden. intros E.
      assert (E' : currentBg * (1 - currentBg) == 0).
      { setoid_replace (currentBg * (1 - currentBg))
          with (currentBg * (1 - currentBg) / d * d) by (field; lra).
        rewrite E. ring. }
      nra. }
    rewrite mtf_sample_regular by exact Hnz.
    apply Qmult_inj_r with ((2 * m - 1) * currentBg - m); [exact Hnz|].
    setoid_replace ((m - 1) * currentBg / ((2 * m - 1) * currentBg - m)
                    * ((2 * m - 1) * currentBg - m))
      with ((m - 1) * currentBg) by (field; exact Hnz).
    rewrite Hden. unfold m, d in *. field. lra.
Qed.

(** X11: the midtone parameter that [AdaptiveOutputScaling] solves for
    a measured background strictly between 0 and 1 and a target in
    [[0,1]] lies in [[0,1]], and the midtone transfer with that parameter
    maps the measured background onto the target. *)
Theorem midtone_parameter_round_trip (currentBg targetBg : Q) :
  0 < currentBg < 1 -> 0 <= targetBg <= 1 ->
  0 <= midtone_parameter currentBg targetBg <= 1 /\
  mtf_sample (midtone_parameter currentBg targetBg) currentBg == targetBg.
Proof. apply midtone_parameter_solves. Qed.

Lemma midtone_parameter_round_trip_witness :
  mtf_sample (midtone_parameter 0.05 0.2) 0.05 == 0.2.
Proof.
  apply (midtone_parameter_round_trip 0.05 0.2); split; reflexivity || discriminate.
Defined.

(** ** AdaptiveOutputScaling *)

Lemma scale_sample_range (globalFloor finalScale v : Q) :
  0 <= scale_sample globalFloor finalScale v <= 1.
Proof.
  unfold scale_sample. split; [apply Q.le_max_l|].
  apply Q.max_lub; [discriminate|apply Q.le_min_r].
Qed.

Lemma scale_sample_mono (globalFloor finalScale x y : Q) :
  0 <= finalScale -> x <= y ->
  scale_sample globalFloor finalScale x <= scale_sample globalFloor finalScale y.
Proof.
  intros Hs Hxy. unfold scale_sample.
  apply Q.max_le_compat_l. apply Q.min_le_compat_r.
  assert (0 <= (y - x) * finalScale) by (apply Qmult_le_0_compat; lra).
  lra.
Qed.

Section ScalingProps.

Variables Median StdDev Minimum Maximum : Image -> Q.
Variable LocateMaximumSampleValue : Image -> Z * Z.

Lemma softCeil_above_floor (target luma : Image) :
  Finishing.globalFloor Median StdDev Minimum luma + 0.000001 <= Finishing.softCeil Median StdDev Minimum target luma.
Proof. unfold Finishing.softCeil. apply Q.le_max_l. Qed.

Lemma physical_max_above_ceil (target luma : Image) :
  Finishing.softCeil Median StdDev Minimum target luma < Finishing.physical_max Median StdDev Minimum Maximum target luma.
Proof.
  unfold Finishing.physical_max.
  destruct (Qle_bool _ _) eqn:E; [lra|].
  apply Qnot_le_lt. intros H. apply Qle_bool_iff in H. congruence.
Qed.

Lemma scaleContrast_range (target luma : Image) :
  0 < Finishing.scaleContrast Median StdDev Minimum target luma <= 979000.
Proof.
  pose proof (softCeil_above_floor target luma) as H.
  unfold Finishing.scaleContrast, PEDESTAL. split.
  - apply Qlt_shift_div_l; lra.
  - apply Qle_shift_div_r; lra.
Qed.

Lemma scalePhysicalLimit_pos (target luma : Image) :
  0 < Finishing.scalePhysicalLimit Median StdDev Minimum Maximum target luma.
Proof.
  pose proof (softCeil_above_floor target luma) as H.
  pose proof (physical_max_above_ceil target luma) as H'.
  unfold Finishing.scalePhysicalLimit, PEDESTAL.
  apply Qlt_shift_div_l; lra.
Qed.

(** X12: whatever the statistics of the luminance are, the scale factor
    that [AdaptiveOutputScaling] applies is strictly positive and at most
    979000: both divisions are by a positive number, and the scaling loop
    preserves the order of the samples. *)
Theorem finalScale_positive (target luma : Image) :
  0 < Finishing.finalScale Median StdDev Minimum Maximum LocateMaximumSampleValue target luma <= 979000 /\
  forall x y, x <= y ->
    scale_sample (Finishing.globalFloor Median StdDev Minimum luma) (Finishing.finalScale Median StdDev Minimum Maximum LocateMaximumSampleValue target luma) x <=
    scale_sample (Finishing.globalFloor Median StdDev Minimum luma) (Finishing.finalScale Median StdDev Minimum Maximum LocateMaximumSampleValue target luma) y.
Proof.
  assert (H : 0 < Finishing.finalScale Median StdDev Minimum Maximum LocateMaximumSampleValue target luma <= 979000).
  { pose proof (scaleContrast_range target luma) as [Hc Hc'].
    pose proof (scalePhysicalLimit_pos target luma) as Hp.
    unfold Finishing.finalScale. destruct (validPhysicalMax _ _ _);
      [|split; assumption].
    split.
    - apply Q.min_glb_lt; assumption.
    - eapply Qle_trans; [apply Q.le_min_l|exact Hc']. }
  split; [exact H|]. intros x y Hxy. apply scale_sample_mono; [lra|exact Hxy].
Qed.

Lemma scaled_image_channel (target : Image) (profile : SensorProfile) (c : nat) :
  Forall (fun v => 0 <= v <= 1)
         (channel (Finishing.scaled_image Median StdDev Minimum Maximum
                     LocateMaximumSampleValue target profile) c).
Proof.
  unfold Finishing.scaled_image. cbv zeta.
  rewrite TransferExtra.channel_map_samples.
  apply Forall_forall. intros v Hin. apply in_map_iff in Hin.
  destruct Hin as (w & <- & _). apply scale_sample_range.
Qed.

Lemma mtf_sample_compat (m v w : Q) : v == w -> mtf_sample m v == mtf_sample m w.
Proof.
  intros E. unfold mtf_sample.
  destruct (Qeq_dec ((2 * m - 1) * v - m) 0) as [Hv|Hv],
           (Qeq_dec ((2 * m - 1) * w - m) 0) as [Hw|Hw].
  - reflexivity.
  - exfalso. apply Hw. rewrite <- E. exact Hv.
  - exfalso. apply Hv. rewrite E. exact Hw.
  - rewrite E. reflexivity.
Qed.

Lemma needs_mtf_false (currentBg targetBg : Q) :
  0 < currentBg < 1 -> needs_mtf currentBg targetBg = false ->
  Qabs (currentBg - targetBg) <= 0.001.
Proof.
  intros [H0 H1]. unfold needs_mtf.
  destruct (Qlt_le_dec 0 currentBg); [|lra].
  destruct (Qlt_le_dec currentBg 1); [|lra].
  destruct (Qlt_le_dec 0.001 _); [discriminate|]. intros _. assumption.
Qed.

(** X13: every sample that [AdaptiveOutputScaling] returns is in
    [[0,1]].  When the background measured after the scaling is strictly
    between 0 and 1 and the target is in [[0,1]], every sample that sat at
    the measured background ends within 1e-3 of the target background. *)
Theorem AdaptiveOutputScaling_background (target : Image) (profile : SensorProfile)
    (targetBg : Q) :
  let scaled :=
    Finishing.scaled_image Median StdDev Minimum Maximum LocateMaximumSampleValue
      target profile in
  let currentBg := Median (scaling_luma scaled profile) in
  let out :=
    Finishing.AdaptiveOutputScaling Median StdDev Minimum Maximum
      LocateMaximumSampleValue target profile targetBg in
  (forall c, Forall (fun v => 0 <= v <= 1) (channel out c)) /\
  (0 <= targetBg <= 1 -> 0 < currentBg < 1 ->
   forall c i,
     (i < List.length (channel scaled c))%nat ->
     nth i (channel scaled c) 0 == currentBg ->
     Qabs (nth i (channel out c) 0 - targetBg) <= 0.001).
Proof.
  cbv zeta. unfold Finishing.AdaptiveOutputScaling. cbv zeta.
  set (scaled := Finishing.scaled_image _ _ _ _ _ target profile).
  set (currentBg := Median (scaling_luma scaled profile)).
  destruct (needs_mtf currentBg targetBg) eqn:En.
  - split.
    + intros c. unfold ApplyMTF. rewrite TransferExtra.channel_map_samples.
      apply Forall_forall. intros v Hin. apply in_map_iff in Hin.
      destruct Hin as (w & <- & _). apply QTruncate_range. discriminate.
    + intros Ht Hc c i Hi Hv. unfold ApplyMTF.
      rewrite TransferExtra.map_samples_nth
        by (rewrite TransferExtra.channel_map_samples, length_map; exact Hi).
      rewrite TransferExtra.map_samples_nth by exact Hi.
      destruct (midtone_parameter_solves currentBg targetBg Hc Ht) as [_ Hrt].
      assert (E : mtf_sample (midtone_parameter currentBg targetBg)
                    (nth i (channel scaled c) 0) == targetBg)
        by (rewrite (mtf_sample_compat _ _ _ Hv); exact Hrt).
      rewrite QTruncate_inside by (rewrite E; exact Ht).
      rewrite E. setoid_replace (targetBg - targetBg) with 0 by ring. discriminate.
  - split.
    + intros c. apply scaled_image_channel.
    + intros Ht Hc c i Hi Hv. rewrite Hv. apply needs_mtf_false; assumption.
Qed.

End ScalingProps.

Lemma finalScale_positive_witness :
  scale_sample (Finishing.globalFloor FirstSample NoDeviation FirstSample flat_grey)
    (Finishing.finalScale FirstSample NoDeviation FirstSample FirstSample
       LocateFirstMaximum flat_grey flat_grey) 0.2 <=
  scale_sample (Finishing.globalFloor FirstSample NoDeviation FirstSample flat_grey)
    (Finishing.finalScale FirstSample NoDeviation FirstSample FirstSample
       LocateFirstMaximum flat_grey flat_grey) 0.7.
Proof.
  apply (finalScale_positive FirstSample NoDeviation FirstSample FirstSample
           LocateFirstMaximum flat_grey flat_grey).
  discriminate.
Defined.

Lemma AdaptiveOutputScaling_background_witness :
  Qabs (nth 0 (channel (AdaptiveOutputScaling FirstSample NoDeviation FirstSample
                          FirstSample LocateFirstMaximum flat_grey
                          (mkProfile 0.2126 0.7152 0.0722) 0.2) 0) 0 - 0.2)
  <= 0.001.
Proof.
  apply (AdaptiveOutputScaling_background FirstSample NoDeviation FirstSample
           FirstSample LocateFirstMaximum flat_grey (mkProfile 0.2126 0.7152 0.0722) 0.2).
  - split; discriminate.
  - vm_compute. split; reflexivity.
  - vm_compute. lia.
  - vm_compute. reflexivity.
Defined.

(** ** EstimateStarPressure *)

Lemma insert_length (x : Q) (l : list Q) : List.length (insert x l) = S (List.length l).
Proof.
  induction l as [|y l IH]; cbn [insert]; [reflexivity|].
  destruct (Qle_bool x y); cbn [List.length]; [reflexivity|]. rewrite IH. reflexivity.
Qed.

Lemma sort_length (l : list Q) : List.length (sort l) = List.length l.
Proof.
  induction l as [|x l IH]; cbn [sort]; [reflexivity|].
  rewrite insert_length, IH. reflexivity.
Qed.

Lemma rank_index_bounds (n : nat) :
  (1 <= n)%nat -> (idx999 n <= idx9999 n < n)%nat.
Proof.
  intros Hn. unfold idx999, idx9999.
  assert (Hq : 0 < inject_Z (Z.of_nat n)).
  { change 0 with (inject_Z 0). rewrite <- Zlt_Qlt. lia. }
  set (q := inject_Z (Z.of_nat n)) in *.
  assert (H0 : (0 <= Qfloor (q * 0.999))%Z).
  { change 0%Z with (Qfloor 0). apply Qfloor_resp_le. lra. }
  assert (H1 : (Qfloor (q * 0.999) <= Qfloor (q * 0.9999))%Z)
    by (apply Qfloor_resp_le; lra).
  assert (H2 : (Qfloor (q * 0.9999) < Z.of_nat n)%Z).
  { rewrite Zlt_Qlt. fold q.
    eapply Qle_lt_trans; [apply Qfloor_le|]. lra. }
  lia.
Qed.

Lemma EstimateStarPressure_few (luma : Image) :
  (List.length (pressure_sample luma) < 100)%nat -> EstimateStarPressure luma = 0.
Proof.
  intros H. unfold EstimateStarPressure. destruct (IsEmpty luma); [reflexivity|].
  cbv zeta. apply Nat.ltb_lt in H. rewrite H. reflexivity.
Qed.

(** X14: [EstimateStarPressure] returns a value in [[0,1]], and 0 when
    fewer than 100 of the subsampled luminance values exceed 1e-7; the
    two ranks it reads, [size*0.999] and [size*0.9999] rounded down, are
    in order and below the size of the sorted sample, so both reads are
    inside it. *)
Theorem EstimateStarPressure_bounds (luma : Image) :
  0 <= EstimateStarPressure luma <= 1 /\
  ((List.length (pressure_sample luma) < 100)%nat -> EstimateStarPressure luma = 0) /\
  ((100 <= List.length (pressure_sample luma))%nat ->
   let size := List.length (sort (pressure_sample luma)) in
   (idx999 size <= idx9999 size < size)%nat).
Proof.
  split; [|split].
  - unfold EstimateStarPressure. destruct (IsEmpty luma); [split; discriminate|].
    cbv zeta. destruct (_ <? 100)%nat; [split; discriminate|].
    split; [apply Q.le_max_l|]. apply Q.max_lub; [discriminate|apply Q.le_min_r].
  - apply EstimateStarPressure_few.
  - intros H. cbv zeta. apply rank_index_bounds. rewrite sort_length. lia.
Qed.

Lemma EstimateStarPressure_bounds_witness :
  EstimateStarPressure flat_grey = 0 /\
  (idx999 400 <= idx9999 400 < 400)%nat.
Proof.
  split.
  - apply (EstimateStarPressure_bounds flat_grey). vm_compute. lia.
  - pose proof (proj2 (proj2 (EstimateStarPressure_bounds flat_field))) as H.
    cbv zeta in H. rewrite sort_length in H.
    assert (E : List.length (pressure_sample flat_field) = 400%nat)
      by (vm_compute; reflexivity).
    rewrite E in H. apply H. lia.
Defined.

Lemma pressure_sample_flat (luma : Image) (c : Q) :
  Forall (fun v => v == c) (channel luma 0) ->
  Forall (fun v => v == c /\ 0.0000001 < v) (pressure_sample luma).
Proof.
  intros H. unfold pressure_sample. cbv zeta.
  apply Forall_forall. intros v Hin. apply filter_In in Hin.
  destruct Hin as [Hin Hf]. destruct (Qlt_le_dec 0.0000001 v) as [Hv|]; [|discriminate].
  split; [|exact Hv].
  unfold subsample in Hin. apply in_map_iff in Hin. destruct Hin as (k & <- & _).
  destruct (le_lt_dec (List.length (channel luma 0)) (k * Z.to_nat (Z.max 1 (NumberOfPixels luma / 300000))))
    as [Hk|Hk].
  - rewrite nth_overflow in Hv by exact Hk. discriminate Hv.
  - rewrite Forall_forall in H. apply H. apply nth_In. exact Hk.
Qed.

Lemma count_none (p : Q) (l : list Q) (k : nat) :
  Forall (fun v => v <= p) l ->
  fold_left (fun n v => if Qlt_le_dec p v then S n else n) l k = k.
Proof.
  intros H. revert k. induction H as [|v l Hv H IH]; intros k; [reflexivity|].
  cbn [fold_left]. destruct (Qlt_le_dec p v); [lra|apply IH].
Qed.

(** X15: a flat luminance has no star pressure: when all samples of the
    luminance channel are equal, whatever their value and number,
    [EstimateStarPressure] returns 0. *)
Theorem EstimateStarPressure_flat (luma : Image) (c : Q) :
  Forall (fun v => v == c) (channel luma 0) -> EstimateStarPressure luma == 0.
Proof.
  intros H. pose proof (pressure_sample_flat luma c H) as Hs.
  unfold EstimateStarPressure. destruct (IsEmpty luma); [reflexivity|].
  cbv zeta. destruct (Nat.ltb_spec (List.length (pressure_sample luma)) 100) as [|Hn];
    [reflexivity|].
  apply (sort_Forall _ _) in Hs.
  set (sorted := sort (pressure_sample luma)) in *.
  assert (Hlen : (100 <= List.length sorted)%nat) by (unfold sorted; rewrite sort_length; exact Hn).
  destruct (rank_index_bounds (List.length sorted) ltac:(lia)) as [_ Hi2].
  assert (Hi1 : (idx999 (List.length sorted) < List.length sorted)%nat)
    by (pose proof (rank_index_bounds (List.length sorted) ltac:(lia)); lia).
  rewrite Forall_forall in Hs.
  destruct (Hs _ (nth_In sorted 0 Hi1)) as [E1 P1].
  destruct (Hs _ (nth_In sorted 0 Hi2)) as [E2 _].
  set (p999 := nth (idx999 (List.length sorted)) sorted 0) in *.
  set (p9999 := nth (idx9999 (List.length sorted)) sorted 0) in *.
  rewrite count_none
    by (apply Forall_forall; intros v Hv; destruct (Hs v Hv) as [Ev _]; rewrite Ev, E1;
        apply Qle_refl).
  assert (HpT : Qmax 0 (Qmin ((p9999 / (p999 + 0.000000001) - 1) / 4) 1) <= 0).
  { apply Q.max_lub; [apply Qle_refl|].
    eapply Qle_trans; [apply Q.le_min_l|].
    assert (Hq : p9999 / (p999 + 0.000000001) <= 1)
      by (apply Qle_shift_div_r; lra).
    apply Qle_shift_div_r; [reflexivity|]. lra. }
  assert (HfT : Qmax 0 (Qmin (inject_Z (Z.of_nat 0)
                                / inject_Z (Z.of_nat (List.length sorted)) * 200) 1) <= 0).
  { apply Q.max_lub; [apply Qle_refl|].
    eapply Qle_trans; [apply Q.le_min_l|].
    change (inject_Z (Z.of_nat 0)) with 0. unfold Qdiv. rewrite !Qmult_0_l.
    apply Qle_refl. }
  apply Qle_antisym; [|apply Q.le_max_l].
  apply Q.max_lub; [apply Qle_refl|].
  eapply Qle_trans; [apply Q.le_min_l|]. lra.
Qed.

Lemma EstimateStarPressure_flat_witness : EstimateStarPressure flat_field == 0.
Proof.
  apply (EstimateStarPressure_flat flat_field 0.25).
  apply Forall_forall. intros v Hin. apply repeat_spec in Hin. rewrite Hin. reflexivity.
Defined.

End FinishingProps.

(** * Further properties of the statistics kernel and the range normaliser *)

Module StatsExtra.

Import Stats StatsProps Finishing FinishingProps.
Local Open Scope Q_scope.

(** ** Percentiles stay inside the data *)

Lemma PercentileFromSorted_between (sorted : list Q) (pct : Q) :
  Sorted Qle sorted -> sorted <> [] ->
  nth 0 sorted 0 <= PercentileFromSorted sorted pct <= last sorted 0.
Proof.
  intros Hs Hne.
  destruct (le_lt_dec 2 (List.length sorted)) as [Hn|Hn].
  - pose proof (PercentileFromSorted_bracket sorted pct Hs Hn) as [Hlo Hhi].
    cbv zeta in Hlo, Hhi.
    pose proof (rank_range (List.length sorted) _ ltac:(lia) (clamp_range pct)) as Hr.
    pose proof (floor_range _ _ Hr) as Hi.
    split.
    + eapply Qle_trans; [|exact Hlo]. apply sorted_nth; [exact Hs|lia].
    + eapply Qle_trans; [exact Hhi|]. rewrite <- nth_pred_length.
      apply sorted_nth; [exact Hs|lia].
  - destruct sorted as [|x [|y l]]; [congruence| |cbn in Hn; lia].
    cbn. split; apply Qle_refl.
Qed.

Lemma last_In {A} (l : list A) (d : A) : l <> [] -> In (last l d) l.
Proof.
  intros Hne. rewrite <- nth_pred_length. apply nth_In.
  destruct l; [congruence|cbn; lia].
Qed.

Lemma sort_nonempty (l : list Q) : l <> [] -> sort l <> [].
Proof.
  intros Hne E. apply (f_equal (@List.length Q)) in E.
  rewrite sort_length in E. destruct l; [congruence|discriminate].
Qed.

Lemma PercentileInPlace_sorted_value (sample : list Q) (pct : Q) :
  sample <> [] ->
  fst (PercentileInPlace sample pct) = PercentileFromSorted (sort sample) pct.
Proof.
  intros Hne. unfold PercentileInPlace.
  destruct (Nat.eqb_spec (List.length sample) 0) as [E|_];
    [destruct sample; [congruence|discriminate]|].
  reflexivity.
Qed.

Lemma PercentileInPlace_le (sample : list Q) (pct b : Q) :
  sample <> [] -> Forall (fun v => v <= b) sample ->
  fst (PercentileInPlace sample pct) <= b.
Proof.
  intros Hne Hall. rewrite PercentileInPlace_sorted_value by exact Hne.
  pose proof (sort_Forall _ _ Hall) as Hs. rewrite Forall_forall in Hs.
  pose proof (sort_nonempty sample Hne) as Hne'.
  pose proof (PercentileFromSorted_between (sort sample) pct (sort_Sorted sample) Hne')
    as [_ Hhi].
  eapply Qle_trans; [exact Hhi|]. apply Hs. apply last_In. exact Hne'.
Qed.

Lemma PercentileInPlace_ge (sample : list Q) (pct a : Q) :
  sample <> [] -> Forall (fun v => a <= v) sample ->
  a <= fst (PercentileInPlace sample pct).
Proof.
  intros Hne Hall. rewrite PercentileInPlace_sorted_value by exact Hne.
  pose proof (sort_Forall _ _ Hall) as Hs. rewrite Forall_forall in Hs.
  pose proof (sort_nonempty sample Hne) as Hne'.
  pose proof (PercentileFromSorted_between (sort sample) pct (sort_Sorted sample) Hne')
    as [Hlo _].
  eapply Qle_trans; [|exact Hlo]. apply Hs. apply nth_In.
  destruct (sort sample); [congruence|cbn; lia].
Qed.

(** X16: [PercentileInPlace] on a vector that is not empty returns a
    value between the smallest and the largest sample: if every sample is
    in [[a,b]], so is every percentile; and it leaves the vector sorted,
    with the same number of samples. *)
Theorem PercentileInPlace_bounds (sample : list Q) (pct a b : Q) :
  sample <> [] -> Forall (fun v => a <= v <= b) sample ->
  a <= fst (PercentileInPlace sample pct) <= b /\
  Sorted Qle (snd (PercentileInPlace sample pct)) /\
  List.length (snd (PercentileInPlace sample pct)) = List.length sample.
Proof.
  intros Hne Hall. split; [split|].
  - apply PercentileInPlace_ge; [exact Hne|].
    eapply Forall_impl; [|exact Hall]. intros v [H _]. exact H.
  - apply PercentileInPlace_le; [exact Hne|].
    eapply Forall_impl; [|exact Hall]. intros v [_ H]. exact H.
  - unfold PercentileInPlace.
    destruct (Nat.eqb_spec (List.length sample) 0) as [E|_];
      [destruct sample; [congruence|discriminate]|].
    cbn [snd]. split; [apply sort_Sorted|apply sort_length].
Qed.

Lemma PercentileInPlace_bounds_witness :
  0.2 <= fst (PercentileInPlace [0.7; 0.2; 0.5] 30) <= 0.7.
Proof.
  apply (PercentileInPlace_bounds [0.7; 0.2; 0.5] 30 0.2 0.7).
  - discriminate.
  - repeat constructor; discriminate.
Defined.

Lemma PercentileInPlace_upper (sample : list Q) (pct b : Q) :
  0 <= b -> Forall (fun v => v <= b) sample -> fst (PercentileInPlace sample pct) <= b.
Proof.
  intros Hb Hall. destruct sample as [|x l]; [exact Hb|].
  apply PercentileInPlace_le; [discriminate|exact Hall].
Qed.

(** ** The anchors stay below 1 *)

Lemma subsample_upper (data : list Q) (count stride : Z) (b : Q) :
  0 <= b -> Forall (fun v => v <= b) data ->
  Forall (fun v => v <= b) (subsample data count stride).
Proof.
  intros Hb H. unfold subsample. apply Forall_forall. intros v Hin.
  apply in_map_iff in Hin. destruct Hin as (k & <- & _).
  apply nth_upper; assumption.
Qed.

Lemma SubsamplePercentile_upper (data : list Q) (count stride : Z) (pct b : Q) :
  0 <= b -> Forall (fun v => v <= b) data ->
  SubsamplePercentile data count stride pct <= b.
Proof.
  intros Hb H. unfold SubsamplePercentile.
  destruct (count =? 0)%Z; [exact Hb|].
  apply PercentileInPlace_upper; [exact Hb|]. apply subsample_upper; assumption.
Qed.

Lemma CalculateAnchor_upper (img : Image) :
  ((NumberOfChannels img =? 3)%Z = true \/
   Forall (fun v => v <= 1) (channel img 0)) ->
  CalculateAnchor img <= 0.99975.
Proof.
  intros H. unfold CalculateAnchor.
  destruct (NumberOfChannels img =? 3)%Z.
  - cbn [fold_left]. apply Q.max_lub; [discriminate|].
    set (f0 := SubsamplePercentile _ _ _ _). set (f1 := SubsamplePercentile _ _ _ _).
    set (f2 := SubsamplePercentile _ _ _ _).
    assert (Qmin (Qmin (Qmin 1 f0) f1) f2 <= 1).
    { eapply Qle_trans; [apply Q.le_min_l|].
      eapply Qle_trans; [apply Q.le_min_l|]. apply Q.le_min_l. }
    lra.
  - destruct H as [H|H]; [discriminate|].
    apply Q.max_lub; [discriminate|].
    pose proof (SubsamplePercentile_upper (channel img 0) (NumberOfPixels img)
                  (Z.max 1 (NumberOfPixels img * Z.max 1 (NumberOfChannels img) / 200000))
                  0.5 1 ltac:(discriminate) H).
    lra.
Qed.

Lemma histogram_loop_clipped (sub : list Q) :
  forall st,
    Forall (fun v => 0 <= v <= 1) (fst st) ->
    Forall (fun v => 0 <= v <= 1) (fst (fold_left histogram_step sub st)).
Proof.
  induction sub as [|v sub IH]; intros st Hst; [exact Hst|].
  cbn [fold_left]. apply IH. unfold histogram_step. cbn [fst].
  apply Forall_app. split; [exact Hst|]. constructor; [|constructor].
  split; [apply Q.le_max_l|]. apply Q.max_lub; [discriminate|apply Q.le_min_r].
Qed.

Lemma peak_fold_index (histSmooth : list Q) (l : list nat) :
  forall st,
    let r :=
      fold_left
        (fun st i =>
           if Qlt_le_dec (snd st) (nth i histSmooth 0)
           then (i, nth i histSmooth 0) else st)
        l st in
    fst r = fst st \/ In (fst r) l.
Proof.
  induction l as [|k l IH]; intros st; cbv zeta; [left; reflexivity|].
  cbn [fold_left].
  destruct (Qlt_le_dec (snd st) (nth k histSmooth 0)).
  - destruct (IH (k, nth k histSmooth 0)) as [E|E]; cbv zeta in E.
    + right. left. symmetry. exact E.
    + right. right. exact E.
  - destruct (IH st) as [E|E]; cbv zeta in E; [left; exact E|right; right; exact E].
Qed.

Lemma peak_search_index (histSmooth : list Q) (searchStart : nat) :
  (searchStart < Z.to_nat bins)%nat ->
  (fst (peak_search histSmooth searchStart) < Z.to_nat bins)%nat.
Proof.
  intros Hs. unfold peak_search.
  destruct (peak_fold_index histSmooth
              (seq (searchStart + 1) (Z.to_nat bins - (searchStart + 1)))
              (searchStart, nth searchStart histSmooth 0)) as [E|E]; cbv zeta in E.
  - rewrite E. exact Hs.
  - apply in_seq in E. lia.
Qed.

Lemma anchor_scan_bounds (histSmooth : list Q) (peakIdx : nat) (targetVal : Q) :
  (-1 <= anchor_scan histSmooth peakIdx targetVal <= Z.of_nat peakIdx - 1)%Z.
Proof.
  unfold anchor_scan.
  assert (H : forall l a,
             (-1 <= a <= Z.of_nat peakIdx - 1)%Z ->
             (forall i, In i l -> (i < peakIdx)%nat) ->
             (-1 <= fold_left
                      (fun anchorIdx i =>
                         if Qlt_le_dec (nth i histSmooth 0%Q) targetVal
                         then Z.of_nat i else anchorIdx) l a
              <= Z.of_nat peakIdx - 1)%Z).
  { induction l as [|k l IH]; intros a Ha Hl; [exact Ha|].
    cbn [fold_left]. apply IH; [|intros i Hi; apply Hl; right; exact Hi].
    destruct (Qlt_le_dec _ _); [|exact Ha].
    pose proof (Hl k (or_introl eq_refl)). lia. }
  apply H; [lia|]. intros i Hi. apply in_seq in Hi. lia.
Qed.

(** X17: the adaptive anchor of every image is at most 1; the
    statistical anchor of every three-channel image, and of every other
    image whose first channel holds no sample above 1, is at most 0.99975.
    With C5, the anchors of a normalized image lie in [[0,1]]. *)
Theorem anchors_at_most_one (img : Image) (profile : SensorProfile) :
  CalculateAnchorAdaptive img profile <= 1 /\
  (((NumberOfChannels img =? 3)%Z = true \/
    Forall (fun v => v <= 1) (channel img 0)) ->
   CalculateAnchor img <= 0.99975).
Proof.
  split; [|apply CalculateAnchor_upper].
  unfold CalculateAnchorAdaptive.
  pose proof (histogram_loop_clipped
                (subsample (adaptive_luma img profile) (NumberOfPixels img)
                   (Z.max 1 (NumberOfPixels img / 2000000)))
                ([], repeat 0%Z (Z.to_nat bins)) (Forall_nil _)) as Hclip.
  fold (build_histogram (adaptive_luma img profile) (NumberOfPixels img)
          (Z.max 1 (NumberOfPixels img / 2000000))) in Hclip.
  destruct (build_histogram _ _ _) as [sample hist]. cbn [fst] in Hclip.
  set (histSmooth := SmoothHistogramBox50 hist). clearbody histSmooth.
  change (Z.of_nat 100 >=? bins)%Z with false. cbv iota.
  set (searchStart := if Qlt_le_dec 0 (max_before histSmooth) then 0%nat else 100%nat).
  assert (Hss : (searchStart < Z.to_nat bins)%nat).
  { pose proof bins_value. unfold searchStart. destruct (Qlt_le_dec _ _); lia. }
  pose proof (peak_search_index histSmooth searchStart Hss) as Hpeak.
  destruct (peak_search histSmooth searchStart) as [peakIdx peakVal]. cbn [fst] in Hpeak.
  pose proof (anchor_scan_bounds histSmooth peakIdx (peakVal * 0.06)) as Hscan.
  set (anchorIdx := anchor_scan histSmooth peakIdx (peakVal * 0.06)) in *.
  apply Q.max_lub; [discriminate|].
  destruct (Z.geb_spec anchorIdx 0) as [Hge|Hlt].
  - assert (Hb : 0 < inject_Z bins) by reflexivity.
    apply Qle_shift_div_r; [exact Hb|]. rewrite Qmult_1_l.
    rewrite <- Zle_Qle. pose proof bins_value. lia.
  - apply PercentileInPlace_upper; [discriminate|].
    eapply Forall_impl; [|exact Hclip]. intros v [_ H]. exact H.
Qed.

Lemma anchors_at_most_one_witness : CalculateAnchor black_rgb <= 0.99975.
Proof.
  apply (anchors_at_most_one black_rgb (mkProfile 0.2126 0.7152 0.0722)).
  left. reflexivity.
Defined.

(** ** The histogram accounts for every sample *)

Lemma bin_of_range (v : Q) : (0 <= bin_of v < bins)%Z.
Proof.
  unfold bin_of. cbv zeta. pose proof bins_value as Hb.
  set (b := Qfloor (Qmin v 0.999999 * inject_Z bins)).
  destruct (Z.ltb_spec b 0); rewrite Z.geb_leb.
  - destruct (Z.leb_spec bins 0); lia.
  - destruct (Z.leb_spec bins b); lia.
Qed.

Lemma incr_at_length (bin : nat) (hist : list Z) :
  List.length (incr_at bin hist) = List.length hist.
Proof.
  revert bin. induction hist as [|h hist IH]; intros [|bin]; cbn [incr_at List.length];
    try reflexivity.
  rewrite IH. reflexivity.
Qed.

Lemma incr_at_sum (bin : nat) (hist : list Z) :
  (bin < List.length hist)%nat ->
  fold_right Z.add 0%Z (incr_at bin hist) = (fold_right Z.add 0%Z hist + 1)%Z.
Proof.
  revert bin. induction hist as [|h hist IH]; intros [|bin] Hb;
    cbn [incr_at List.length fold_right] in *; try lia.
  rewrite IH by lia. lia.
Qed.

Lemma repeat_zero_sum (n : nat) : fold_right Z.add 0%Z (repeat 0%Z n) = 0%Z.
Proof. induction n as [|n IH]; cbn [repeat fold_right]; [reflexivity|]. rewrite IH. reflexivity. Qed.

Lemma histogram_loop_counts (sub : list Q) :
  forall st,
    List.length (snd st) = Z.to_nat bins ->
    let r := fold_left histogram_step sub st in
    List.length (snd r) = Z.to_nat bins /\
    fold_right Z.add 0%Z (snd r) =
      (fold_right Z.add 0%Z (snd st) + Z.of_nat (List.length sub))%Z /\
    List.length (fst r) = (List.length (fst st) + List.length sub)%nat.
Proof.
  induction sub as [|v sub IH]; intros st Hst; cbv zeta.
  - cbn [fold_left List.length]. repeat split; lia.
  - cbn [fold_left].
    set (st' := histogram_step st v).
    assert (Hlen : List.length (snd st') = Z.to_nat bins)
      by (unfold st', histogram_step; cbn [snd]; rewrite incr_at_length; exact Hst).
    assert (Hsum : fold_right Z.add 0%Z (snd st') = (fold_right Z.add 0%Z (snd st) + 1)%Z).
    { unfold st', histogram_step. cbn [snd]. apply incr_at_sum.
      pose proof (bin_of_range (Qmax 0 (Qmin v 1))). rewrite Hst. lia. }
    assert (Hfst : List.length (fst st') = S (List.length (fst st)))
      by (unfold st', histogram_step; cbn [fst]; rewrite length_app; cbn; lia).
    destruct (IH st' Hlen) as (H1 & H2 & H3). cbv zeta in H1, H2, H3.
    split; [exact H1|]. split.
    + rewrite H2, Hsum. cbn [List.length]. lia.
    + rewrite H3, Hfst. cbn [List.length]. lia.
Qed.

(** X25: every sample lands in one of the 65536 bins, none outside: the
    bin index of any value is in [[0, bins)], the histogram that
    [CalculateAnchorAdaptive] builds keeps its 65536 bins, and its counts
    add up to the number of samples drawn, which is the size of the
    retained subsample. *)
Theorem build_histogram_counts (data : list Q) (N stride : Z) :
  (forall v, (0 <= bin_of v < bins)%Z) /\
  List.length (snd (build_histogram data N stride)) = Z.to_nat bins /\
  fold_right Z.add 0%Z (snd (build_histogram data N stride)) =
    Z.of_nat (List.length (subsample data N stride)) /\
  List.length (fst (build_histogram data N stride)) =
    List.length (subsample data N stride).
Proof.
  split; [apply bin_of_range|]. unfold build_histogram.
  destruct (histogram_loop_counts (subsample data N stride)
              ([], repeat 0%Z (Z.to_nat bins))) as (H1 & H2 & H3).
  { cbn [snd]. apply repeat_length. }
  cbv zeta in H1, H2, H3. cbn [fst snd List.length] in H2, H3.
  rewrite repeat_zero_sum in H2.
  split; [exact H1|]. split; [rewrite H2; lia|rewrite H3; lia].
Qed.

(** ** The range normaliser when it runs *)

Lemma unit_clamp_range (v : Q) : 0 <= Qmax 0 (Qmin v 1) <= 1.
Proof.
  split; [apply Q.le_max_l|]. apply Q.max_lub; [discriminate|apply Q.le_min_r].
Qed.

Lemma unit_clamp_mono (v w : Q) : v <= w -> Qmax 0 (Qmin v 1) <= Qmax 0 (Qmin w 1).
Proof.
  intros H. apply Q.max_le_compat_l. apply Q.min_le_compat_r. exact H.
Qed.

Lemma expand_sample_mono (low range factor x y : Q) :
  0 < range -> 0 <= factor <= 1 -> x <= y ->
  expand_sample low range factor x <= expand_sample low range factor y.
Proof.
  intros Hr Hf Hxy. unfold expand_sample.
  assert (Hd : (x - low) / range <= (y - low) / range).
  { unfold Qdiv. apply Qmult_le_compat_r; [lra|].
    apply Qlt_le_weak, Qinv_lt_0_compat, Hr. }
  pose proof (unit_clamp_mono _ _ Hd) as Hn.
  pose proof (unit_clamp_range ((x - low) / range)) as Hx.
  set (nx := Qmax 0 (Qmin ((x - low) / range) 1)) in *.
  set (ny := Qmax 0 (Qmin ((y - low) / range) 1)) in *.
  clearbody nx ny. clear Hd. nra.
Qed.

Lemma expand_sample_unit (low range factor x : Q) :
  0 <= factor <= 1 -> 0 <= x <= 1 ->
  0 <= expand_sample low range factor x <= 1.
Proof.
  intros Hf Hx. unfold expand_sample.
  pose proof (unit_clamp_range ((x - low) / range)) as Hn.
  set (n := Qmax 0 (Qmin ((x - low) / range) 1)) in *. clearbody n. nra.
Qed.

Lemma expand_sample_full (low range factor x : Q) :
  0 < range -> factor == 1 ->
  (x <= low -> expand_sample low range factor x == 0) /\
  (low + range <= x -> expand_sample low range factor x == 1).
Proof.
  intros Hr Hf. unfold expand_sample.
  pose proof (unit_clamp_range ((x - low) / range)) as Hn.
  split; intros Hx.
  - assert (Hd : (x - low) / range <= 0) by (apply Qle_shift_div_r; lra).
    assert (Hz : Qmax 0 (Qmin ((x - low) / range) 1) <= 0).
    { apply Q.max_lub; [apply Qle_refl|].
      eapply Qle_trans; [apply Q.le_min_l|exact Hd]. }
    set (n := Qmax 0 (Qmin ((x - low) / range) 1)) in *. clearbody n.
    clear Hd. apply Qle_antisym; nra.
  - assert (Hd : 1 <= (x - low) / range) by (apply Qle_shift_div_l; lra).
    assert (Hz : 1 <= Qmax 0 (Qmin ((x - low) / range) 1)).
    { eapply Qle_trans; [|apply Q.le_max_r]. apply Q.min_glb; [exact Hd|apply Qle_refl]. }
    set (n := Qmax 0 (Qmin ((x - low) / range) 1)) in *. clearbody n.
    clear Hd. apply Qle_antisym; nra.
Qed.

Section ExpansionExtra.

Variable LocateMaximumSampleValue : Image -> Z * Z.

(** X18: when the factor exceeds the [float] constant [0.001f] it is
    compared with and the resolved high bound exceeds the resolved low
    bound, [ApplyLinearExpansion] replaces every
    sample by one function [g] of it (the blend with the factor clamped to
    [[0,1]]); [g] preserves the order of the samples and maps [[0,1]] into
    [[0,1]]; with a factor of 1 or more it sends every sample at or below
    the low bound to 0 and every sample at or above the high bound to 1. *)
Theorem ApplyLinearExpansion_expands (target : Image) (factor : Q)
    (diagnostics : option LinearExpansionStats) :
  ~ factor <= float_0_001 ->
  resolved_low target < resolved_high LocateMaximumSampleValue target ->
  let low := resolved_low target in
  let high := resolved_high LocateMaximumSampleValue target in
  let g := expand_sample low (high - low) (Qmax 0 (Qmin factor 1)) in
  fst (ApplyLinearExpansion LocateMaximumSampleValue target factor diagnostics)
  = map_samples g target /\
  (forall x y, x <= y -> g x <= g y) /\
  (forall x, 0 <= x <= 1 -> 0 <= g x <= 1) /\
  (1 <= factor -> forall x, (x <= low -> g x == 0) /\ (high <= x -> g x == 1)).
Proof.
  intros Hf Hr. cbv zeta.
  pose proof (unit_clamp_range factor) as Hc.
  split; [|split; [|split]].
  - unfold ApplyLinearExpansion.
    destruct (Qle_bool factor float_0_001) eqn:E;
      [apply Qle_bool_iff in E; contradiction|].
    destruct (Qle_bool (resolved_high LocateMaximumSampleValue target)
                       (resolved_low target)) eqn:E2;
      [apply Qle_bool_iff in E2; lra|].
    reflexivity.
  - intros x y Hxy. apply expand_sample_mono; [lra|exact Hc|exact Hxy].
  - intros x Hx. apply expand_sample_unit; assumption.
  - intros H1 x.
    assert (Hone : Qmax 0 (Qmin factor 1) == 1).
    { rewrite Q.min_r by exact H1. apply Q.max_r. discriminate. }
    destruct (expand_sample_full (resolved_low target)
                (resolved_high LocateMaximumSampleValue target - resolved_low target)
                (Qmax 0 (Qmin factor 1)) x ltac:(lra) Hone) as [Hlo Hhi].
    split; [exact Hlo|]. intros Hx. apply Hhi. lra.
Qed.

End ExpansionExtra.

Lemma ApplyLinearExpansion_expands_witness :
  fst (ApplyLinearExpansion LocateFirstMaximum grey_ramp 1 None) =
  map_samples
    (expand_sample (resolved_low grey_ramp)
       (resolved_high LocateFirstMaximum grey_ramp - resolved_low grey_ramp)
       (Qmax 0 (Qmin 1 1)))
    grey_ramp.
Proof.
  apply (ApplyLinearExpansion_expands LocateFirstMaximum grey_ramp 1 None).
  - vm_compute. intros H. apply H. reflexivity.
  - vm_compute. reflexivity.
Defined.

(** ** The smart-max test *)

Lemma Zrange_In (lo hi x : Z) : In x (Zrange lo hi) <-> (lo <= x < hi)%Z.
Proof.
  unfold Zrange. rewrite in_map_iff. split.
  - intros (k & <- & Hk). apply in_seq in Hk. lia.
  - intros H. exists (Z.to_nat (x - lo)). split; [lia|]. apply in_seq. lia.
Qed.

Lemma neighbor_row (absMax t : Q) (f : Z -> Q) (xs : list Z) :
  forall init,
    t <= fold_left
           (fun maxNeighbor x =>
              if Qlt_le_dec (f x) absMax then Qmax maxNeighbor (f x) else maxNeighbor)
           xs init
    <-> t <= init \/ exists x, In x xs /\ f x < absMax /\ t <= f x.
Proof.
  induction xs as [|x xs IH]; intros init; cbn [fold_left].
  - split; [intros H; left; exact H|]. intros [H|(x & [] & _)]. exact H.
  - rewrite IH. destruct (Qlt_le_dec (f x) absMax) as [Hlt|Hge].
    + rewrite Q.max_le_iff. split.
      * intros [[H|H]|(x' & Hin & H)]; [left; exact H| |].
        -- right. exists x. split; [left; reflexivity|split; assumption].
        -- right. exists x'. split; [right; exact Hin|exact H].
      * intros [H|(x' & [<-|Hin] & Hx & Ht)]; [left; left; exact H| |].
        -- left. right. exact Ht.
        -- right. exists x'. split; [exact Hin|split; assumption].
    + split.
      * intros [H|(x' & Hin & H)]; [left; exact H|].
        right. exists x'. split; [right; exact Hin|exact H].
      * intros [H|(x' & [<-|Hin] & Hx & Ht)]; [left; exact H|lra|].
        right. exists x'. split; [exact Hin|split; assumption].
Qed.

Lemma neighbor_rows (absMax t : Q) (f : Z -> Z -> Q) (xs ys : list Z) :
  forall init,
    t <= fold_left
           (fun maxNeighbor y =>
              fold_left
                (fun maxNeighbor x =>
                   if Qlt_le_dec (f x y) absMax
                   then Qmax maxNeighbor (f x y) else maxNeighbor)
                xs maxNeighbor)
           ys init
    <-> t <= init \/
        exists x y, In x xs /\ In y ys /\ f x y < absMax /\ t <= f x y.
Proof.
  induction ys as [|y ys IH]; intros init; cbn [fold_left].
  - split; [intros H; left; exact H|]. intros [H|(x & y & _ & [] & _)]. exact H.
  - rewrite IH. rewrite (neighbor_row absMax t (fun x => f x y)). split.
    + intros [[H|(x & Hx & H)]|(x & y' & Hx & Hy & H)].
      * left. exact H.
      * right. exists x, y. split; [exact Hx|split; [left; reflexivity|exact H]].
      * right. exists x, y'. split; [exact Hx|split; [right; exact Hy|exact H]].
    + intros [H|(x & y' & Hx & [<-|Hy] & H)].
      * left. left. exact H.
      * left. right. exists x. split; assumption.
      * right. exists x, y'. split; [exact Hx|split; assumption].
Qed.

Section SmartMax.

Variable LocateMaximumSampleValue : Image -> Z * Z.

(** X19: the smart-max test of [ApplyLinearExpansion] accepts the
    absolute maximum exactly when it exceeds 0.001 and some pixel of
    channel 0 in the 3x3 neighbourhood of the located maximum, clipped to
    the image, is strictly below the maximum and at least 20% of it. *)
Theorem useAbsoluteMax_spec (target : Image) :
  let absMax := MaximumSampleValue target in
  let maxPos := LocateMaximumSampleValue target in
  useAbsoluteMax LocateMaximumSampleValue target = true <->
  0.001 < absMax /\
  exists x y,
    (Z.max 0 (fst maxPos - 1) <= x < Z.min (Width target) (fst maxPos + 2))%Z /\
    (Z.max 0 (snd maxPos - 1) <= y < Z.min (Height target) (snd maxPos + 2))%Z /\
    pixel target x y < absMax /\ absMax * 0.20 <= pixel target x y.
Proof.
  cbv zeta. unfold useAbsoluteMax.
  set (absMax := MaximumSampleValue target).
  set (maxPos := LocateMaximumSampleValue target).
  destruct (Qlt_le_dec 0.001 absMax) as [Hbig|Hsmall].
  - pose proof (neighbor_rows absMax (absMax * 0.20) (pixel target)
                  (Zrange (Z.max 0 (fst maxPos - 1)) (Z.min (Width target) (fst maxPos + 2)))
                  (Zrange (Z.max 0 (snd maxPos - 1)) (Z.min (Height target) (snd maxPos + 2)))
                  0) as Hn.
    fold (max_neighbor target absMax maxPos) in Hn.
    destruct (Qlt_le_dec (max_neighbor target absMax maxPos) (absMax * 0.20))
      as [Hlt|Hge].
    + split; [discriminate|]. intros (_ & x & y & Hx & Hy & H).
      exfalso. apply (Qlt_not_le _ _ Hlt). apply Hn. right.
      exists x, y. rewrite !Zrange_In. split; [exact Hx|split; [exact Hy|exact H]].
    + split; [|reflexivity]. intros _. split; [exact Hbig|].
      apply Hn in Hge. destruct Hge as [H0|(x & y & Hx & Hy & H)]; [lra|].
      exists x, y. rewrite Zrange_In in Hx, Hy. split; [exact Hx|split; [exact Hy|exact H]].
  - split; [discriminate|]. intros [H _]. lra.
Qed.

End SmartMax.

Lemma useAbsoluteMax_spec_witness :
  useAbsoluteMax LocateFirstMaximum grey_ramp = true.
Proof.
  apply (useAbsoluteMax_spec LocateFirstMaximum grey_ramp).
  split; [vm_compute; reflexivity|].
  exists 0%Z, 1%Z. vm_compute. repeat split; discriminate.
Defined.

End StatsExtra.

(** * Further properties of the input normalisation *)

Module InputExtra.

Import Input.
Local Open Scope Q_scope.

Lemma truncate01_sanitize (s : Sample) :
  exists v, truncate01 (sanitize s) = Finite v /\ 0 <= v <= 1.
Proof.
  destruct s as [v|]; cbn [sanitize].
  - destruct (Qlt_le_dec v 0); cbn [truncate01].
    + exists 0. split; [reflexivity|split; discriminate].
    + destruct (Qlt_le_dec v 0); [lra|].
      destruct (Qlt_le_dec 1 v).
      * exists 1. split; [reflexivity|split; discriminate].
      * exists v. split; [reflexivity|split; assumption].
  - exists 0. split; [reflexivity|split; discriminate].
Qed.

Section NormalizeExtra.

Variable Assign : ImageVariant -> FloatImage.
Variable MaximumSampleValue : FloatImage -> Q.

(** X20: whenever [NormalizeInput] returns, every sample of the target
    is a finite number in [[0,1]]: NaN, infinities and negative samples
    have become 0 and samples above 1 have become 1, whatever the source
    format and whatever [Assign] stored. *)
Theorem NormalizeInput_range (target : FloatImage) (source : ImageVariant) :
  snd (NormalizeInput Assign MaximumSampleValue target source) = Returned ->
  Forall (Forall (fun s => exists v, s = Finite v /\ 0 <= v <= 1))
         (channels (fst (NormalizeInput Assign MaximumSampleValue target source))).
Proof.
  unfold NormalizeInput.
  destruct (convert Assign MaximumSampleValue target source) as [t [|message]];
    cbn [fst snd]; [intros _|discriminate].
  unfold map_samples. cbn [channels]. rewrite map_map.
  apply Forall_forall. intros ch Hin. apply in_map_iff in Hin.
  destruct Hin as (ch0 & <- & _). rewrite map_map.
  apply Forall_forall. intros s Hin. apply in_map_iff in Hin.
  destruct Hin as (s0 & <- & _). apply truncate01_sanitize.
Qed.

End NormalizeExtra.

Lemma NormalizeInput_range_witness :
  Forall (Forall (fun s => exists v, s = Finite v /\ 0 <= v <= 1))
         (channels (fst (NormalizeInput AssignPayload MaximumFinite blank_target
                           float_source))).
Proof.
  apply (NormalizeInput_range AssignPayload MaximumFinite blank_target float_source).
  reflexivity.
Defined.

End InputExtra.

(** * Properties of the process instance *)

Module InstanceProps.

Import Stats StatsProps Finishing FinishingProps Instance.
Local Open Scope Q_scope.

Lemma table_balanced : Forall (fun e => balanced (weights e)) s_sensorProfilesData.
Proof.
  unfold s_sensorProfilesData, balanced.
  repeat (constructor; [cbn [weights rWeight gWeight bWeight];
                        repeat split; (reflexivity || discriminate)|]).
  constructor.
Qed.

Lemma GetSensorProfile_In (inst : HyperMetricStretchInstance) :
  In (GetSensorProfile inst) s_sensorProfilesData.
Proof.
  unfold GetSensorProfile, g_sensorProfiles, g_numSensorProfiles.
  destruct (_ && _)%bool eqn:E.
  - apply andb_prop in E. destruct E as [E1 E2].
    apply Z.geb_le in E1. apply Z.ltb_lt in E2. apply nth_In. lia.
  - apply nth_In. cbn. lia.
Qed.

Lemma GetSensorProfile_weights (inst : HyperMetricStretchInstance) :
  balanced (weights (GetSensorProfile inst)).
Proof.
  pose proof table_balanced as H. rewrite Forall_forall in H.
  apply H. apply GetSensorProfile_In.
Qed.

(** X21: whatever index the instance holds, negative or beyond the table
    included, [GetSensorProfile] returns an entry of the table of 27
    profiles (entry 0 when the index is out of range), and every entry has
    positive weights whose sum lies between 1 and 1.0001. *)
Theorem GetSensorProfile_balanced (inst : HyperMetricStretchInstance) :
  g_numSensorProfiles = 27%Z /\
  In (GetSensorProfile inst) s_sensorProfilesData /\
  balanced (weights (GetSensorProfile inst)) /\
  (~ (0 <= sensorProfile inst < 27)%Z ->
   GetSensorProfile inst = g_sensorProfiles 0).
Proof.
  split; [reflexivity|]. split; [apply GetSensorProfile_In|].
  split; [apply GetSensorProfile_weights|].
  intros H. unfold GetSensorProfile.
  destruct (_ && _)%bool eqn:E; [|reflexivity].
  apply andb_prop in E. destruct E as [E1 E2].
  apply Z.geb_le in E1. apply Z.ltb_lt in E2.
  change g_numSensorProfiles with 27%Z in E2. lia.
Qed.

Lemma GetSensorProfile_balanced_witness :
  GetSensorProfile (mkInstance ReadyToUse 99 0.20 2 6 3.5 0 1 0 0 true) =
  g_sensorProfiles 0.
Proof.
  apply (GetSensorProfile_balanced (mkInstance ReadyToUse 99 0.20 2 6 3.5 0 1 0 0 true)).
  cbn. lia.
Defined.

(** X22: in ready-to-use mode with the colour strategy in its range
    [[-100, 100]], the effective grip lies in [[0.4, 1]], the effective
    shadow convergence in [[0, 3]], at least one of the two is neutral
    (grip 1 or shadow 0), and the linear expansion is off; in scientific
    mode the three explicit parameters pass through. *)
Theorem GetEffectiveParams_ranges (inst : HyperMetricStretchInstance) :
  (processingMode inst = ReadyToUse ->
   (-100 <= colorStrategy inst <= 100)%Z ->
   let '(grip, shadow, linearExp) := GetEffectiveParams inst in
   0.4 <= grip <= 1 /\ 0 <= shadow <= 3 /\
   (grip == 1 \/ shadow == 0) /\ linearExp == 0) /\
  (processingMode inst = Scientific ->
   GetEffectiveParams inst =
   (colorGrip inst, shadowConvergence inst, linearExpansion inst)).
Proof.
  unfold GetEffectiveParams. split; intros Hm; rewrite Hm; [|reflexivity].
  intros Hr. destruct (Z.ltb_spec (colorStrategy inst) 0) as [Hneg|Hpos].
  - assert (H0 : 0 <= inject_Z (Z.abs (colorStrategy inst)))
      by (change 0 with (inject_Z 0); rewrite <- Zle_Qle; lia).
    assert (H1 : inject_Z (Z.abs (colorStrategy inst)) <= 100)
      by (change 100 with (inject_Z 100); rewrite <- Zle_Qle; lia).
    set (a := inject_Z (Z.abs (colorStrategy inst))) in *. clearbody a.
    split; [split; discriminate|].
    split; [|split; [left; reflexivity|reflexivity]].
    split.
    + apply Qmult_le_0_compat; [|discriminate].
      apply Qle_shift_div_l; [reflexivity|]. lra.
    + assert (a / 100 <= 1) by (apply Qle_shift_div_r; [reflexivity|]; lra).
      set (q := a / 100) in *. clearbody q. lra.
  - assert (H0 : 0 <= inject_Z (colorStrategy inst))
      by (change 0 with (inject_Z 0); rewrite <- Zle_Qle; lia).
    assert (H1 : inject_Z (colorStrategy inst) <= 100)
      by (change 100 with (inject_Z 100); rewrite <- Zle_Qle; lia).
    set (a := inject_Z (colorStrategy inst)) in *. clearbody a.
    assert (Hq0 : 0 <= a / 100) by (apply Qle_shift_div_l; [reflexivity|]; lra).
    assert (Hq1 : a / 100 <= 1) by (apply Qle_shift_div_r; [reflexivity|]; lra).
    set (q := a / 100) in *. clearbody q.
    split; [split; lra|].
    split; [split; discriminate|].
    split; [right; reflexivity|reflexivity].
Qed.

Lemma GetEffectiveParams_ranges_witness :
  let '(grip, shadow, linearExp) :=
    GetEffectiveParams (mkInstance ReadyToUse 0 0.20 2 6 3.5 (-40) 1 0 0 true) in
  0.4 <= grip <= 1 /\ 0 <= shadow <= 3 /\
  (grip == 1 \/ shadow == 0) /\ linearExp == 0.
Proof.
  apply (GetEffectiveParams_ranges
           (mkInstance ReadyToUse 0 0.20 2 6 3.5 (-40) 1 0 0 true)).
  - reflexivity.
  - cbn. lia.
Defined.



(** X26: the luminance that [ExtractLuminance] computes and the anchored
    image that [ExecuteOn] and [Preview] hand to [ReconstructColor] agree:
    for a colour image each luminance sample is the profile-weighted sum
    of the three anchored channels of that pixel, and for any other image
    the two images are the same. *)
Theorem AnchoredRGB_luminance (working : Image) (anchor : Q) (profile : SensorProfile) :
  (NumberOfChannels working = 3%Z ->
   forall i, (i < Z.to_nat (NumberOfPixels working))%nat ->
     nth i (channel (ExtractLuminance working anchor profile) 0) 0 =
     weighted_sum profile
       (nth i (channel (AnchoredRGB working anchor) 0) 0)
       (nth i (channel (AnchoredRGB working anchor) 1) 0)
       (nth i (channel (AnchoredRGB working anchor) 2) 0)) /\
  (NumberOfChannels working <> 3%Z ->
   ExtractLuminance working anchor profile = AnchoredRGB working anchor).
Proof.
  unfold ExtractLuminance, AnchoredRGB. split; intros Hc.
  - rewrite Hc. cbn [Z.eqb Pos.eqb]. intros i Hi.
    unfold channel. cbn [channels map nth].
    assert (Hnth : forall f : nat -> Q,
               nth i (map f (seq 0 (Z.to_nat (NumberOfPixels working)))) 0 = f i).
    { intros f. rewrite (nth_indep _ 0 (f 0%nat))
        by (rewrite length_map, length_seq; exact Hi).
      rewrite (map_nth f). rewrite seq_nth by exact Hi. reflexivity. }
    rewrite !Hnth. reflexivity.
  - destruct (Z.eqb_spec (NumberOfChannels working) 3); [contradiction|reflexivity].
Qed.

Lemma AnchoredRGB_luminance_witness :
  nth 0 (channel (ExtractLuminance orange_pixel 0.1 (mkProfile 0.2126 0.7152 0.0722)) 0) 0 =
  weighted_sum (mkProfile 0.2126 0.7152 0.0722)
    (nth 0 (channel (AnchoredRGB orange_pixel 0.1) 0) 0)
    (nth 0 (channel (AnchoredRGB orange_pixel 0.1) 1) 0)
    (nth 0 (channel (AnchoredRGB orange_pixel 0.1) 2) 0).
Proof.
  apply (AnchoredRGB_luminance orange_pixel 0.1 (mkProfile 0.2126 0.7152 0.0722)).
  - reflexivity.
  - cbn. lia.
Defined.

End InstanceProps.
